(** * GitBlameProvider: the blame parser, its per-file cache and its range views

    A shallow embedding of [src/gitBlameProvider.ts].

    - JavaScript strings are sequences of UTF-16 code units ([jsstring]).
    - The regular expression [blameMatcher] is written in a small regex
      syntax and run by a backtracking matcher that follows the ECMAScript
      semantics of the constructs the pattern uses (greedy quantifiers on
      character classes, capture groups, [^] and [$] under the [m] flag,
      [lastIndex] under the [g] flag).
    - [Map<string, IGitBlameCommit>] is an insertion-ordered association
      list (the order is observable), the cache [_files] is a [gmap].
    - Promises live in a store; a promise is referred to by its address, so
      "the same promise" is equality of addresses. *)

From Stdlib Require Import ZArith NArith Ascii String.
From stdpp Require Import base option list gmap.

Local Open Scope nat_scope.

(** ** Strings *)

(** A UTF-16 code unit. *)
Definition char := N.
Definition jsstring := list char.

(** Transcription of an ASCII literal, used to write the constants of the
    source and the examples. *)
Definition js (s : string) : jsstring :=
  (fun a => N_of_ascii a) <$> list_ascii_of_string s.

Definition chr (a : ascii) : char := N_of_ascii a.

(** ECMAScript [LineTerminator]: LF, CR, LS, PS. *)
Definition isLineTerminator (c : char) : bool :=
  (N.eqb c 10 || N.eqb c 13 || N.eqb c 8232 || N.eqb c 8233)%N.

(** ECMAScript [WhiteSpace] or [LineTerminator]: the class [\s], and the
    characters [String.prototype.trim] strips. *)
Definition isSpace (c : char) : bool :=
  ((N.leb 9 c && N.leb c 13) || N.eqb c 32 || N.eqb c 160 || N.eqb c 5760
   || (N.leb 8192 c && N.leb c 8202) || N.eqb c 8232 || N.eqb c 8233
   || N.eqb c 8239 || N.eqb c 8287 || N.eqb c 12288 || N.eqb c 65279)%N.

Definition isDigit (c : char) : bool := (N.leb 48 c && N.leb c 57)%N.

Definition isChar (a : ascii) (c : char) : bool := N.eqb c (chr a).

(** The double quote. *)
Definition isQuote (c : char) : bool := N.eqb c 34.

(** [String.prototype.trim]. *)
Fixpoint trimStart (s : jsstring) : jsstring :=
  match s with
  | c :: s' => if isSpace c then trimStart s' else s
  | [] => []
  end.

Definition trim (s : jsstring) : jsstring :=
  reverse (trimStart (reverse (trimStart s))).

(** ** Numbers

    The numbers of this program are line numbers, indices and counts: a
    [number] is an integer or [NaN].  The development computes with the
    integers exactly; so does JavaScript with the safe integers, those up
    to 2^53 - 1 in absolute value, and that is the range in which [Num z]
    and the operations below are the numbers and operations of the
    program. *)
Inductive number :=
| NaN
| Num (z : Z).

#[global] Instance number_eq_dec : EqDecision number.
Proof. solve_decision. Defined.

(** The integers that a number holds exactly. *)
Definition safeInteger (z : Z) : Prop := (Z.abs z ≤ 9007199254740991)%Z.

(** [a - b]. *)
Definition number_sub (a b : number) : number :=
  match a, b with
  | Num x, Num y => Num (x - y)
  | _, _ => NaN
  end.

Definition digitValue (c : char) : Z := Z.of_N c - 48.

(** The value of a run of decimal digits, most significant first. *)
Definition digitsValue (ds : jsstring) : Z :=
  foldl (fun acc c => 10 * acc + digitValue c)%Z 0%Z ds.

(** The longest prefix of [s] whose characters satisfy [p]. *)
Fixpoint takeWhile (p : char -> bool) (s : jsstring) : jsstring :=
  match s with
  | c :: s' => if p c then c :: takeWhile p s' else []
  | [] => []
  end.

(** [parseInt(s, 10)]: leading white space is skipped, then an optional
    sign, then the longest run of decimal digits; [NaN] when that run is
    empty. *)
Definition parseInt10 (s : jsstring) : number :=
  let s1 := trimStart s in
  let '(sign, s2) :=
    match s1 with
    | c :: s' =>
        if isChar "-" c then ((-1)%Z, s')
        else if isChar "+" c then (1%Z, s')
        else (1%Z, s1)
    | [] => (1%Z, s1)
    end in
  match takeWhile isDigit s2 with
  | [] => NaN
  | ds => Num (sign * digitsValue ds)
  end.

(** ** Regular expressions *)

(** The constructs [blameMatcher] is made of.  A quantifier applies to a
    character class and is greedy. *)
Inductive regex :=
| Bol                                   (* ^ under the m flag *)
| Eol                                   (* $ under the m flag *)
| Cls (p : char -> bool)                (* one character of a class *)
| Rep (p : char -> bool) (min : nat) (max : option nat)
                                        (* class{min,max}, class*, class+ *)
| Seq (r1 r2 : regex)
| Grp (i : nat) (r : regex).            (* the i-th capture group *)

Declare Scope regex_scope.
Delimit Scope regex_scope with re.
Bind Scope regex_scope with regex.
Infix ">>" := Seq (at level 41, right associativity) : regex_scope.

Definition Star (p : char -> bool) : regex := Rep p 0 None.
Definition Plus (p : char -> bool) : regex := Rep p 1 None.
Definition Times (n : nat) (p : char -> bool) : regex := Rep p n (Some n).
Definition Lit (a : ascii) : regex := Cls (isChar a).

(** The captures of a match in progress: group number to captured text. *)
Definition captures := gmap nat jsstring.

Section Matcher.
(** The subject string; positions are suffixes of it. *)
Variable input : jsstring.

Definition position (rest : jsstring) : nat := length input - length rest.

(** [^] with the [m] flag holds at the start of the input and after a line
    terminator. *)
Definition atLineStart (rest : jsstring) : bool :=
  match position rest with
  | 0 => true
  | S i => match input !! i with Some c => isLineTerminator c | None => false end
  end.

(** [$] with the [m] flag holds at the end of the input and before a line
    terminator. *)
Definition atLineEnd (rest : jsstring) : bool :=
  match rest with
  | [] => true
  | c :: _ => isLineTerminator c
  end.

(** The greedy quantifier on a class: take one more character while the
    class and the upper bound allow it, and fall back to the continuation
    once the lower bound is met. *)
Fixpoint repeatClass {X} (p : char -> bool) (min : nat) (max : option nat)
    (rest : jsstring) (k : jsstring -> option X) {struct rest} : option X :=
  match max with
  | Some 0 => k rest
  | _ =>
    match rest with
    | c :: rest' =>
        if p c then
          match repeatClass p (pred min) (pred <$> max) rest' k with
          | Some x => Some x
          | None => match min with 0 => k rest | S _ => None end
          end
        else match min with 0 => k rest | S _ => None end
    | [] => match min with 0 => k rest | S _ => None end
    end
  end.

(** The matcher of a pattern, in continuation-passing style: [k] is given
    the remaining input and the captures, and its failure makes the
    matcher backtrack. *)
Fixpoint matcher {X} (r : regex) (rest : jsstring) (caps : captures)
    (k : jsstring -> captures -> option X) : option X :=
  match r with
  | Bol => if atLineStart rest then k rest caps else None
  | Eol => if atLineEnd rest then k rest caps else None
  | Cls p =>
      match rest with
      | c :: rest' => if p c then k rest' caps else None
      | [] => None
      end
  | Rep p min max => repeatClass p min max rest (fun rest' => k rest' caps)
  | Seq r1 r2 =>
      matcher r1 rest caps (fun rest1 caps1 => matcher r2 rest1 caps1 k)
  | Grp i r1 =>
      matcher r1 rest caps (fun rest' caps' =>
        k rest' (<[i := take (length rest - length rest') rest]> caps'))
  end.

(** The match of the pattern that starts at the position of [rest]. *)
Definition matchAt (r : regex) (rest : jsstring) : option (jsstring * captures) :=
  matcher r rest ∅ (fun rest' caps => Some (rest', caps)).

(** The first position at or after that of [rest] where the pattern
    matches. *)
Fixpoint search (r : regex) (rest : jsstring) : option (jsstring * jsstring * captures) :=
  match matchAt r rest with
  | Some (rest', caps) => Some (rest, rest', caps)
  | None =>
      match rest with
      | _ :: rest1 => search r rest1
      | [] => None
      end
  end.
End Matcher.

(** The array [exec] returns: [m[0]] is the matched text, [m[i]] the text of
    group [i]; [index] is where the match starts. *)
Record RegExpMatch := {
  index : nat;
  matched : jsstring;
  groups : captures;
}.

(** [m[i]] for a group that took part in the match. *)
Definition group (m : RegExpMatch) (i : nat) : jsstring :=
  default [] (groups m !! i).

Definition matchEnd (m : RegExpMatch) : nat := index m + length (matched m).

(** [re.exec(input)] for a pattern with the [g] flag and the given
    [lastIndex]: the result and the new [lastIndex]. *)
Definition exec (r : regex) (input : jsstring) (lastIndex : nat)
  : option RegExpMatch * nat :=
  if decide (length input < lastIndex) then (None, 0)
  else
    match search input r (drop lastIndex input) with
    | Some (start, rest', caps) =>
        let m := {| index := position input start;
                    matched := take (length start - length rest') start;
                    groups := caps |} in
        (Some m, position input rest')
    | None => (None, 0)
    end.

(** ** The attribution line pattern *)

Definition isHashChar (c : char) : bool :=
  (isChar "^" c || isDigit c || (N.leb 97 c && N.leb c 102) || (N.leb 65 c && N.leb c 70))%N.
Definition notSpace (c : char) : bool := negb (isSpace c).
(** [[0-9\S]]: a digit or a non-space character. *)
Definition digitOrNotSpace (c : char) : bool := isDigit c || notSpace c.
(** [.]: any character but a line terminator. *)
Definition dot (c : char) : bool := negb (isLineTerminator c).
(** [[-|+]]. *)
Definition signChar (c : char) : bool := isChar "-" c || isChar "|" c || isChar "+" c.

(** [[0-9]{4}-[0-9]{2}-[0-9]{2}\s[0-9]{2}:[0-9]{2}:[0-9]{2}\s[-|+][0-9]{4}] *)
Definition timestampPattern : regex :=
  (Times 4 isDigit >> Lit "-" >> Times 2 isDigit >> Lit "-" >> Times 2 isDigit >>
   Cls isSpace >>
   Times 2 isDigit >> Lit ":" >> Times 2 isDigit >> Lit ":" >> Times 2 isDigit >>
   Cls isSpace >> Cls signChar >> Times 4 isDigit)%re.

(** The pattern of the source, with the flags [g] and [m]; piece by piece:
    [^], group 1 [[\^0-9a-fA-F]{8}], [\s], group 2 [[\S]*], [\s+],
    group 3 [[0-9\S]+], [\s], an opening parenthesis, group 4 (any run of
    characters of a line, greedy), [\s], group 5 (the timestamp), [\s+],
    group 6 [[0-9]+], a closing parenthesis, group 7 (the rest of the
    line), [$]. *)
Definition blameMatcher : regex :=
  (Bol >> Grp 1 (Times 8 isHashChar) >> Cls isSpace >> Grp 2 (Star notSpace) >>
   Plus isSpace >> Grp 3 (Plus digitOrNotSpace) >> Cls isSpace >> Lit "(" >>
   Grp 4 (Star dot) >> Cls isSpace >> Grp 5 timestampPattern >> Plus isSpace >>
   Grp 6 (Plus isDigit) >> Lit ")" >> Grp 7 (Star dot) >> Eol)%re.

(** ** The data model *)

(** [new Date(text)]: a date is known by the text it was built from; how the
    host reads that text is not part of this development. *)
Inductive Date := newDate (text : jsstring).

#[global] Instance Date_eq_dec : EqDecision Date.
Proof. solve_decision. Defined.

Module Commit.
Record IGitBlameCommit := {
  sha : jsstring;
  fileName : jsstring;
  author : jsstring;
  date : Date;
}.
End Commit.
Export Commit (IGitBlameCommit).

#[global] Instance IGitBlameCommit_eq_dec : EqDecision IGitBlameCommit.
Proof. solve_decision. Defined.

Module Line.
Record IGitBlameLine := {
  sha : jsstring;
  originalLine : number;
  line : number;
}.
End Line.
Export Line (IGitBlameLine).

#[global] Instance IGitBlameLine_eq_dec : EqDecision IGitBlameLine.
Proof. solve_decision. Defined.

(** A JavaScript [Map] with string keys: the entries in insertion order, one
    per key. *)
Definition Map (V : Type) := list (jsstring * V).

Section JsMap.
Context {V : Type}.

Definition Map_keys (m : Map V) : list jsstring := m.*1.

Fixpoint Map_lookup (m : Map V) (k : jsstring) : option V :=
  match m with
  | [] => None
  | (k', v) :: m' => if decide (k' = k) then Some v else Map_lookup m' k
  end.

(** [m.has(k)] *)
Definition Map_has (m : Map V) (k : jsstring) : bool :=
  bool_decide (is_Some (Map_lookup m k)).

(** [m.set(k, v)]: a present key keeps its place, a new key goes last. *)
Fixpoint Map_set (m : Map V) (k : jsstring) (v : V) : Map V :=
  match m with
  | [] => [(k, v)]
  | (k', v') :: m' =>
      if decide (k' = k) then (k, v) :: m' else (k', v') :: Map_set m' k v
  end.
End JsMap.

(** A value of the commit map: a commit record, or [undefined] ([None]). *)
Definition commitValue := option IGitBlameCommit.

(** [m.get(k)] on a commit map: [undefined] when the key is absent. *)
Definition Map_get (m : Map commitValue) (k : jsstring) : commitValue :=
  mjoin (Map_lookup m k).

Record IGitBlame := {
  commits : Map commitValue;
  lines : list IGitBlameLine;
}.

(** ** Parsing: the callback of [blameFile] *)

(** The commit record built from a match (source lines 40 to 45). *)
Definition commitOfMatch (m : RegExpMatch) : IGitBlameCommit :=
  {| Commit.sha := group m 1;
     Commit.fileName := trim (group m 2);
     Commit.author := trim (group m 4);
     Commit.date := newDate (group m 5) |}.

(** The line record built from a match (source lines 48 to 53). *)
Definition lineOfMatch (m : RegExpMatch) : IGitBlameLine :=
  {| Line.sha := group m 1;
     Line.originalLine := number_sub (parseInt10 (group m 3)) (Num 1);
     Line.line := number_sub (parseInt10 (group m 6)) (Num 1) |}.

(** One turn of the loop body. *)
Definition addMatch (m : RegExpMatch) (b : IGitBlame) : IGitBlame :=
  let sha := group m 1 in
  {| commits := if Map_has (commits b) sha then commits b
                else Map_set (commits b) sha (Some (commitOfMatch m));
     lines := lines b ++ [lineOfMatch m] |}.

(** [while ((m = blameMatcher.exec(data)) != null) { ... }], with the
    [lastIndex] of the shared pattern threaded through.  [None] when the
    fuel runs out before [exec] answers [null]. *)
Fixpoint blameLoop (fuel : nat) (data : jsstring) (lastIndex : nat) (b : IGitBlame)
  : option (IGitBlame * nat) :=
  match fuel with
  | 0 => None
  | S fuel' =>
      match exec blameMatcher data lastIndex with
      | (Some m, lastIndex') => blameLoop fuel' data lastIndex' (addMatch m b)
      | (None, lastIndex') => Some (b, lastIndex')
      end
  end.

Definition emptyBlame : IGitBlame := {| commits := []; lines := [] |}.

(** The callback given to [then] in [blameFile]: the blame result of the
    text, and the [lastIndex] the pattern is left with. *)
Definition parseBlame (data : jsstring) (lastIndex : nat) : option (IGitBlame * nat) :=
  blameLoop (S (length data)) data lastIndex emptyBlame.
Arguments parseBlame : simpl never.

(** The matches the loop goes through: [exec] until it answers [null]. *)
Fixpoint execAll (fuel : nat) (data : jsstring) (lastIndex : nat) : option (list RegExpMatch) :=
  match fuel with
  | 0 => None
  | S fuel' =>
      match exec blameMatcher data lastIndex with
      | (Some m, lastIndex') => cons m <$> execAll fuel' data lastIndex'
      | (None, _) => Some []
      end
  end.

(** ** Ranges and the views of a blame result *)

Record Position := { line : nat; character : nat }.
Record Range := { start : Position; end_ : Position }.

#[global] Instance Position_eq_dec : EqDecision Position.
Proof. solve_decision. Defined.
#[global] Instance Range_eq_dec : EqDecision Range.
Proof. solve_decision. Defined.

(** The clamping of a relative index by [Array.prototype.slice]. *)
Definition relativeIndex (len : nat) (i : Z) : nat :=
  if (i <? 0)%Z then Z.to_nat (Z.max (Z.of_nat len + i) 0)
  else Z.to_nat (Z.min i (Z.of_nat len)).

(** [l.slice(from, to)] *)
Definition slice {A} (l : list A) (from to : Z) : list A :=
  let k := relativeIndex (length l) from in
  let final := relativeIndex (length l) to in
  take (final - k) (drop k l).

(** lodash's [uniqBy(l, key)]: the elements whose key was not seen on an
    earlier element. *)
Fixpoint baseUniq {A} (key : A -> jsstring) (seen : list jsstring) (l : list A) : list A :=
  match l with
  | [] => []
  | x :: l' =>
      if decide (key x ∈ seen) then baseUniq key seen l'
      else x :: baseUniq key (key x :: seen) l'
  end.

Definition uniqBy {A} (l : list A) (key : A -> jsstring) : list A := baseUniq key [] l.

(** The lines of a range (source lines 70 and 82). *)
Definition rangeLines (blame : IGitBlame) (range : Range) : list IGitBlameLine :=
  slice (lines blame) (Z.of_nat (line (start range))) (Z.of_nat (line (end_ range)) + 1).

(** The callback of [getBlameForRange]. *)
Definition getBlameForRange_then (range : Range) (blame : IGitBlame) : IGitBlame :=
  if decide (length (lines blame) = 0) then blame
  else
    let lines' := rangeLines blame range in
    let commits' :=
      foldl (fun acc l => Map_set acc (Line.sha l) (Map_get (commits blame) (Line.sha l)))
            [] (uniqBy lines' Line.sha) in
    {| commits := commits'; lines := lines' |}.

Record ShaRange := {
  commit : commitValue;
  shaLines : list IGitBlameLine;
}.

(** The callback of [getBlameForShaRange]. *)
Definition getBlameForShaRange_then (sha : jsstring) (range : Range) (blame : IGitBlame) : ShaRange :=
  {| commit := Map_get (commits blame) sha;
     shaLines := filter (fun l => Line.sha l = sha) (rangeLines blame range) |}.

(** ** Promises and the provider *)

(** The reason of a rejection. *)
Definition error := jsstring.

Inductive promise (A : Type) :=
| Pending
| Fulfilled (value : A)
| Rejected (reason : error).
Arguments Pending {A}.
Arguments Fulfilled {A} value.
Arguments Rejected {A} reason.

(** The provider together with what it shares with its environment.
    [_files] maps a file name to the address of its promise in [store];
    [gitBlameCalls] is the trace of the calls of the collaborator [gitBlame],
    oldest first; [matcherLastIndex] is the [lastIndex] of the one
    [blameMatcher] object of the module. *)
Record state := {
  _files : gmap jsstring nat;
  store : list (promise IGitBlame);
  gitBlameCalls : list jsstring;
  matcherLastIndex : nat;
}.

(** The state the constructor leaves. *)
Definition initial : state :=
  {| _files := ∅; store := []; gitBlameCalls := []; matcherLastIndex := 0 |}.

(** [blameFile(fileName)]: the promise returned and the state left.  On a
    miss the collaborator is called and the promise of
    [gitBlame(fileName).then(...)] is allocated, pending, and cached. *)
Definition blameFile (fileName : jsstring) (s : state) : nat * state :=
  match _files s !! fileName with
  | Some blame => (blame, s)
  | None =>
      let blame := length (store s) in
      (blame,
       {| _files := <[fileName := blame]> (_files s);
          store := store s ++ [Pending];
          gitBlameCalls := gitBlameCalls s ++ [fileName];
          matcherLastIndex := matcherLastIndex s |})
  end.

(** [_removeFile(fileName)] *)
Definition _removeFile (fileName : jsstring) (s : state) : state :=
  {| _files := delete fileName (_files s);
     store := store s;
     gitBlameCalls := gitBlameCalls s;
     matcherLastIndex := matcherLastIndex s |}.

(** The collaborator's promise for the call behind [p] settles: with the raw
    text, and the callback of [blameFile] runs, or with a failure, which the
    promise of [then] takes over.  A promise settles once. *)
Definition settle (p : nat) (r : jsstring + error) (s : state) : state :=
  match store s !! p with
  | Some Pending =>
      match r with
      | inl data =>
          match parseBlame data (matcherLastIndex s) with
          | Some (blame, lastIndex) =>
              {| _files := _files s;
                 store := <[p := Fulfilled blame]> (store s);
                 gitBlameCalls := gitBlameCalls s;
                 matcherLastIndex := lastIndex |}
          | None => s
          end
      | inr reason =>
          {| _files := _files s;
             store := <[p := Rejected reason]> (store s);
             gitBlameCalls := gitBlameCalls s;
             matcherLastIndex := matcherLastIndex s |}
      end
  | _ => s
  end.

(** The promise [p.then(callback)] of a stored promise [p]. *)
Record derived (B : Type) := {
  source : nat;
  callback : IGitBlame -> B;
}.
Arguments source {B} d.
Arguments callback {B} d.

(** What an awaiter of a stored promise sees. *)
Definition await (s : state) (p : nat) : promise IGitBlame :=
  default Pending (store s !! p).

(** What an awaiter of a derived promise sees: a rejection of the source is
    handed on. *)
Definition awaitDerived {B} (s : state) (d : derived B) : promise B :=
  match await s (source d) with
  | Pending => Pending
  | Fulfilled blame => Fulfilled (callback d blame)
  | Rejected reason => Rejected reason
  end.

(** [getBlameForRange(fileName, range)] *)
Definition getBlameForRange (fileName : jsstring) (range : Range) (s : state)
  : derived IGitBlame * state :=
  let '(blame, s') := blameFile fileName s in
  ({| source := blame; callback := getBlameForRange_then range |}, s').

(** [getBlameForShaRange(fileName, sha, range)] *)
Definition getBlameForShaRange (fileName sha : jsstring) (range : Range) (s : state)
  : derived ShaRange * state :=
  let '(blame, s') := blameFile fileName s in
  ({| source := blame; callback := getBlameForShaRange_then sha range |}, s').

(** The host's documents and notifications, as far as the provider reads
    them. *)
Record TextDocument := { fileName : jsstring }.
Record TextDocumentChangeEvent := { document : TextDocument }.

(** The subscriptions of the constructor (source lines 18 and 19). *)
Definition onDidCloseTextDocument (d : TextDocument) : state -> state :=
  _removeFile (fileName d).
Definition onDidChangeTextDocument (e : TextDocumentChangeEvent) : state -> state :=
  _removeFile (fileName (document e)).

(** What can happen to a provider. *)
Inductive event :=
| CallBlameFile (f : jsstring)
| DidCloseTextDocument (d : TextDocument)
| DidChangeTextDocument (e : TextDocumentChangeEvent)
| GitBlameSettled (p : nat) (r : jsstring + error).

Definition step (s : state) (e : event) : state :=
  match e with
  | CallBlameFile f => (blameFile f s).2
  | DidCloseTextDocument d => onDidCloseTextDocument d s
  | DidChangeTextDocument e => onDidChangeTextDocument e s
  | GitBlameSettled p r => settle p r s
  end.

Definition run (s : state) (es : list event) : state := foldl step s es.

(** The file an event invalidates, if any. *)
Definition invalidated (e : event) : option jsstring :=
  match e with
  | DidCloseTextDocument d => Some (fileName d)
  | DidChangeTextDocument e => Some (fileName (document e))
  | _ => None
  end.

(** * Resource identifiers *)

(** ** Numbers as text *)

(** The decimal digits of a natural number, most significant first. *)
Fixpoint digitsAux (fuel : nat) (n : N) (acc : jsstring) : jsstring :=
  match fuel with
  | 0 => acc
  | S fuel' =>
      let acc' := (48 + n mod 10)%N :: acc in
      if (n / 10 =? 0)%N then acc' else digitsAux fuel' (n / 10)%N acc'
  end.

Definition decimal (n : N) : jsstring := digitsAux (S (N.to_nat n)) n [].

(** [String(x)] for an integer below 10^21 in absolute value, and for
    [NaN]. *)
Definition numberToString (x : number) : jsstring :=
  match x with
  | NaN => js "NaN"
  | Num z => if (z <? 0)%Z then chr "-" :: decimal (Z.abs_N z) else decimal (Z.abs_N z)
  end.

(** ** JSON *)

(** The values [JSON.parse] builds.  The members of an object are kept in
    the order of the text; a number written without fraction and exponent is
    an integer, any other number is kept as its text. *)
#[warnings="-register-all"]
Inductive json :=
| JNull
| JBool (b : bool)
| JInt (z : Z)
| JFrac (token : jsstring)
| JStr (s : jsstring)
| JArr (elements : list json)
| JObj (members : list (jsstring * json)).

Definition hexDigit (n : N) : char :=
  if (n <? 10)%N then (48 + n)%N else (87 + n)%N.

(** The escape of one character in a JSON string (the abstract operation
    [Quote] of ECMAScript 5 and 2015). *)
Definition quoteChar (c : char) : jsstring :=
  if (c =? 34)%N then js "\" ++ [34%N]
  else if (c =? 92)%N then js "\\"
  else if (c =? 8)%N then js "\b"
  else if (c =? 12)%N then js "\f"
  else if (c =? 10)%N then js "\n"
  else if (c =? 13)%N then js "\r"
  else if (c =? 9)%N then js "\t"
  else if (c <? 32)%N then js "\u00" ++ [hexDigit (c / 16); hexDigit (c mod 16)]
  else [c].

Fixpoint quoteBody (s : jsstring) : jsstring :=
  match s with
  | [] => []
  | c :: s' => quoteChar c ++ quoteBody s'
  end.

Definition quote (s : jsstring) : jsstring := 34%N :: quoteBody s ++ [34%N].

Fixpoint intercalate (sep : jsstring) (parts : list jsstring) : jsstring :=
  match parts with
  | [] => []
  | p :: ps =>
      match ps with
      | [] => p
      | _ :: _ => p ++ sep ++ intercalate sep ps
      end
  end.

(** [JSON.stringify(v)], without indentation. *)
Fixpoint stringify (v : json) : jsstring :=
  match v with
  | JNull => js "null"
  | JBool true => js "true"
  | JBool false => js "false"
  | JInt z => numberToString (Num z)
  | JFrac token => token
  | JStr s => quote s
  | JArr elements =>
      chr "[" :: intercalate (js ",") (map stringify elements) ++ js "]"
  | JObj members =>
      chr "{" :: intercalate (js ",")
                   (map (fun m => quote (fst m) ++ chr ":" :: stringify (snd m)) members)
              ++ js "}"
  end.

(** JSON white space. *)
Definition isJsonSpace (c : char) : bool :=
  (N.eqb c 32 || N.eqb c 9 || N.eqb c 10 || N.eqb c 13)%N.

Fixpoint skipSpace (s : jsstring) : jsstring :=
  match s with
  | c :: s' => if isJsonSpace c then skipSpace s' else s
  | [] => []
  end.

Definition hexValue (c : char) : option N :=
  if isDigit c then Some (c - 48)%N
  else if (N.leb 97 c && N.leb c 102)%N then Some (c - 87)%N
  else if (N.leb 65 c && N.leb c 70)%N then Some (c - 55)%N
  else None.

(** The character a one-letter escape stands for. *)
Definition simpleEscape (e : char) : option char :=
  if (e =? 34)%N then Some 34%N
  else if (e =? 92)%N then Some 92%N
  else if (e =? 47)%N then Some 47%N
  else if (e =? 98)%N then Some 8%N
  else if (e =? 102)%N then Some 12%N
  else if (e =? 110)%N then Some 10%N
  else if (e =? 114)%N then Some 13%N
  else if (e =? 116)%N then Some 9%N
  else None.

Definition hex4 (h1 h2 h3 h4 : char) : option char :=
  match hexValue h1, hexValue h2, hexValue h3, hexValue h4 with
  | Some a, Some b, Some c, Some d => Some (((a * 16 + b) * 16 + c) * 16 + d)%N
  | _, _, _, _ => None
  end.

Definition prepend {A B} (x : A) (r : option (list A * B)) : option (list A * B) :=
  match r with
  | Some (l, rest) => Some (x :: l, rest)
  | None => None
  end.

(** The text of a JSON string from after its opening quote to its closing
    quote, escapes resolved, and what follows the closing quote. *)
Fixpoint parseString (s : jsstring) : option (jsstring * jsstring) :=
  match s with
  | [] => None
  | c :: s' =>
      if (c =? 34)%N then Some ([], s')
      else if (c <? 32)%N then None
      else if (c =? 92)%N then
        match s' with
        | [] => None
        | e :: s'' =>
            match simpleEscape e with
            | Some x => prepend x (parseString s'')
            | None =>
                if (e =? 117)%N then
                  match s'' with
                  | h1 :: h2 :: h3 :: h4 :: s4 =>
                      match hex4 h1 h2 h3 h4 with
                      | Some x => prepend x (parseString s4)
                      | None => None
                      end
                  | _ => None
                  end
                else None
            end
        end
      else prepend c (parseString s')
  end.

(** The integer part of a JSON number: a lone zero, or digits that start
    with another digit. *)
Definition integerPart (s : jsstring) : jsstring :=
  match s with
  | c :: _ => if isChar "0" c then [c] else takeWhile isDigit s
  | [] => []
  end.

(** The digits of a fraction, if a point follows. *)
Definition fractionPart (s : jsstring) : option jsstring * jsstring :=
  match s with
  | c :: r =>
      if isChar "." c then
        let ds := takeWhile isDigit r in (Some ds, drop (length ds) r)
      else (None, s)
  | [] => (None, s)
  end.

(** The digits of an exponent, if an [e] follows. *)
Definition exponentPart (s : jsstring) : option jsstring * jsstring :=
  match s with
  | c :: r =>
      if isChar "e" c || isChar "E" c then
        let r' :=
          match r with
          | g :: r1 => if isChar "+" g || isChar "-" g then r1 else r
          | [] => r
          end in
        let ds := takeWhile isDigit r' in (Some ds, drop (length ds) r')
      else (None, s)
  | [] => (None, s)
  end.

(** The minus sign, if there is one. *)
Definition signPart (s : jsstring) : bool * jsstring :=
  match s with
  | c :: r => if isChar "-" c then (true, r) else (false, s)
  | [] => (false, s)
  end.

(** A JSON number: an optional minus, the integer part, an optional
    fraction and an optional exponent. *)
Definition parseNumber (s : jsstring) : option (json * jsstring) :=
  let '(negative, s1) := signPart s in
  let int := integerPart s1 in
  let '(fraction, s3) := fractionPart (drop (length int) s1) in
  let '(exponent, s4) := exponentPart s3 in
  match int, fraction, exponent with
  | [], _, _ => None
  | _, Some [], _ => None
  | _, _, Some [] => None
  | _, None, None =>
      Some (JInt (if negative then - digitsValue int else digitsValue int)%Z, s4)
  | _, _, _ => Some (JFrac (take (length s - length s4) s), s4)
  end.

Definition startsWith (p s : jsstring) : bool := bool_decide (take (length p) s = p).

(** One value at the head of a text, and the text after it, given the
    parsers of the elements of an array and of the members of an object. *)
Definition valueStep
    (elements : jsstring → option (list json * jsstring))
    (members : jsstring → option (list (jsstring * json) * jsstring))
    (s : jsstring) : option (json * jsstring) :=
  match skipSpace s with
  | [] => None
  | c :: s' =>
      if isQuote c then
        match parseString s' with
        | Some (str, rest) => Some (JStr str, rest)
        | None => None
        end
      else if isChar "[" c then
        match skipSpace s' with
        | d :: rest =>
            if isChar "]" d then Some (JArr [], rest)
            else match elements s' with
                 | Some (l, rest') => Some (JArr l, rest')
                 | None => None
                 end
        | [] => None
        end
      else if isChar "{" c then
        match skipSpace s' with
        | d :: rest =>
            if isChar "}" d then Some (JObj [], rest)
            else match members s' with
                 | Some (l, rest') => Some (JObj l, rest')
                 | None => None
                 end
        | [] => None
        end
      else if startsWith (js "true") (c :: s') then Some (JBool true, drop 4 (c :: s'))
      else if startsWith (js "false") (c :: s') then Some (JBool false, drop 5 (c :: s'))
      else if startsWith (js "null") (c :: s') then Some (JNull, drop 4 (c :: s'))
      else if isChar "-" c || isDigit c then parseNumber (c :: s')
      else None
  end.

(** The elements of an array after the first bracket, up to the closing
    one. *)
Definition elementsStep
    (value : jsstring → option (json * jsstring))
    (elements : jsstring → option (list json * jsstring))
    (s : jsstring) : option (list json * jsstring) :=
  match value s with
  | Some (v, rest) =>
      match skipSpace rest with
      | c :: rest' =>
          if isChar "," c then prepend v (elements rest')
          else if isChar "]" c then Some ([v], rest')
          else None
      | [] => None
      end
  | None => None
  end.

(** The members of an object after the first brace, up to the closing
    one. *)
Definition membersStep
    (value : jsstring → option (json * jsstring))
    (members : jsstring → option (list (jsstring * json) * jsstring))
    (s : jsstring) : option (list (jsstring * json) * jsstring) :=
  match skipSpace s with
  | q :: s1 =>
      if isQuote q then
        match parseString s1 with
        | Some (key, s2) =>
            match skipSpace s2 with
            | c :: s3 =>
                if isChar ":" c then
                  match value s3 with
                  | Some (v, rest) =>
                      match skipSpace rest with
                      | d :: rest' =>
                          if isChar "," d then prepend (key, v) (members rest')
                          else if isChar "}" d then Some ([(key, v)], rest')
                          else None
                      | [] => None
                      end
                  | None => None
                  end
                else None
            | [] => None
            end
        | None => None
        end
      else None
  | [] => None
  end.

(** The parsers, tied together; the fuel bounds the nesting and the number
    of elements. *)
Fixpoint parseValue (fuel : nat) (s : jsstring) : option (json * jsstring) :=
  match fuel with
  | 0 => None
  | S fuel' => valueStep (parseElements fuel') (parseMembers fuel') s
  end
with parseElements (fuel : nat) (s : jsstring) : option (list json * jsstring) :=
  match fuel with
  | 0 => None
  | S fuel' => elementsStep (parseValue fuel') (parseElements fuel') s
  end
with parseMembers (fuel : nat) (s : jsstring) : option (list (jsstring * json) * jsstring) :=
  match fuel with
  | 0 => None
  | S fuel' => membersStep (parseValue fuel') (parseMembers fuel') s
  end.

(** [JSON.parse(text)]; [None] is a [SyntaxError]. *)
Definition JSON_parse (text : jsstring) : option json :=
  match parseValue (2 * length text + 2) text with
  | Some (v, rest) => match skipSpace rest with [] => Some v | _ => None end
  | None => None
  end.

(** ** Outcomes *)

(** What a call comes to: a value, an exception, or a value this development
    has no term for. *)
Inductive outcome (A : Type) :=
| Returned (a : A)
| Thrown
| Unmodelled.
Arguments Returned {A} a.
Arguments Thrown {A}.
Arguments Unmodelled {A}.

#[global] Instance outcome_bind : MBind outcome := fun A B k x =>
  match x with
  | Returned a => k a
  | Thrown => Thrown
  | Unmodelled => Unmodelled
  end.

(** ** The host *)

(** What [toBlameUri] takes from its environment: the scheme constant of
    [./constants], the functions of Node's [path], and the text moment
    prints for a date in the format of the source. *)
Class Host := {
  gitBlameScheme : jsstring;
  extname : jsstring → jsstring;
  dirname : jsstring → jsstring;
  basename : jsstring → jsstring → jsstring;
  join : jsstring → jsstring → jsstring;
  formatDate : Date → jsstring;
}.

(** A [Uri] of the editor: the components of the text it was parsed from. *)
Record Uri := {
  scheme : jsstring;
  authority : jsstring;
  path : jsstring;
  query : jsstring;
  fragment : jsstring;
}.

(** The longest prefix whose characters satisfy [p], and the rest. *)
Fixpoint span (p : char → bool) (s : jsstring) : jsstring * jsstring :=
  match s with
  | c :: s' => if p c then let '(w, rest) := span p s' in (c :: w, rest) else ([], s)
  | [] => ([], [])
  end.

Definition notIn (cs : string) (c : char) : bool :=
  negb (bool_decide (c ∈ js cs)).

(** The scheme, when the text starts with characters other than [:/?#]
    and a colon follows them. *)
Definition schemePart (value : jsstring) : jsstring * jsstring :=
  match span (notIn ":/?#") value with
  | (c :: w, d :: r) => if isChar ":" d then (c :: w, r) else ([], value)
  | _ => ([], value)
  end.

(** The authority, when two slashes come next. *)
Definition authorityPart (s : jsstring) : jsstring * jsstring :=
  match s with
  | c :: d :: r => if isChar "/" c && isChar "/" d then span (notIn "/?#") r else ([], s)
  | _ => ([], s)
  end.

(** The query, when a question mark comes next. *)
Definition queryPart (s : jsstring) : jsstring * jsstring :=
  match s with
  | c :: r => if isChar "?" c then span (notIn "#") r else ([], s)
  | [] => ([], s)
  end.

(** The fragment, when a hash comes next. *)
Definition fragmentPart (s : jsstring) : jsstring :=
  match s with
  | c :: r => if isChar "#" c then takeWhile dot r else []
  | [] => []
  end.

(** The components of a text, cut as the pattern of RFC 3986 cuts them:
    scheme up to the first colon, authority after two slashes, path up to
    the first question mark or hash, query up to the first hash, fragment. *)
Definition uriComponents (value : jsstring) : Uri :=
  let '(scheme, r1) := schemePart value in
  let '(authority, r2) := authorityPart r1 in
  let '(path, r3) := span (notIn "?#") r2 in
  let '(query, r4) := queryPart r3 in
  {| scheme := scheme; authority := authority; path := path; query := query;
     fragment := fragmentPart r4 |}.

(** [Uri.parse(value)].  The editor decodes the percent escapes of the
    components it has cut; that is not modelled, so a text with a percent
    sign is left without an answer. *)
Definition Uri_parse (value : jsstring) : outcome Uri :=
  if bool_decide (chr "%" ∈ value) then Unmodelled else Returned (uriComponents value).

(** ** Encoding and decoding *)

Record IGitBlameUriData := {
  uriFileName : jsstring;
  uriSha : jsstring;
  uriRange : Range;
  uriIndex : number;
}.

(** [Position.toJSON] and [Range.toJSON] of the editor. *)
Definition Position_toJSON (p : Position) : json :=
  JObj [(js "line", JInt (Z.of_nat (line p))); (js "character", JInt (Z.of_nat (character p)))].

Definition Range_toJSON (r : Range) : json :=
  JArr [Position_toJSON (start r); Position_toJSON (end_ r)].

(** A number in JSON: [NaN] is written [null]. *)
Definition number_toJSON (x : number) : json :=
  match x with
  | NaN => JNull
  | Num z => JInt z
  end.

Definition IGitBlameUriData_toJSON (data : IGitBlameUriData) : json :=
  JObj [(js "fileName", JStr (uriFileName data));
        (js "sha", JStr (uriSha data));
        (js "range", Range_toJSON (uriRange data));
        (js "index", number_toJSON (uriIndex data))].

(** [s.slice(-k)] for [k] at least 0. *)
Definition sliceLast (s : jsstring) (k : nat) : jsstring :=
  match k with
  | 0 => s
  | _ => drop (length s - k) s
  end.

Section ToBlameUri.
Context `{Host}.

(** The text [toBlameUri] gives to [Uri.parse]. *)
Definition blameUriText (repoPath : jsstring) (commit : IGitBlameCommit) (range : Range)
    (index commitCount : number) : jsstring :=
  let pad n := sliceLast (js "0000000" ++ numberToString n) (length (numberToString commitCount)) in
  let ext := extname (Commit.fileName commit) in
  let path :=
    dirname (Commit.fileName commit) ++ js "/" ++ Commit.sha commit ++ js ": " ++
    basename (Commit.fileName commit) ext ++ ext in
  let data :=
    {| uriFileName := join repoPath (Commit.fileName commit);
       uriSha := Commit.sha commit;
       uriRange := range;
       uriIndex := index |} in
  gitBlameScheme ++ js ":" ++ pad index ++ js ". " ++ Commit.author commit ++ js ", " ++
  formatDate (Commit.date commit) ++ js " - " ++ path ++ js "?" ++
  stringify (IGitBlameUriData_toJSON data).

(** [toBlameUri(repoPath, commit, range, index, commitCount)] *)
Definition toBlameUri (repoPath : jsstring) (commit : IGitBlameCommit) (range : Range)
    (index commitCount : number) : outcome Uri :=
  Uri_parse (blameUriText repoPath commit range index commitCount).
End ToBlameUri.

(** [v[k]] for a value of JSON that is not [null]: a member of an object
    (the last one of that name), an element of an array, a character of a
    string; [None] is [undefined]. *)
Definition member (v : json) (k : jsstring) : option json :=
  match v with
  | JObj members => (fun found => snd (snd found)) <$> list_find (fun m => fst m = k) (reverse members)
  | _ => None
  end.

Definition element (v : json) (i : nat) : option json :=
  match v with
  | JArr elements => elements !! i
  | JStr s => (fun c => JStr [c]) <$> s !! i
  | JObj _ => member v (decimal (N.of_nat i))
  | _ => None
  end.

(** [v[k]] where [v] may be [undefined] or [null]: these throw. *)
Definition get (v : option json) (read : json → option json) : outcome (option json) :=
  match v with
  | None | Some JNull => Thrown
  | Some v' => Returned (read v')
  end.

(** An argument of the constructor of [Position]: it takes numbers that are
    not negative. *)
Definition coordinate (v : option json) : outcome nat :=
  match v with
  | Some (JInt z) => if (z <? 0)%Z then Thrown else Returned (Z.to_nat z)
  | Some (JFrac _) => Unmodelled
  | _ => Thrown
  end.

Definition isBefore (p q : Position) : bool :=
  (line p <? line q) || ((line p =? line q) && (character p <? character q)).

(** [new Range(startLine, startCharacter, endLine, endCharacter)]: the
    earlier position is the start. *)
Definition newRange (startLine startCharacter endLine endCharacter : nat) : Range :=
  let p := {| line := startLine; character := startCharacter |} in
  let q := {| line := endLine; character := endCharacter |} in
  if isBefore p q then {| start := p; end_ := q |} else {| start := q; end_ := p |}.

(** The second statement of [fromBlameUri] on the parsed object: the range
    is rebuilt from its two positions.  The object returned is the parsed
    one with its range replaced; it is given here when its members have the
    types of [IGitBlameUriData]. *)
Definition rebuildRange (data : json) : outcome IGitBlameUriData :=
  range ← get (Some data) (fun d => member d (js "range"));
  first ← get range (fun r => element r 0);
  second ← get range (fun r => element r 1);
  l0 ← get first (fun p => member p (js "line"));
  c0 ← get first (fun p => member p (js "character"));
  l1 ← get second (fun p => member p (js "line"));
  c1 ← get second (fun p => member p (js "character"));
  startLine ← coordinate l0;
  startCharacter ← coordinate c0;
  endLine ← coordinate l1;
  endCharacter ← coordinate c1;
  match member data (js "fileName"), member data (js "sha"), member data (js "index") with
  | Some (JStr fileName), Some (JStr sha), Some (JInt index) =>
      Returned {| uriFileName := fileName; uriSha := sha;
                  uriRange := newRange startLine startCharacter endLine endCharacter;
                  uriIndex := Num index |}
  | _, _, _ => Unmodelled
  end.

(** [fromBlameUri(uri)] *)
Definition fromBlameUri (uri : Uri) : outcome IGitBlameUriData :=
  match JSON_parse (query uri) with
  | None => Thrown
  | Some data => rebuildRange data
  end.

(** ** A host *)

Definition isSlash (c : char) : bool := isChar "/" c.

Fixpoint dropWhile (p : char → bool) (s : jsstring) : jsstring :=
  match s with
  | c :: s' => if p c then dropWhile p s' else s
  | [] => []
  end.

(** The last component of a POSIX path: what follows the last slash, once
    the trailing slashes are taken off. *)
Definition lastComponent (p : jsstring) : jsstring :=
  reverse (takeWhile (fun c => negb (isSlash c)) (dropWhile isSlash (reverse p))).

(** [path.posix.extname] *)
Definition posix_extname (p : jsstring) : jsstring :=
  let comp := lastComponent p in
  let afterDot := reverse (takeWhile (fun c => negb (isChar "." c)) (reverse comp)) in
  if decide (length afterDot = length comp) then []
  else if decide (length afterDot + 1 = length comp) then []
  else if decide (comp = js "..") then []
  else drop (length comp - length afterDot - 1) comp.

(** [path.posix.basename] *)
Definition posix_basename (p ext : jsstring) : jsstring :=
  let comp := lastComponent p in
  if decide (ext = []) then comp
  else if decide (ext = p) then []
  else if decide (comp ≠ ext ∧ drop (length comp - length ext) comp = ext)
       then take (length comp - length ext) comp
       else comp.

(** [path.posix.dirname] *)
Definition posix_dirname (p : jsstring) : jsstring :=
  match p with
  | [] => js "."
  | c :: _ =>
      let stripped := dropWhile isSlash (reverse p) in
      let beforeComponent := dropWhile (fun c => negb (isSlash c)) stripped in
      match beforeComponent with
      | [] => if isSlash c then js "/" else js "."
      | [_] => js "/"
      | _ :: dir => if isSlash c && (length dir =? 1) then js "//" else reverse dir
      end
  end.

Fixpoint splitOn (sep : char → bool) (s : jsstring) : list jsstring :=
  match s with
  | [] => [[]]
  | c :: s' =>
      if sep c then [] :: splitOn sep s'
      else match splitOn sep s' with
           | seg :: segs => (c :: seg) :: segs
           | [] => [[c]]
           end
  end.

(** The segments of a normalized path, last first. *)
Definition normalizeSegments (allowAboveRoot : bool) (segs : list jsstring) : list jsstring :=
  foldl (fun stack seg =>
           if decide (seg = [] ∨ seg = js ".") then stack
           else if decide (seg = js "..") then
             match stack with
             | top :: below => if decide (top = js "..") then seg :: stack else below
             | [] => if allowAboveRoot then [seg] else []
             end
           else seg :: stack) [] segs.

(** [path.posix.normalize] *)
Definition posix_normalize (p : jsstring) : jsstring :=
  match p with
  | [] => js "."
  | c :: _ =>
      let isAbsolute := isSlash c in
      let trailing := match reverse p with d :: _ => isSlash d | [] => false end in
      let body := intercalate (js "/")
                    (reverse (normalizeSegments (negb isAbsolute) (splitOn isSlash p))) in
      let body := if decide (body = []) then (if isAbsolute then [] else js ".") else body in
      let body := if decide (body ≠ []) then (if trailing then body ++ js "/" else body) else body in
      if isAbsolute then chr "/" :: body else body
  end.

(** [path.posix.join] of two paths. *)
Definition posix_join (a b : jsstring) : jsstring :=
  match a, b with
  | [], [] => js "."
  | [], _ => posix_normalize b
  | _, [] => posix_normalize a
  | _, _ => posix_normalize (a ++ js "/" ++ b)
  end.

(** A host with POSIX paths in which [new Date] reads none of the
    timestamps of the attribution text (their format is not the one the
    language requires a host to read), so that moment prints [Invalid
    date]. *)
#[local] Instance sampleHost : Host := {
  gitBlameScheme := js "gitblame";
  extname := posix_extname;
  dirname := posix_dirname;
  basename := posix_basename;
  join := posix_join;
  formatDate := fun _ => js "Invalid date";
}.

(** * Properties *)

(** ** What the matcher accepts *)

Section MatcherFacts.
Variable input : jsstring.

(** The matches of a pattern, read off its syntax: from [rest] with captures
    [caps] the pattern can reach [rest'] with captures [caps']. *)
Fixpoint accepts (r : regex) (rest : jsstring) (caps : captures)
    (rest' : jsstring) (caps' : captures) : Prop :=
  match r with
  | Bol => atLineStart input rest = true ∧ rest' = rest ∧ caps' = caps
  | Eol => atLineEnd rest = true ∧ rest' = rest ∧ caps' = caps
  | Cls p => ∃ c, rest = c :: rest' ∧ p c = true ∧ caps' = caps
  | Rep p min max =>
      ∃ w, rest = w ++ rest' ∧ Forall (fun c => p c = true) w ∧ min ≤ length w ∧
           (∀ n, max = Some n → length w ≤ n) ∧ caps' = caps
  | Seq r1 r2 =>
      ∃ mid capsm, accepts r1 rest caps mid capsm ∧ accepts r2 mid capsm rest' caps'
  | Grp i r1 =>
      ∃ caps1, accepts r1 rest caps rest' caps1 ∧
               caps' = <[i := take (length rest - length rest') rest]> caps1
  end.

(** A quantifier whose bounds are in order (the parser of the language
    refuses the others). *)
Fixpoint wellFormed (r : regex) : Prop :=
  match r with
  | Rep _ min (Some max) => min ≤ max
  | Seq r1 r2 => wellFormed r1 ∧ wellFormed r2
  | Grp _ r1 => wellFormed r1
  | _ => True
  end.

Lemma repeatClass_sound {X} p (k : jsstring → option X) x rest :
  ∀ min max,
    (∀ n, max = Some n → min ≤ n) →
    repeatClass p min max rest k = Some x →
    ∃ w rest', rest = w ++ rest' ∧ Forall (fun c => p c = true) w ∧ min ≤ length w ∧
               (∀ n, max = Some n → length w ≤ n) ∧ k rest' = Some x.
Proof.
  assert (Hstop : ∀ min max rest0,
    (∀ n, max = Some n → min ≤ n) →
    match min with 0 => k rest0 | S _ => None end = Some x →
    ∃ w rest', rest0 = w ++ rest' ∧ Forall (fun c => p c = true) w ∧ min ≤ length w ∧
               (∀ n, max = Some n → length w ≤ n) ∧ k rest' = Some x).
  { intros [|min] max rest0 _ Hk; [|discriminate].
    exists [], rest0. repeat split; auto. intros; cbn; lia. }
  induction rest as [|c rest IH]; intros min max Hb H; cbn in H.
  - destruct max as [[|n]|]; [|by apply (Hstop min _)..].
    specialize (Hb 0 eq_refl). assert (min = 0) as -> by lia.
    apply (Hstop 0 (Some 0)); [intros; lia|done].
  - destruct max as [[|n]|].
    + specialize (Hb 0 eq_refl). assert (min = 0) as -> by lia.
      apply (Hstop 0 (Some 0)); [intros; lia|done].
    + destruct (p c) eqn:Hp; [|by apply (Hstop min _)].
      destruct (repeatClass p (pred min) (pred <$> Some (S n)) rest k) eqn:Hr;
        [|by apply (Hstop min _)].
      injection H as ->.
      apply IH in Hr as (w & rest' & -> & Hw & Hmin & Hmax & Hk).
      * exists (c :: w), rest'. repeat split; auto; cbn; [lia|].
        intros ? [= <-]. specialize (Hmax n eq_refl). lia.
      * intros ? [= <-]. specialize (Hb _ eq_refl). lia.
    + destruct (p c) eqn:Hp; [|by apply (Hstop min _)].
      destruct (repeatClass p (pred min) (pred <$> None) rest k) eqn:Hr;
        [|by apply (Hstop min _)].
      injection H as ->.
      apply IH in Hr as (w & rest' & -> & Hw & Hmin & Hmax & Hk); [|done].
      exists (c :: w), rest'. repeat split; auto; cbn; [lia|done].
Qed.

Lemma matcher_sound {X} r :
  wellFormed r →
  ∀ rest caps (k : jsstring → captures → option X) x,
    matcher input r rest caps k = Some x →
    ∃ rest' caps', accepts r rest caps rest' caps' ∧ k rest' caps' = Some x.
Proof.
  induction r as [| |p|p min max|r1 IH1 r2 IH2|i r1 IH1]; intros Hwf rest caps k x H; cbn in H.
  - destruct (atLineStart input rest) eqn:E; [|discriminate]. exists rest, caps. cbn; auto.
  - destruct (atLineEnd rest) eqn:E; [|discriminate]. exists rest, caps. cbn; auto.
  - destruct rest as [|c rest']; [discriminate|].
    destruct (p c) eqn:E; [|discriminate]. exists rest', caps. cbn; eauto.
  - apply repeatClass_sound in H as (w & rest' & -> & Hw & Hmin & Hmax & Hk).
    + exists rest', caps. split; [|done]. exists w. auto.
    + intros n ->. exact Hwf.
  - destruct Hwf as [Hwf1 Hwf2].
    apply IH1 in H as (mid & capsm & Hacc1 & H); [|done].
    apply IH2 in H as (rest' & caps' & Hacc2 & H); [|done].
    exists rest', caps'. split; [|done]. exists mid, capsm. auto.
  - apply IH1 in H as (rest' & caps1 & Hacc & H); [|done].
    eexists rest', _. split; [|exact H]. exists caps1. auto.
Qed.

(** What a pattern accepts is a prefix of what it was given. *)
Lemma accepts_prefix r :
  ∀ rest caps rest' caps',
    accepts r rest caps rest' caps' → ∃ w, rest = w ++ rest'.
Proof.
  induction r as [| |p|p min max|r1 IH1 r2 IH2|i r1 IH1]; intros rest caps rest' caps' H; cbn in H.
  - destruct H as (_ & -> & _). by exists [].
  - destruct H as (_ & -> & _). by exists [].
  - destruct H as (c & -> & _). by exists [c].
  - destruct H as (w & -> & _). by exists w.
  - destruct H as (mid & capsm & H1 & H2).
    apply IH1 in H1 as [w1 ->]. apply IH2 in H2 as [w2 ->].
    exists (w1 ++ w2). by rewrite <-app_assoc.
  - destruct H as (caps1 & H & _). eauto.
Qed.

(** The text a group captured, when the pattern consumed [w] up to [rest']. *)
Lemma take_consumed (w rest' : jsstring) :
  take (length (w ++ rest') - length rest') (w ++ rest') = w.
Proof.
  rewrite length_app, Nat.add_sub. by rewrite take_app_length.
Qed.

(** A pattern without groups leaves the captures alone. *)
Fixpoint groupFree (r : regex) : Prop :=
  match r with
  | Grp _ _ => False
  | Seq r1 r2 => groupFree r1 ∧ groupFree r2
  | _ => True
  end.

Lemma accepts_groupFree r :
  groupFree r →
  ∀ rest caps rest' caps', accepts r rest caps rest' caps' → caps' = caps.
Proof.
  induction r as [| |p|p min max|r1 IH1 r2 IH2|i r1 IH1]; intros Hf rest caps rest' caps' H; cbn in H.
  - by destruct H as (_ & _ & ->).
  - by destruct H as (_ & _ & ->).
  - by destruct H as (c & _ & _ & ->).
  - by destruct H as (w & _ & _ & _ & _ & ->).
  - destruct Hf as [Hf1 Hf2]. destruct H as (mid & capsm & H1 & H2).
    apply IH1 in H1 as ->; [|done]. by apply IH2 in H2 as ->.
  - destruct Hf.
Qed.

(** The least number of characters a pattern consumes. *)
Fixpoint minLength (r : regex) : nat :=
  match r with
  | Bol | Eol => 0
  | Cls _ => 1
  | Rep _ min _ => min
  | Seq r1 r2 => minLength r1 + minLength r2
  | Grp _ r1 => minLength r1
  end.

Lemma accepts_minLength r :
  ∀ rest caps rest' caps',
    accepts r rest caps rest' caps' → length rest' + minLength r ≤ length rest.
Proof.
  induction r as [| |p|p min max|r1 IH1 r2 IH2|i r1 IH1]; intros rest caps rest' caps' H; cbn in H; cbn.
  - destruct H as (_ & -> & _). lia.
  - destruct H as (_ & -> & _). lia.
  - destruct H as (c & -> & _). cbn. lia.
  - destruct H as (w & -> & _ & Hmin & _). rewrite length_app. lia.
  - destruct H as (mid & capsm & H1 & H2).
    apply IH1 in H1. apply IH2 in H2. lia.
  - destruct H as (caps1 & H & _). eauto.
Qed.

(** Inversion of a group. *)
Lemma accepts_Grp i r rest caps rest' caps' :
  accepts (Grp i r) rest caps rest' caps' →
  ∃ w caps1, rest = w ++ rest' ∧ accepts r rest caps rest' caps1 ∧ caps' = <[i := w]> caps1.
Proof.
  intros (caps1 & H & ->).
  destruct (accepts_prefix _ _ _ _ _ H) as [w ->].
  exists w, caps1. by rewrite take_consumed.
Qed.

(** Inversion of a group around a quantified class. *)
Lemma accepts_Grp_Rep i p min max rest caps rest' caps' :
  accepts (Grp i (Rep p min max)) rest caps rest' caps' →
  ∃ w, rest = w ++ rest' ∧ Forall (fun c => p c = true) w ∧ min ≤ length w ∧
       (∀ n, max = Some n → length w ≤ n) ∧ caps' = <[i := w]> caps.
Proof.
  intros (caps1 & (w & -> & Hw & Hmin & Hmax & ->) & ->).
  exists w. by rewrite take_consumed.
Qed.

(** The shape of a match of the attribution line pattern: the seven groups
    and the separators between them. *)
Definition blameLineShape (rest rest' : jsstring) (caps' : captures) : Prop :=
  ∃ g1 s1 g2 w2 g3 s3 g4 s4 g5 w5 g6 g7,
    rest = g1 ++ s1 :: g2 ++ w2 ++ g3 ++ s3 :: chr "(" :: g4 ++ s4 :: g5 ++ w5 ++
           g6 ++ chr ")" :: g7 ++ rest' ∧
    caps' = <[7:=g7]> (<[6:=g6]> (<[5:=g5]> (<[4:=g4]> (<[3:=g3]> (<[2:=g2]> (<[1:=g1]> ∅)))))) ∧
    (length g1 = 8 ∧ Forall (fun c => isHashChar c = true) g1) ∧
    isSpace s1 = true ∧
    Forall (fun c => notSpace c = true) g2 ∧
    (1 ≤ length w2 ∧ Forall (fun c => isSpace c = true) w2) ∧
    (1 ≤ length g3 ∧ Forall (fun c => digitOrNotSpace c = true) g3) ∧
    isSpace s3 = true ∧
    Forall (fun c => dot c = true) g4 ∧
    isSpace s4 = true ∧
    25 ≤ length g5 ∧
    (1 ≤ length w5 ∧ Forall (fun c => isSpace c = true) w5) ∧
    (1 ≤ length g6 ∧ Forall (fun c => isDigit c = true) g6) ∧
    Forall (fun c => dot c = true) g7 ∧
    atLineStart input rest = true ∧ atLineEnd rest' = true.

Lemma blameMatcher_accepts rest rest' caps' :
  accepts blameMatcher rest ∅ rest' caps' → blameLineShape rest rest' caps'.
Proof.
  unfold blameMatcher. intros (m0 & c0 & (Hbol & -> & ->) & H).
  destruct H as (m1 & c1 & H1 & H).
  apply accepts_Grp_Rep in H1 as (g1 & Hrest & Hg1 & Hmin1 & Hmax1 & ->).
  specialize (Hmax1 8 eq_refl).
  destruct H as (m2 & c2 & (s1 & -> & Hs1 & ->) & H).
  destruct H as (m3 & c3 & H3 & H).
  apply accepts_Grp_Rep in H3 as (g2 & -> & Hg2 & _ & _ & ->).
  destruct H as (m4 & c4 & (w2 & -> & Hw2 & Hlw2 & _ & ->) & H).
  destruct H as (m5 & c5 & H5 & H).
  apply accepts_Grp_Rep in H5 as (g3 & -> & Hg3 & Hlg3 & _ & ->).
  destruct H as (m6 & c6 & (s3 & -> & Hs3 & ->) & H).
  destruct H as (m7 & c7 & (lp & -> & Hlp & ->) & H).
  destruct H as (m8 & c8 & H8 & H).
  apply accepts_Grp_Rep in H8 as (g4 & -> & Hg4 & _ & _ & ->).
  destruct H as (m9 & c9 & (s4 & -> & Hs4 & ->) & H).
  destruct H as (m10 & c10 & H10 & H).
  apply accepts_Grp in H10 as (g5 & c5' & -> & H10 & ->).
  pose proof (accepts_minLength _ _ _ _ _ H10) as Hlg5.
  rewrite length_app in Hlg5. cbn in Hlg5.
  apply accepts_groupFree in H10 as ->; [|cbn; tauto].
  destruct H as (m11 & c11 & (w5 & -> & Hw5 & Hlw5 & _ & ->) & H).
  destruct H as (m12 & c12 & H12 & H).
  apply accepts_Grp_Rep in H12 as (g6 & -> & Hg6 & Hlg6 & _ & ->).
  destruct H as (m13 & c13 & (rp & -> & Hrp & ->) & H).
  destruct H as (m14 & c14 & H14 & (Heol & -> & ->)).
  apply accepts_Grp_Rep in H14 as (g7 & -> & Hg7 & _ & _ & ->).
  apply N.eqb_eq in Hlp as ->. apply N.eqb_eq in Hrp as ->.
  exists g1, s1, g2, w2, g3, s3, g4, s4, g5, w5, g6, g7.
  repeat split; try done; lia.
Qed.

End MatcherFacts.

(** ** What [exec] finds *)

Lemma blameMatcher_wellFormed : wellFormed blameMatcher.
Proof. cbn. repeat split; lia. Qed.

(** A match of the attribution line pattern has the shape of a line. *)
Lemma matchAt_blameMatcher input rest rest' caps :
  matchAt input blameMatcher rest = Some (rest', caps) →
  blameLineShape input rest rest' caps.
Proof.
  intros H. apply matcher_sound in H as (r1 & c1 & Hacc & [= -> ->]).
  - by apply blameMatcher_accepts.
  - exact blameMatcher_wellFormed.
Qed.

(** [search] returns the leftmost position that matches. *)
Lemma search_Some input r rest start rest' caps :
  search input r rest = Some (start, rest', caps) →
  ∃ skipped, rest = skipped ++ start ∧
    matchAt input r start = Some (rest', caps) ∧
    ∀ n, n < length skipped → matchAt input r (drop n rest) = None.
Proof.
  revert start rest' caps. induction rest as [|c rest IH]; intros start rest' caps H; cbn in H.
  - destruct (matchAt input r []) as [[r1 c1]|] eqn:E; [|discriminate].
    injection H as <- <- <-. exists []. repeat split; auto. cbn; lia.
  - destruct (matchAt input r (c :: rest)) as [[r1 c1]|] eqn:E.
    + injection H as <- <- <-. exists []. repeat split; auto. cbn; lia.
    + apply IH in H as (skipped & -> & Hm & Hnone).
      exists (c :: skipped). repeat split; auto.
      intros [|n] Hn; [done|]. cbn. apply Hnone. cbn in Hn. lia.
Qed.

Lemma search_None input r rest :
  search input r rest = None →
  ∀ n, n ≤ length rest → matchAt input r (drop n rest) = None.
Proof.
  induction rest as [|c rest IH]; intros H n Hn; cbn in H.
  - destruct (matchAt input r []) as [[r1 c1]|] eqn:E; [discriminate|].
    by rewrite drop_nil.
  - destruct (matchAt input r (c :: rest)) as [[r1 c1]|] eqn:E; [discriminate|].
    destruct n as [|n]; [done|]. cbn. apply IH; [done|]. cbn in Hn. lia.
Qed.

(** A successful [exec] of the attribution line pattern: the match is the
    leftmost one at or after [lastIndex], it has the shape of a line, and
    the new [lastIndex] is its end, strictly further. *)
Lemma exec_blameMatcher_Some data lastIndex m lastIndex' :
  exec blameMatcher data lastIndex = (Some m, lastIndex') →
  lastIndex ≤ index m ∧ lastIndex' = matchEnd m ∧
  index m < lastIndex' ∧ lastIndex' ≤ length data ∧
  matched m = take (lastIndex' - index m) (drop (index m) data) ∧
  matchAt data blameMatcher (drop (index m) data) = Some (drop lastIndex' data, groups m) ∧
  blameLineShape data (drop (index m) data) (drop lastIndex' data) (groups m) ∧
  ∀ j, lastIndex ≤ j < index m → matchAt data blameMatcher (drop j data) = None.
Proof.
  unfold exec. intros H.
  destruct (decide (length data < lastIndex)) as [|Hle]; [discriminate|].
  destruct (search data blameMatcher (drop lastIndex data)) as [[[start rest'] caps]|] eqn:Hs;
    [|discriminate].
  injection H as <- <-. cbn.
  apply search_Some in Hs as (skipped & Hdrop & Hm & Hleft).
  pose proof (matchAt_blameMatcher _ _ _ _ Hm) as Hshape.
  assert (Hpre : ∃ w, start = w ++ rest' ∧ 0 < length w).
  { destruct Hshape as (g1 & s1 & g2 & w2 & g3 & s3 & g4 & s4 & g5 & w5 & g6 & g7 & Hst & _).
    eexists (g1 ++ s1 :: g2 ++ w2 ++ g3 ++ s3 :: chr "(" :: g4 ++ s4 :: g5 ++ w5 ++
             g6 ++ chr ")" :: g7). split.
    - rewrite Hst. by repeat (rewrite <-?app_assoc; cbn).
    - rewrite length_app. cbn. lia. }
  destruct Hpre as (w & Hstart & Hw).
  assert (Hlen : length data = lastIndex + length skipped + length w + length rest').
  { rewrite <-(take_drop lastIndex data) at 1. rewrite Hdrop, Hstart.
    rewrite !length_app, length_take. lia. }
  assert (Hstart' : start = drop (lastIndex + length skipped) data).
  { rewrite <-drop_drop, Hdrop. by rewrite drop_app_length. }
  assert (Hrest' : rest' = drop (lastIndex + length skipped + length w) data).
  { rewrite <-drop_drop, <-Hstart', Hstart. by rewrite drop_app_length. }
  assert (Hpos : position data start = lastIndex + length skipped).
  { unfold position. rewrite Hstart, length_app. lia. }
  assert (Hpos' : position data rest' = lastIndex + length skipped + length w).
  { unfold position. lia. }
  unfold matchEnd. cbn. rewrite Hpos, Hpos'.
  assert (Htake : take (length start - length rest') start = w).
  { rewrite Hstart. apply take_consumed. }
  rewrite Htake, <-Hstart', <-Hrest'.
  repeat split; try done; try lia.
  - rewrite Hstart. replace (_ + _ + _ - _) with (length w) by lia.
    by rewrite take_app_length.
  - intros j [Hj1 Hj2].
    specialize (Hleft (j - lastIndex) ltac:(lia)).
    rewrite drop_drop in Hleft. by replace (lastIndex + (j - lastIndex)) with j in Hleft by lia.
Qed.

(** A failed [exec] resets [lastIndex]; nothing matches from the old
    [lastIndex] on. *)
Lemma exec_None r data lastIndex lastIndex' :
  exec r data lastIndex = (None, lastIndex') →
  lastIndex' = 0 ∧
  ∀ j, lastIndex ≤ j ≤ length data → matchAt data r (drop j data) = None.
Proof.
  unfold exec. intros H.
  destruct (decide (length data < lastIndex)) as [Hlt|Hle].
  - injection H as <-. split; [done|]. intros j Hj. lia.
  - destruct (search data r (drop lastIndex data)) as [[[start rest'] caps]|] eqn:Hs;
      [discriminate|].
    injection H as <-. split; [done|]. intros j Hj.
    pose proof (search_None _ _ _ Hs (j - lastIndex)) as Hn.
    rewrite drop_drop, length_drop in Hn.
    replace (lastIndex + (j - lastIndex)) with j in Hn by lia.
    apply Hn. lia.
Qed.

(** ** First occurrences *)

(** The elements of a list without the repetitions of earlier ones. *)
Fixpoint firstOccurrences (l : list jsstring) : list jsstring :=
  match l with
  | [] => []
  | x :: l' => x :: filter (fun y => y ≠ x) (firstOccurrences l')
  end.

Lemma elem_of_firstOccurrences l x : x ∈ firstOccurrences l ↔ x ∈ l.
Proof.
  induction l as [|y l IH]; cbn; [done|].
  rewrite !elem_of_cons, list_elem_of_filter, IH.
  destruct (decide (x = y)); intuition (subst; try congruence; auto).
Qed.

Lemma NoDup_firstOccurrences l : NoDup (firstOccurrences l).
Proof.
  induction l as [|y l IH]; cbn; [constructor|].
  constructor; [|by apply NoDup_filter].
  rewrite list_elem_of_filter. intuition (subst; try congruence; auto).
Qed.

Lemma filter_all {A} (P : A → Prop) `{!∀ x, Decision (P x)} (l : list A) :
  (∀ x, x ∈ l → P x) → filter P l = l.
Proof.
  induction l as [|x l IH]; intros HP; [done|].
  rewrite filter_cons_True by (apply HP; left).
  f_equal. apply IH. intros y Hy. apply HP. by right.
Qed.

(** lodash's [uniqBy] keeps the elements that carry the first occurrence of
    their key. *)
Lemma baseUniq_keys {A} (key : A → jsstring) l :
  ∀ seen, key <$> baseUniq key seen l = filter (fun k => k ∉ seen) (firstOccurrences (key <$> l)).
Proof.
  induction l as [|x l IH]; intros seen; [done|].
  cbn [baseUniq fmap list_fmap firstOccurrences].
  destruct (decide (key x ∈ seen)) as [Hin|Hnin].
  - rewrite filter_cons_False by naive_solver.
    rewrite IH, list_filter_filter. apply list_filter_iff. intros k. intuition (subst; try congruence; auto).
  - rewrite filter_cons_True by done. cbn. f_equal.
    rewrite IH, list_filter_filter. apply list_filter_iff. intros k.
    rewrite not_elem_of_cons. intuition (subst; try congruence; auto).
Qed.

Lemma uniqBy_keys {A} (key : A → jsstring) l :
  key <$> uniqBy l key = firstOccurrences (key <$> l).
Proof.
  unfold uniqBy. rewrite baseUniq_keys.
  apply filter_all. intros k _. apply not_elem_of_nil.
Qed.

Lemma baseUniq_sublist {A} (key : A → jsstring) l :
  ∀ seen, baseUniq key seen l ⊆ l.
Proof.
  induction l as [|x l IH]; intros seen; cbn; [done|].
  destruct (decide (key x ∈ seen)).
  - intros y Hy. apply elem_of_cons. right. by eapply IH.
  - intros y [->|Hy]%elem_of_cons; [left|right; by eapply IH].
Qed.

(** ** The map operations *)

Section JsMapFacts.
Context {V : Type}.
Implicit Types (m : Map V) (k : jsstring) (v : V).

Lemma Map_lookup_None m k : Map_lookup m k = None ↔ k ∉ Map_keys m.
Proof.
  induction m as [|[k' v'] m IH]; cbn.
  - split; [intros _; apply not_elem_of_nil|done].
  - rewrite not_elem_of_cons. destruct (decide (k' = k)); intuition (subst; try congruence; auto).
Qed.

Lemma Map_has_true m k : Map_has m k = true ↔ k ∈ Map_keys m.
Proof.
  unfold Map_has. rewrite bool_decide_eq_true.
  destruct (Map_lookup m k) eqn:E.
  - split; [intros _|by eauto].
    destruct (decide (k ∈ Map_keys m)) as [|Hn]; [done|].
    apply Map_lookup_None in Hn. congruence.
  - apply Map_lookup_None in E. split; [intros []; discriminate|done].
Qed.

Lemma Map_has_false m k : Map_has m k = false ↔ k ∉ Map_keys m.
Proof. rewrite <-Map_has_true. destruct (Map_has m k); naive_solver. Qed.

(** Setting an absent key appends the entry. *)
Lemma Map_set_new m k v : k ∉ Map_keys m → Map_set m k v = m ++ [(k, v)].
Proof.
  induction m as [|[k' v'] m IH]; cbn; [done|].
  rewrite not_elem_of_cons. intros [Hne Hnin].
  destruct (decide (k' = k)); [congruence|]. by rewrite IH.
Qed.

Lemma Map_lookup_app m1 m2 k :
  Map_lookup (m1 ++ m2) k =
  match Map_lookup m1 k with Some v => Some v | None => Map_lookup m2 k end.
Proof.
  induction m1 as [|[k' v'] m1 IH]; cbn; [done|].
  by destruct (decide (k' = k)).
Qed.
End JsMapFacts.

(** ** The loop of [blameFile] *)

(** The matches of the attribution line pattern in a text, from a position
    on: each is the leftmost match that starts at or after the end of the one
    before, and none starts after the last. *)
Inductive matchesFrom (data : jsstring) : nat → list RegExpMatch → Prop :=
| matchesFrom_nil from :
    (∀ j, from ≤ j ≤ length data → matchAt data blameMatcher (drop j data) = None) →
    matchesFrom data from []
| matchesFrom_cons from m ms :
    from ≤ index m →
    (∀ j, from ≤ j < index m → matchAt data blameMatcher (drop j data) = None) →
    matchAt data blameMatcher (drop (index m) data) = Some (drop (matchEnd m) data, groups m) →
    matched m = take (length (matched m)) (drop (index m) data) →
    matchEnd m ≤ length data →
    matchesFrom data (matchEnd m) ms →
    matchesFrom data from (m :: ms).

(** The loop body, over a list of matches. *)
Definition addMatches (b : IGitBlame) (ms : list RegExpMatch) : IGitBlame :=
  foldl (fun b m => addMatch m b) b ms.

(** The hash of a matched line. *)
Definition hashOf (m : RegExpMatch) : jsstring := group m 1.

Lemma lines_addMatches ms :
  ∀ b, lines (addMatches b ms) = lines b ++ (lineOfMatch <$> ms).
Proof.
  induction ms as [|m ms IH]; intros b; cbn.
  - by rewrite app_nil_r.
  - unfold addMatches in IH. rewrite IH. cbn. by rewrite <-app_assoc.
Qed.

Lemma keys_addMatch m b :
  Map_keys (commits (addMatch m b)) =
  Map_keys (commits b) ++ filter (fun k => k ∉ Map_keys (commits b)) [hashOf m].
Proof.
  unfold addMatch, hashOf. cbn [commits].
  destruct (Map_has (commits b) (group m 1)) eqn:E.
  - apply Map_has_true in E. rewrite filter_cons_False by naive_solver.
    by rewrite app_nil_r.
  - apply Map_has_false in E. rewrite filter_cons_True by done.
    rewrite Map_set_new by done. unfold Map_keys. by rewrite fmap_app.
Qed.

Lemma keys_addMatches ms :
  ∀ b, Map_keys (commits (addMatches b ms)) =
       Map_keys (commits b) ++
       filter (fun k => k ∉ Map_keys (commits b)) (firstOccurrences (hashOf <$> ms)).
Proof.
  induction ms as [|m ms IH]; intros b.
  - cbn. by rewrite app_nil_r.
  - change (addMatches b (m :: ms)) with (addMatches (addMatch m b) ms).
    rewrite IH, keys_addMatch. cbn [fmap list_fmap firstOccurrences].
    destruct (decide (hashOf m ∈ Map_keys (commits b))) as [Hin|Hnin].
    + rewrite !filter_cons_False by naive_solver. rewrite filter_nil, app_nil_r.
      f_equal. rewrite list_filter_filter. apply list_filter_iff. intros k. intuition (subst; try congruence; auto).
    + rewrite !filter_cons_True, filter_nil by done. rewrite <-app_assoc. cbn. do 2 f_equal.
      rewrite list_filter_filter. apply list_filter_iff. intros k.
      rewrite not_elem_of_app, list_elem_of_singleton. naive_solver.
Qed.

(** The first match with a given hash. *)
Definition firstWithHash (h : jsstring) (ms : list RegExpMatch) : option RegExpMatch :=
  snd <$> list_find (fun m => hashOf m = h) ms.

Lemma firstWithHash_cons h m ms :
  firstWithHash h (m :: ms) = if decide (hashOf m = h) then Some m else firstWithHash h ms.
Proof.
  unfold firstWithHash. cbn. destruct (decide (hashOf m = h)); [done|].
  rewrite <-option_fmap_compose. by destruct (list_find _ ms) as [[]|].
Qed.

Lemma lookup_addMatch m b h :
  Map_lookup (commits (addMatch m b)) h =
  match Map_lookup (commits b) h with
  | Some v => Some v
  | None => if decide (hashOf m = h) then Some (Some (commitOfMatch m)) else None
  end.
Proof.
  unfold addMatch, hashOf. cbn [commits].
  destruct (Map_has (commits b) (group m 1)) eqn:E.
  - apply Map_has_true in E. destruct (Map_lookup (commits b) h) eqn:El; [done|].
    apply Map_lookup_None in El. destruct (decide (group m 1 = h)); congruence.
  - apply Map_has_false in E. rewrite Map_set_new, Map_lookup_app by done.
    destruct (Map_lookup (commits b) h); [done|]. cbn.
    by destruct (decide (group m 1 = h)).
Qed.

Lemma lookup_addMatches ms :
  ∀ b h, Map_lookup (commits (addMatches b ms)) h =
         match Map_lookup (commits b) h with
         | Some v => Some v
         | None => (fun m => Some (commitOfMatch m)) <$> firstWithHash h ms
         end.
Proof.
  induction ms as [|m ms IH]; intros b h.
  - cbn. by destruct (Map_lookup (commits b) h).
  - change (addMatches b (m :: ms)) with (addMatches (addMatch m b) ms).
    rewrite IH, lookup_addMatch, firstWithHash_cons.
    destruct (Map_lookup (commits b) h); [done|].
    by destruct (decide (hashOf m = h)).
Qed.

(** The loop body is run on the matches [exec] finds, in order, and the
    loop leaves [lastIndex] at 0. *)
Lemma blameLoop_execAll fuel :
  ∀ data lastIndex b,
    blameLoop fuel data lastIndex b =
    (fun ms => (addMatches b ms, 0)) <$> execAll fuel data lastIndex.
Proof.
  induction fuel as [|fuel IH]; intros data lastIndex b; cbn; [done|].
  destruct (exec blameMatcher data lastIndex) as [[m|] lastIndex'] eqn:E.
  - rewrite IH. by destruct (execAll fuel data lastIndex').
  - by apply exec_None in E as [-> _].
Qed.

(** [exec] goes through the matches of the text. *)
Lemma execAll_matchesFrom fuel :
  ∀ data lastIndex ms,
    execAll fuel data lastIndex = Some ms → matchesFrom data lastIndex ms.
Proof.
  induction fuel as [|fuel IH]; intros data lastIndex ms H; cbn in H; [discriminate|].
  destruct (exec blameMatcher data lastIndex) as [[m|] lastIndex'] eqn:E.
  - destruct (execAll fuel data lastIndex') as [ms'|] eqn:E'; [|discriminate].
    injection H as <-. apply IH in E'.
    apply exec_blameMatcher_Some in E
      as (Hfrom & Hend & Hlt & Hle & Hmatched & Hat & _ & Hleft).
    assert (Hlen : length (matched m) = lastIndex' - index m).
    { unfold matchEnd in Hend. lia. }
    subst lastIndex'. constructor; try done.
    by rewrite Hlen.
  - injection H as <-. apply exec_None in E as [_ Hnone]. by constructor.
Qed.

(** It ends whenever the fuel exceeds the characters left. *)
Lemma execAll_total fuel :
  ∀ data lastIndex,
    0 < fuel → length data < lastIndex + fuel →
    is_Some (execAll fuel data lastIndex).
Proof.
  induction fuel as [|fuel IH]; intros data lastIndex Hpos Hfuel; [lia|].
  cbn. destruct (exec blameMatcher data lastIndex) as [[m|] lastIndex'] eqn:E; [|done].
  apply exec_blameMatcher_Some in E as (Hfrom & _ & Hlt & Hle & _).
  destruct (IH data lastIndex') as [ms ->]; [lia..|]. done.
Qed.

(** The callback of [blameFile] always returns: it has gone through the
    matches of the text and leaves the shared pattern with [lastIndex] 0. *)
Lemma parseBlame_matches data lastIndex :
  ∃ ms, matchesFrom data lastIndex ms ∧
        parseBlame data lastIndex = Some (addMatches emptyBlame ms, 0).
Proof.
  unfold parseBlame. rewrite blameLoop_execAll.
  destruct (execAll_total (S (length data)) data lastIndex) as [ms Hms]; [lia..|].
  exists ms. rewrite Hms. split; [|done]. by eapply execAll_matchesFrom.
Qed.

(** The matches of a text are determined. *)
Lemma matchesFrom_unique data from ms1 :
  matchesFrom data from ms1 → ∀ ms2, matchesFrom data from ms2 → ms1 = ms2.
Proof.
  induction 1 as [from Hnone|from m ms Hfrom Hleft Hat Hmatched Hle Hms IH];
    intros ms2 H2.
  - destruct H2 as [|from m ms Hfrom Hleft Hat Hmatched Hle Hms]; [done|].
    rewrite Hnone in Hat; [discriminate|]. unfold matchEnd in Hle. lia.
  - destruct H2 as [from Hnone|from m' ms' Hfrom' Hleft' Hat' Hmatched' Hle' Hms'].
    + rewrite Hnone in Hat; [discriminate|]. unfold matchEnd in Hle. lia.
    + assert (Hidx : index m = index m').
      { destruct (decide (index m < index m')) as [Hlt|Hge].
        - rewrite Hleft' in Hat by lia. discriminate.
        - destruct (decide (index m' < index m)) as [Hlt|Hge'];
            [rewrite Hleft in Hat' by lia; discriminate|lia]. }
      rewrite Hidx, Hat' in Hat. injection Hat as Hdrop Hgroups.
      assert (Hend : matchEnd m = matchEnd m').
      { apply (f_equal length) in Hdrop. rewrite !length_drop in Hdrop. lia. }
      assert (Hlen : length (matched m) = length (matched m')).
      { unfold matchEnd in Hend. lia. }
      assert (m = m') as <-.
      { destruct m as [i1 t1 g1], m' as [i2 t2 g2]; cbn in *.
        subst. f_equal. rewrite Hmatched, Hmatched'. by rewrite Hlen. }
      f_equal. by apply IH.
Qed.

(** Every match has the shape of an attribution line. *)
Lemma matchesFrom_shape data from ms :
  matchesFrom data from ms →
  ∀ m, m ∈ ms → blameLineShape data (drop (index m) data) (drop (matchEnd m) data) (groups m).
Proof.
  induction 1 as [from Hnone|from m ms Hfrom Hleft Hat Hmatched Hle Hms IH]; intros m' Hin.
  - by apply elem_of_nil in Hin.
  - apply elem_of_cons in Hin as [->|Hin]; [|by apply IH].
    by apply matchAt_blameMatcher.
Qed.

(** ** The captured texts *)

(** What the seven groups of a match hold. *)
Lemma blameLineShape_groups input rest rest' caps :
  blameLineShape input rest rest' caps →
  (∀ i, 1 ≤ i ≤ 7 → is_Some (caps !! i)) ∧
  (length (default [] (caps !! 1)) = 8 ∧
   Forall (fun c => isHashChar c = true) (default [] (caps !! 1))) ∧
  Forall (fun c => notSpace c = true) (default [] (caps !! 2)) ∧
  (1 ≤ length (default [] (caps !! 3)) ∧
   Forall (fun c => digitOrNotSpace c = true) (default [] (caps !! 3))) ∧
  Forall (fun c => dot c = true) (default [] (caps !! 4)) ∧
  25 ≤ length (default [] (caps !! 5)) ∧
  (1 ≤ length (default [] (caps !! 6)) ∧
   Forall (fun c => isDigit c = true) (default [] (caps !! 6))) ∧
  Forall (fun c => dot c = true) (default [] (caps !! 7)).
Proof.
  intros (g1 & s1 & g2 & w2 & g3 & s3 & g4 & s4 & g5 & w5 & g6 & g7 & _ & -> &
          H1 & _ & H2 & _ & H3 & _ & H4 & _ & H5 & _ & H6 & H7 & _).
  split.
  - intros i Hi.
    assert (i = 1 ∨ i = 2 ∨ i = 3 ∨ i = 4 ∨ i = 5 ∨ i = 6 ∨ i = 7) as Hcases by lia.
    destruct Hcases as [->|[->|[->|[->|[->|[->| ->]]]]]]; by simplify_map_eq.
  - by simplify_map_eq.
Qed.

Lemma isDigit_bounds c : isDigit c = true ↔ (48 ≤ c ≤ 57)%N.
Proof. unfold isDigit. rewrite andb_true_iff, !N.leb_le. tauto. Qed.

Lemma isDigit_not_space c : isDigit c = true → isSpace c = false.
Proof.
  rewrite isDigit_bounds. intros [H1 H2]. unfold isSpace.
  repeat match goal with
  | |- (_ || _)%bool = false => apply orb_false_iff; split
  | |- (_ && _)%bool = false => apply andb_false_iff
  | |- N.eqb _ _ = false => apply N.eqb_neq; lia
  end.
  - right. apply N.leb_gt. lia.
  - left. apply N.leb_gt. lia.
Qed.

Lemma takeWhile_all p s : Forall (fun c => p c = true) s → takeWhile p s = s.
Proof. induction 1 as [|c s Hc _ IH]; cbn; [done|]. by rewrite Hc, IH. Qed.

(** [parseInt] of a run of decimal digits is its value. *)
Lemma parseInt10_digits ds :
  1 ≤ length ds → Forall (fun c => isDigit c = true) ds →
  parseInt10 ds = Num (digitsValue ds).
Proof.
  intros Hlen Hds. destruct ds as [|c ds]; [cbn in Hlen; lia|].
  pose proof (Forall_inv Hds) as Hc. cbn in Hc.
  unfold parseInt10. cbn [trimStart]. rewrite (isDigit_not_space c Hc).
  apply isDigit_bounds in Hc as Hb.
  assert (isChar "-" c = false) as -> by (apply N.eqb_neq; cbn; lia).
  assert (isChar "+" c = false) as -> by (apply N.eqb_neq; cbn; lia).
  rewrite takeWhile_all by done.
  by destruct (digitsValue (c :: ds)).
Qed.

Lemma trimStart_id s :
  Forall (fun c => notSpace c = true) s → trimStart s = s.
Proof.
  destruct 1 as [|c s Hc _]; cbn; [done|].
  unfold notSpace in Hc. apply negb_true_iff in Hc. by rewrite Hc.
Qed.

(** [trim] leaves a text without white space as it is. *)
Lemma trim_notSpace s : Forall (fun c => notSpace c = true) s → trim s = s.
Proof.
  intros H. unfold trim. rewrite (trimStart_id s H).
  rewrite trimStart_id by by apply Forall_reverse.
  apply reverse_involutive.
Qed.

(** ** The cache and the store of promises *)

(** A blame result that the callback of [blameFile] built from some text. *)
Definition parsed (b : IGitBlame) : Prop :=
  ∃ data ms, matchesFrom data 0 ms ∧ b = addMatches emptyBlame ms.

(** The states a provider can be in. *)
Definition reachable (s : state) : Prop := ∃ es, s = run initial es.

(** What holds of them: the shared pattern is at rest, every call of the
    collaborator has its promise, every cached address is allocated, and
    every fulfilled promise holds a parsed text. *)
Record invariant (s : state) : Prop := {
  inv_lastIndex : matcherLastIndex s = 0;
  inv_calls : length (gitBlameCalls s) = length (store s);
  inv_files : ∀ f p, _files s !! f = Some p → p < length (store s);
  inv_parsed : ∀ p b, store s !! p = Some (Fulfilled b) → parsed b;
}.

Lemma blameFile_hit f p s : _files s !! f = Some p → blameFile f s = (p, s).
Proof. unfold blameFile. by intros ->. Qed.

Lemma blameFile_miss f s :
  _files s !! f = None →
  blameFile f s =
  (length (store s),
   {| _files := <[f := length (store s)]> (_files s);
      store := store s ++ [Pending];
      gitBlameCalls := gitBlameCalls s ++ [f];
      matcherLastIndex := matcherLastIndex s |}).
Proof. unfold blameFile. by intros ->. Qed.

(** After [blameFile] the file is cached under the promise returned. *)
Lemma blameFile_cached f s : _files (blameFile f s).2 !! f = Some (blameFile f s).1.
Proof.
  unfold blameFile. destruct (_files s !! f) eqn:E; cbn; [done|].
  apply lookup_insert_eq.
Qed.

Lemma settle_files p r s : _files (settle p r s) = _files s.
Proof.
  unfold settle. destruct (store s !! p) as [[| |]|]; try done.
  destruct r; [|done]. by destruct (parseBlame _ _) as [[]|].
Qed.

Lemma settle_calls p r s : gitBlameCalls (settle p r s) = gitBlameCalls s.
Proof.
  unfold settle. destruct (store s !! p) as [[| |]|]; try done.
  destruct r; [|done]. by destruct (parseBlame _ _) as [[]|].
Qed.

Lemma settle_length p r s : length (store (settle p r s)) = length (store s).
Proof.
  unfold settle. destruct (store s !! p) as [[| |]|]; try done.
  destruct r; cbn; [|by rewrite length_insert].
  destruct (parseBlame _ _) as [[]|]; cbn; [|done]. by rewrite length_insert.
Qed.

(** A settled promise keeps its outcome. *)
Lemma step_settled s e p v :
  store s !! p = Some v → v ≠ Pending → store (step s e) !! p = Some v.
Proof.
  intros Hp Hv. destruct e as [f|d|c|q r]; cbn; try done.
  - unfold blameFile. destruct (_files s !! f); cbn; [done|].
    by apply lookup_app_l_Some.
  - unfold settle. destruct (store s !! q) as [[| |]|] eqn:Hq; try done.
    assert (q ≠ p) by congruence.
    destruct r; cbn.
    + destruct (parseBlame _ _) as [[]|]; cbn; [|done].
      by rewrite list_lookup_insert_ne.
    + by rewrite list_lookup_insert_ne.
Qed.

Lemma run_settled es : ∀ s p v,
  store s !! p = Some v → v ≠ Pending → store (run s es) !! p = Some v.
Proof.
  induction es as [|e es IH]; intros s p v Hp Hv; cbn; [done|].
  apply IH; [|done]. by apply step_settled.
Qed.

(** A cache entry stays until an event invalidates its file. *)
Lemma step_files_keep s e f p :
  _files s !! f = Some p → invalidated e ≠ Some f → _files (step s e) !! f = Some p.
Proof.
  intros Hf He. destruct e as [f'|d|c|q r]; cbn in *.
  - unfold blameFile. destruct (_files s !! f') eqn:E; cbn; [done|].
    rewrite lookup_insert_ne; [done|]. congruence.
  - rewrite lookup_delete_ne; [done|]. congruence.
  - rewrite lookup_delete_ne; [done|]. congruence.
  - by rewrite settle_files.
Qed.

Lemma run_files_keep es : ∀ s f p,
  _files s !! f = Some p → Forall (fun e => invalidated e ≠ Some f) es →
  _files (run s es) !! f = Some p.
Proof.
  induction es as [|e es IH]; intros s f p Hf Hes; cbn; [done|].
  apply Forall_cons in Hes as [He Hes].
  apply IH; [|done]. by apply step_files_keep.
Qed.

(** An invalidated file stays out of the cache until [blameFile] is called
    for it. *)
Lemma step_files_out s e f :
  _files s !! f = None → e ≠ CallBlameFile f → _files (step s e) !! f = None.
Proof.
  intros Hf He. destruct e as [f'|d|c|q r]; cbn in *.
  - unfold blameFile. destruct (_files s !! f') eqn:E; cbn; [done|].
    rewrite lookup_insert_ne; [done|]. congruence.
  - destruct (decide (fileName d = f)) as [->|];
      [apply lookup_delete_eq|by rewrite lookup_delete_ne].
  - destruct (decide (fileName (document c) = f)) as [->|];
      [apply lookup_delete_eq|by rewrite lookup_delete_ne].
  - by rewrite settle_files.
Qed.

Lemma run_files_out es : ∀ s f,
  _files s !! f = None → Forall (fun e => e ≠ CallBlameFile f) es →
  _files (run s es) !! f = None.
Proof.
  induction es as [|e es IH]; intros s f Hf Hes; cbn; [done|].
  apply Forall_cons in Hes as [He Hes].
  apply IH; [|done]. by apply step_files_out.
Qed.

Lemma invariant_initial : invariant initial.
Proof.
  split; cbn; try done.
Qed.

Lemma invariant_step s e : invariant s → invariant (step s e).
Proof.
  intros [Hli Hcalls Hfiles Hparsed]. destruct e as [f|d|c|q r]; cbn.
  - unfold blameFile. destruct (_files s !! f) eqn:E; cbn; [by split|].
    split; cbn; try done.
    + rewrite !length_app. cbn. lia.
    + intros f' p. rewrite length_app. cbn.
      destruct (decide (f = f')) as [->|Hne].
      * rewrite lookup_insert_eq. intros [= <-]. lia.
      * rewrite lookup_insert_ne by done. intros H%Hfiles. lia.
    + intros p b [H|[_ H]]%lookup_app_Some; [by eapply Hparsed|].
      destruct (p - length (store s)) as [|n]; cbn in H; discriminate.
  - split; cbn; try done.
    intros f p H. apply lookup_delete_Some in H as [_ H]. by eapply Hfiles.
  - split; cbn; try done.
    intros f p H. apply lookup_delete_Some in H as [_ H]. by eapply Hfiles.
  - split.
    + unfold settle. destruct (store s !! q) as [[| |]|]; try done.
      destruct r as [data|reason]; [|done].
      destruct (parseBlame_matches data (matcherLastIndex s)) as (ms & _ & ->). done.
    + by rewrite settle_calls, settle_length.
    + rewrite settle_files, settle_length. exact Hfiles.
    + unfold settle. destruct (store s !! q) as [[| |]|] eqn:Hq; try done.
      destruct r as [data|reason]; cbn.
      * destruct (parseBlame_matches data (matcherLastIndex s)) as (ms & Hms & ->). cbn.
        intros p b H. apply list_lookup_insert_Some in H as [(-> & [= <-] & _)|[_ H]];
          [|by eapply Hparsed].
        exists data, ms. by rewrite <-Hli.
      * intros p b H. apply list_lookup_insert_Some in H as [(-> & [=] & _)|[_ H]].
        by eapply Hparsed.
Qed.

Lemma invariant_run es : ∀ s, invariant s → invariant (run s es).
Proof.
  induction es as [|e es IH]; intros s Hs; cbn; [done|].
  apply IH. by apply invariant_step.
Qed.

Lemma reachable_invariant s : reachable s → invariant s.
Proof. intros [es ->]. apply invariant_run, invariant_initial. Qed.

Lemma reachable_run s es : reachable s → reachable (run s es).
Proof.
  intros [es0 ->]. exists (es0 ++ es). unfold run. by rewrite foldl_app.
Qed.

(** A pending promise stays pending until the collaborator settles it. *)
Lemma step_pending s e p :
  store s !! p = Some Pending → (∀ r, e ≠ GitBlameSettled p r) →
  store (step s e) !! p = Some Pending.
Proof.
  intros Hp He. destruct e as [f|d|c|q r]; cbn; try done.
  - unfold blameFile. destruct (_files s !! f); cbn; [done|].
    by apply lookup_app_l_Some.
  - assert (q ≠ p) by (intros ->; by eapply He).
    unfold settle. destruct (store s !! q) as [[| |]|] eqn:Hq; try done.
    destruct r as [data|reason]; cbn.
    + destruct (parseBlame _ _) as [[]|]; cbn; [|done].
      by rewrite list_lookup_insert_ne.
    + by rewrite list_lookup_insert_ne.
Qed.

Lemma run_pending es : ∀ s p,
  store s !! p = Some Pending → Forall (fun e => ∀ r, e ≠ GitBlameSettled p r) es →
  store (run s es) !! p = Some Pending.
Proof.
  induction es as [|e es IH]; intros s p Hp Hes; cbn; [done|].
  apply Forall_cons in Hes as [He Hes].
  apply IH; [|done]. by apply step_pending.
Qed.

(** ** Slices *)

Lemma relativeIndex_nat len (i : nat) : relativeIndex len (Z.of_nat i) = i `min` len.
Proof. unfold relativeIndex. destruct (Z.ltb_spec (Z.of_nat i) 0); lia. Qed.

(** [l.slice(from, to + 1)] holds the elements at the positions [from] to
    [to], both included. *)
Lemma slice_inclusive {A} (l : list A) (from to i : nat) :
  slice l (Z.of_nat from) (Z.of_nat to + 1) !! i =
  if decide (from + i ≤ to) then l !! (from + i) else None.
Proof.
  unfold slice. replace (Z.of_nat to + 1)%Z with (Z.of_nat (S to)) by lia.
  rewrite !relativeIndex_nat.
  destruct (decide (from + i ≤ to)) as [Hin|Hout].
  - destruct (decide (from + i < length l)) as [Hlt|Hge].
    + rewrite lookup_take_lt by lia. rewrite lookup_drop. f_equal. lia.
    + rewrite (lookup_ge_None_2 l) by lia.
      apply lookup_ge_None_2. rewrite length_take, length_drop. lia.
  - apply lookup_ge_None_2. rewrite length_take, length_drop. lia.
Qed.

Lemma rangeLines_lookup blame range i :
  rangeLines blame range !! i =
  if decide (line (start range) + i ≤ line (end_ range))
  then lines blame !! (line (start range) + i) else None.
Proof. apply slice_inclusive. Qed.

Lemma rangeLines_sublist blame range l :
  l ∈ rangeLines blame range → l ∈ lines blame.
Proof.
  intros [i Hi]%list_elem_of_lookup. rewrite rangeLines_lookup in Hi.
  destruct (decide _); [|discriminate]. by eapply list_elem_of_lookup_2.
Qed.

(** ** The commit map of a range *)

(** Setting keys that are new and distinct appends them in order. *)
Lemma foldl_Map_set_new {A} (key : A → jsstring) (val : A → commitValue) (ls : list A) :
  ∀ acc, NoDup (Map_keys acc ++ (key <$> ls)) →
    foldl (fun acc l => Map_set acc (key l) (val l)) acc ls =
    acc ++ ((fun l => (key l, val l)) <$> ls).
Proof.
  induction ls as [|l ls IH]; intros acc Hnd; cbn.
  - by rewrite app_nil_r.
  - cbn in Hnd. apply NoDup_app in Hnd as Hnd'. destruct Hnd' as (_ & Hdisj & _).
    rewrite Map_set_new by (intros Hin; apply (Hdisj _ Hin); left).
    rewrite IH.
    + by rewrite <-app_assoc.
    + unfold Map_keys. rewrite fmap_app, <-app_assoc. exact Hnd.
Qed.

Lemma Map_lookup_tabulate {A} (key : A → jsstring) (G : jsstring → commitValue)
    (ls : list A) h :
  Map_lookup (V := commitValue) ((fun l => (key l, G (key l))) <$> ls) h =
  if decide (h ∈ key <$> ls) then Some (G h) else None.
Proof.
  induction ls as [|l ls IH]; cbn.
  - rewrite decide_False; [done|]. apply not_elem_of_nil.
  - destruct (decide (key l = h)) as [->|Hne].
    + rewrite decide_True; [done|]. left.
    + rewrite IH. apply decide_ext. rewrite elem_of_cons. intuition (subst; try congruence; auto).
Qed.

(** The range view of a blame result with lines: its lines are those of the
    range, its keys their hashes in order of first occurrence, its values
    those of the full result. *)
Lemma getBlameForRange_then_spec range blame :
  lines blame ≠ [] →
  let r := getBlameForRange_then range blame in
  lines r = rangeLines blame range ∧
  Map_keys (commits r) = firstOccurrences (Line.sha <$> lines r) ∧
  ∀ h, Map_lookup (commits r) h =
       if decide (h ∈ Line.sha <$> lines r) then Some (Map_get (commits blame) h) else None.
Proof.
  intros Hne. unfold getBlameForRange_then.
  destruct (decide (length (lines blame) = 0)) as [H0|_].
  { by apply nil_length_inv in H0. }
  cbn zeta. cbn [lines commits].
  rewrite (foldl_Map_set_new Line.sha (fun l => Map_get (commits blame) (Line.sha l))).
  - cbn [app]. split; [done|]. split.
    + unfold Map_keys. rewrite <-list_fmap_compose. apply uniqBy_keys.
    + intros h. rewrite (Map_lookup_tabulate Line.sha (Map_get (commits blame))).
      apply decide_ext. rewrite uniqBy_keys. apply elem_of_firstOccurrences.
  - cbn. rewrite uniqBy_keys. apply NoDup_firstOccurrences.
Qed.

(** ** Numbers as text: facts *)

(** Quotients and remainders as atoms, for [lia]. *)
Ltac atoms_lia :=
  repeat match goal with
  | |- context [N.div ?a ?b] => let q := fresh "q" in set (q := N.div a b) in *; clearbody q
  | |- context [N.modulo ?a ?b] => let r := fresh "r" in set (r := N.modulo a b) in *; clearbody r
  | H : context [N.div ?a ?b] |- _ => let q := fresh "q" in set (q := N.div a b) in *; clearbody q
  | H : context [N.modulo ?a ?b] |- _ => let r := fresh "r" in set (r := N.modulo a b) in *; clearbody r
  end; lia.

Lemma div10_lt n : (n / 10 ≠ 0)%N → (n / 10 < n)%N ∧ (0 < n)%N.
Proof.
  intros Hq. assert (0 < n)%N.
  { destruct (N.eq_dec n 0%N) as [->|]; [by cbn in Hq|lia]. }
  split; [|done]. apply N.div_lt; lia.
Qed.

Lemma digitsValue_digitsAux fuel :
  ∀ n acc, N.to_nat n < fuel →
    digitsValue (digitsAux fuel n acc)
    = foldl (fun a c => 10 * a + digitValue c)%Z (Z.of_N n) acc.
Proof.
  unfold digitsValue.
  induction fuel as [|fuel IH]; intros n acc Hfuel; [lia|].
  cbn [digitsAux]. destruct (N.eqb_spec (n / 10) 0) as [Hq|Hq].
  - cbn. f_equal. unfold digitValue.
    assert (n mod 10 = n)%N by (apply N.mod_small; apply N.div_small_iff in Hq; lia).
    lia.
  - rewrite IH.
    + cbn. f_equal. unfold digitValue.
      pose proof (N.div_mod n 10 ltac:(lia)). lia.
    + pose proof (div10_lt n Hq). atoms_lia.
Qed.

Lemma decimal_value n : digitsValue (decimal n) = Z.of_N n.
Proof. unfold decimal. rewrite digitsValue_digitsAux by lia. done. Qed.

Lemma digit_isDigit n : isDigit (48 + n mod 10)%N = true.
Proof.
  apply isDigit_bounds. pose proof (N.mod_upper_bound n 10 ltac:(lia)) as H.
  revert H. generalize (n mod 10)%N. intros m H. lia.
Qed.

Lemma digitsAux_digits fuel :
  ∀ n acc, Forall (fun c => isDigit c = true) acc →
    Forall (fun c => isDigit c = true) (digitsAux fuel n acc).
Proof.
  induction fuel as [|fuel IH]; intros n acc Hacc; cbn [digitsAux]; [done|].
  assert (Hd : Forall (fun c => isDigit c = true) ((48 + n mod 10)%N :: acc)).
  { constructor; [apply digit_isDigit|done]. }
  destruct (n / 10 =? 0)%N; [done|by apply IH].
Qed.

Lemma decimal_digits n : Forall (fun c => isDigit c = true) (decimal n).
Proof. apply digitsAux_digits. constructor. Qed.

(** A number is written without a leading zero, zero apart. *)
Lemma digitsAux_head fuel :
  ∀ n acc, N.to_nat n < fuel → (0 < n)%N →
    ∃ d ds, digitsAux fuel n acc = d :: ds ∧ isChar "0" d = false.
Proof.
  induction fuel as [|fuel IH]; intros n acc Hfuel Hn; [lia|].
  cbn [digitsAux]. destruct (N.eqb_spec (n / 10) 0) as [Hq|Hq].
  - eexists _, _. split; [done|]. apply N.eqb_neq. change (chr "0") with 48%N.
    assert (n mod 10 = n)%N as -> by (apply N.mod_small; apply N.div_small_iff in Hq; lia).
    lia.
  - pose proof (div10_lt n Hq). apply IH; atoms_lia.
Qed.

Lemma decimal_head n :
  (0 < n)%N → ∃ d ds, decimal n = d :: ds ∧ isChar "0" d = false.
Proof. intros Hn. apply digitsAux_head; lia. Qed.

Lemma decimal_0 : decimal 0 = js "0".
Proof. reflexivity. Qed.

(** ** JSON: what is written is read back *)

(** What may follow a number: nothing that would continue it. *)
Definition endsNumber (rest : jsstring) : Prop :=
  match rest with
  | [] => True
  | c :: _ => isDigit c = false ∧ isChar "." c = false ∧
              isChar "e" c = false ∧ isChar "E" c = false
  end.

Lemma takeWhile_app_stop p ds rest :
  Forall (fun c => p c = true) ds →
  match rest with [] => True | c :: _ => p c = false end →
  takeWhile p (ds ++ rest) = ds.
Proof.
  induction 1 as [|c ds Hc _ IH]; intros Hrest; cbn.
  - destruct rest as [|c rest]; [done|]. cbn in *. by rewrite Hrest.
  - by rewrite Hc, IH.
Qed.

Lemma isDigit_not_char c a :
  isDigit c = true → isDigit (chr a) = false → isChar a c = false.
Proof.
  intros Hc Ha. apply N.eqb_neq. intros ->. congruence.
Qed.

Definition signText (negative : bool) : jsstring :=
  if negative then [chr "-"] else [].

Lemma parseNumber_digits negative (ds rest : jsstring) :
  1 ≤ length ds →
  Forall (fun c => isDigit c = true) ds →
  (∀ d ds', ds = d :: ds' → isChar "0" d = true → ds' = []) →
  endsNumber rest →
  parseNumber (signText negative ++ ds ++ rest)
  = Some (JInt (if negative then - digitsValue ds else digitsValue ds)%Z, rest).
Proof.
  intros Hlen Hds Hzero Hrest.
  destruct ds as [|d ds']; [cbn in Hlen; lia|].
  pose proof (Forall_inv Hds) as Hd. cbn in Hd.
  assert (Hint : integerPart ((d :: ds') ++ rest) = d :: ds').
  { cbn [app integerPart]. destruct (isChar "0" d) eqn:E.
    - by rewrite (Hzero d ds' eq_refl E).
    - apply (takeWhile_app_stop isDigit (d :: ds')); [done|].
      destruct rest as [|c rest]; [done|]. by destruct Hrest. }
  assert (Hfrac : fractionPart rest = (None, rest)).
  { destruct rest as [|c rest]; [done|]. cbn. by destruct Hrest as (_ & -> & _). }
  assert (Hexp : exponentPart rest = (None, rest)).
  { destruct rest as [|c rest]; [done|]. cbn. by destruct Hrest as (_ & _ & -> & ->). }
  unfold parseNumber.
  assert (Hsign : signPart (signText negative ++ (d :: ds') ++ rest)
                 = (negative, (d :: ds') ++ rest)).
  { destruct negative; cbn; [done|].
    by rewrite (isDigit_not_char d "-" Hd eq_refl). }
  rewrite Hsign, Hint.
  rewrite drop_app_length, Hfrac, Hexp. done.
Qed.

Lemma numberToString_Num z :
  numberToString (Num z) = signText (z <? 0)%Z ++ decimal (Z.abs_N z).
Proof. cbn. by destruct (z <? 0)%Z. Qed.

(** An integer that was written is read back. *)
Lemma parseNumber_numberToString z rest :
  endsNumber rest →
  parseNumber (numberToString (Num z) ++ rest) = Some (JInt z, rest).
Proof.
  intros Hrest. rewrite numberToString_Num, <-app_assoc.
  assert (Hlen : 1 ≤ length (decimal (Z.abs_N z)) ∧
                 ∀ d ds', decimal (Z.abs_N z) = d :: ds' → isChar "0" d = true → ds' = []).
  { destruct (N.eq_dec (Z.abs_N z) 0%N) as [->|Hne].
    - rewrite decimal_0. split; [cbn; lia|]. by intros d ds' [= <- <-] _.
    - destruct (decimal_head (Z.abs_N z)) as (d & ds & -> & Hd); [lia|].
      split; [cbn; lia|]. intros d' ds' [= <- <-]. congruence. }
  destruct Hlen as [Hlen Hzero].
  rewrite parseNumber_digits; [|done|apply decimal_digits|done|done].
  rewrite decimal_value, N2Z.inj_abs_N.
  assert ((if (z <? 0)%Z then (- Z.abs z)%Z else Z.abs z) = z) as ->; [|done].
  destruct (Z.ltb_spec z 0); lia.
Qed.

(** *** Strings *)

Lemma hex4_hexDigit c :
  (c < 32)%N → hex4 48%N 48%N (hexDigit (c / 16)) (hexDigit (c mod 16)) = Some c.
Proof.
  intros Hc. rewrite <-(N2Nat.id c). assert (Hn : N.to_nat c < 32) by lia.
  revert Hn. generalize (N.to_nat c). intros n Hn.
  do 32 (destruct n as [|n]; [reflexivity|]). lia.
Qed.

Lemma parseString_unicode h1 h2 h3 h4 t :
  parseString (92%N :: 117%N :: h1 :: h2 :: h3 :: h4 :: t)
  = match hex4 h1 h2 h3 h4 with
    | Some x => prepend x (parseString t)
    | None => None
    end.
Proof. reflexivity. Qed.

Lemma parseString_plain c t :
  (c =? 34)%N = false → (c <? 32)%N = false → (c =? 92)%N = false →
  parseString (c :: t) = prepend c (parseString t).
Proof.
  intros H1 H2 H3.
  change (parseString (c :: t)) with
    (if (c =? 34)%N then Some ([], t)
     else if (c <? 32)%N then None
     else if (c =? 92)%N then
       match t with
       | [] => None
       | e :: s'' =>
           match simpleEscape e with
           | Some x => prepend x (parseString s'')
           | None =>
               if (e =? 117)%N then
                 match s'' with
                 | h1 :: h2 :: h3 :: h4 :: s4 =>
                     match hex4 h1 h2 h3 h4 with
                     | Some x => prepend x (parseString s4)
                     | None => None
                     end
                 | _ => None
                 end
               else None
           end
       end
     else prepend c (parseString t)).
  by rewrite H1, H2, H3.
Qed.

(** An escaped character is read back. *)
Lemma parseString_quoteChar c t :
  parseString (quoteChar c ++ t) = prepend c (parseString t).
Proof.
  unfold quoteChar.
  destruct (N.eqb_spec c 34) as [->|H34]; [reflexivity|].
  destruct (N.eqb_spec c 92) as [->|H92]; [reflexivity|].
  destruct (N.eqb_spec c 8) as [->|H8]; [reflexivity|].
  destruct (N.eqb_spec c 12) as [->|H12]; [reflexivity|].
  destruct (N.eqb_spec c 10) as [->|H10]; [reflexivity|].
  destruct (N.eqb_spec c 13) as [->|H13]; [reflexivity|].
  destruct (N.eqb_spec c 9) as [->|H9]; [reflexivity|].
  destruct (N.ltb_spec c 32) as [Hlt|Hge].
  - change (js "\u00" ++ [hexDigit (c / 16); hexDigit (c mod 16)])
      with (92%N :: 117%N :: 48%N :: 48%N :: hexDigit (c / 16) :: [hexDigit (c mod 16)]).
    cbn [app]. by rewrite parseString_unicode, (hex4_hexDigit c Hlt).
  - cbn [app]. apply parseString_plain.
    + by apply N.eqb_neq.
    + by apply N.ltb_ge.
    + by apply N.eqb_neq.
Qed.

(** A string that was written is read back. *)
Lemma parseString_quoteBody s rest :
  parseString (quoteBody s ++ 34%N :: rest) = Some (s, rest).
Proof.
  induction s as [|c s IH]; [reflexivity|].
  cbn [quoteBody]. by rewrite <-app_assoc, parseString_quoteChar, IH.
Qed.

(** *** Values *)

(** The values [JSON.stringify] writes for the data of this program: no
    number kept as text. *)
Fixpoint written (v : json) : Prop :=
  match v with
  | JFrac _ => False
  | JArr elements => foldr (fun x P => written x ∧ P) True elements
  | JObj members => foldr (fun m P => written (snd m) ∧ P) True members
  | _ => True
  end.

Fixpoint size (v : json) : nat :=
  match v with
  | JArr elements => S (foldr (fun x n => S (size x + n)) 0 elements)
  | JObj members => S (foldr (fun m n => S (size (snd m) + n)) 0 members)
  | _ => 1
  end.

Lemma skipSpace_head c s : isJsonSpace c = false → skipSpace (c :: s) = c :: s.
Proof. intros H. cbn. by rewrite H. Qed.

Lemma startsWith_other p0 p c s :
  c ≠ p0 → startsWith (p0 :: p) (c :: s) = false.
Proof.
  intros Hne. unfold startsWith. apply bool_decide_eq_false. cbn. congruence.
Qed.

(** The first character of a number that was written. *)
Lemma numberToString_head z :
  ∃ c cs, numberToString (Num z) = c :: cs ∧ (isChar "-" c || isDigit c) = true.
Proof.
  rewrite numberToString_Num. destruct (z <? 0)%Z; cbn [signText app].
  - by eexists _, _.
  - pose proof (decimal_digits (Z.abs_N z)) as Hds.
    destruct (decimal (Z.abs_N z)) as [|c cs] eqn:E.
    + destruct (N.eq_dec (Z.abs_N z) 0%N) as [H0|Hne].
      * rewrite H0, decimal_0 in E. discriminate.
      * destruct (decimal_head (Z.abs_N z)) as (d & ds & Hd & _); [lia|]. congruence.
    + exists c, cs. split; [done|]. apply Forall_inv in Hds. cbn in Hds.
      rewrite Hds. apply orb_true_r.
Qed.

(** A character that starts a number starts nothing else. *)
Lemma number_head_facts c :
  (isChar "-" c || isDigit c) = true →
  isJsonSpace c = false ∧ isQuote c = false ∧ isChar "[" c = false ∧
  isChar "{" c = false ∧ isChar "]" c = false ∧ isChar "}" c = false ∧
  c ≠ 116%N ∧ c ≠ 102%N ∧ c ≠ 110%N.
Proof.
  intros H. apply orb_true_iff in H as [H|H].
  - apply N.eqb_eq in H. subst c. by vm_compute.
  - apply isDigit_bounds in H. unfold isJsonSpace, isChar, isQuote.
    repeat split;
      repeat match goal with
      | |- (_ || _)%bool = false => apply orb_false_iff; split
      | |- N.eqb _ _ = false => apply N.eqb_neq; cbn; lia
      | |- _ ≠ _ => lia
      end.
Qed.

(** What a written value starts with: no white space and no closing
    bracket. *)
Lemma stringify_head v :
  written v →
  ∃ c cs, stringify v = c :: cs ∧ isJsonSpace c = false ∧
          isChar "]" c = false ∧ isChar "}" c = false.
Proof.
  intros Hv. destruct v as [|[]|z|t|s|l|ms]; cbn [stringify];
    try (destruct Hv; fail); try (by eexists _, _).
  destruct (numberToString_head z) as (c & cs & -> & Hc).
  exists c, cs. destruct (number_head_facts c Hc) as (? & _ & _ & _ & ? & ? & _). done.
Qed.

Lemma intercalate_cons sep p ps :
  intercalate sep (p :: ps) = p ++ match ps with [] => [] | _ :: _ => sep ++ intercalate sep ps end.
Proof. destruct ps; cbn [intercalate]; [by rewrite app_nil_r|done]. Qed.

(** The text of the elements of an array, from after the opening bracket. *)
Definition elementsText (l : list json) : jsstring :=
  intercalate (js ",") (map stringify l) ++ js "]".

(** The text of the members of an object, from after the opening brace. *)
Definition membersText (ms : list (jsstring * json)) : jsstring :=
  intercalate (js ",") (map (fun m => quote (fst m) ++ chr ":" :: stringify (snd m)) ms)
  ++ js "}".

Lemma elementsText_cons v l :
  elementsText (v :: l)
  = stringify v ++ match l with [] => js "]" | _ :: _ => chr "," :: elementsText l end.
Proof.
  unfold elementsText. cbn [map]. rewrite intercalate_cons, <-app_assoc.
  destruct l; [done|]. cbn [map]. by rewrite <-app_assoc.
Qed.

Lemma membersText_cons k v ms :
  membersText ((k, v) :: ms)
  = 34%N :: quoteBody k ++ 34%N :: chr ":" :: stringify v ++
    match ms with [] => js "}" | _ :: _ => chr "," :: membersText ms end.
Proof.
  unfold membersText. cbn [map fst snd]. rewrite intercalate_cons.
  unfold quote. cbn [app]. f_equal. rewrite <-!app_assoc. cbn [app]. do 3 f_equal.
  destruct ms; [done|]. cbn [map]. done.
Qed.

Section Steps.
Variable elements : jsstring → option (list json * jsstring).
Variable members : jsstring → option (list (jsstring * json) * jsstring).
Variable value : jsstring → option (json * jsstring).

Lemma valueStep_string s rest :
  valueStep elements members (34%N :: quoteBody s ++ 34%N :: rest) = Some (JStr s, rest).
Proof.
  unfold valueStep.
  change (skipSpace (34%N :: ?s)) with (34%N :: s). cbv iota.
  change (isQuote 34%N) with true. cbv iota.
  by rewrite parseString_quoteBody.
Qed.

Lemma valueStep_array c cs :
  isJsonSpace c = false → isChar "]" c = false →
  valueStep elements members (chr "[" :: c :: cs)
  = match elements (c :: cs) with
    | Some (l, rest) => Some (JArr l, rest)
    | None => None
    end.
Proof.
  intros Hsp Hc. unfold valueStep.
  change (skipSpace (?x :: c :: cs)) with (x :: c :: cs). cbv iota.
  change (isQuote (chr ?x)) with false. cbv iota.
  rewrite (skipSpace_head c cs Hsp), Hc. reflexivity.
Qed.

Lemma valueStep_object c cs :
  isJsonSpace c = false → isChar "}" c = false →
  valueStep elements members (chr "{" :: c :: cs)
  = match members (c :: cs) with
    | Some (l, rest) => Some (JObj l, rest)
    | None => None
    end.
Proof.
  intros Hsp Hc. unfold valueStep.
  change (skipSpace (?x :: c :: cs)) with (x :: c :: cs). cbv iota.
  change (isQuote (chr ?x)) with false. cbv iota.
  rewrite (skipSpace_head c cs Hsp), Hc. reflexivity.
Qed.

Lemma valueStep_number z rest :
  endsNumber rest →
  valueStep elements members (numberToString (Num z) ++ rest) = Some (JInt z, rest).
Proof.
  intros Hrest. unfold valueStep.
  destruct (numberToString_head z) as (c & cs & E & Hc).
  pose proof (parseNumber_numberToString z rest Hrest) as Hparse.
  rewrite E in *. cbn [app] in *.
  destruct (number_head_facts c Hc) as (Hsp & Hq & Hb & Hbr & _ & _ & Ht & Hf & Hn).
  rewrite (skipSpace_head _ _ Hsp), Hq, Hb, Hbr.
  change (js "true") with (116%N :: js "rue").
  change (js "false") with (102%N :: js "alse").
  change (js "null") with (110%N :: js "ull").
  rewrite !startsWith_other by done. by rewrite Hc.
Qed.

(** After a value comes a comma and the next element, or the closing
    bracket. *)
Lemma elementsStep_more v t rest :
  value t = Some (v, chr "," :: rest) →
  elementsStep value elements t = prepend v (elements rest).
Proof. intros Hv. unfold elementsStep. by rewrite Hv. Qed.

Lemma elementsStep_last v t rest :
  value t = Some (v, chr "]" :: rest) →
  elementsStep value elements t = Some ([v], rest).
Proof. intros Hv. unfold elementsStep. by rewrite Hv. Qed.

Lemma membersStep_more k v t rest :
  value t = Some (v, chr "," :: rest) →
  membersStep value members (34%N :: quoteBody k ++ 34%N :: chr ":" :: t)
  = prepend (k, v) (members rest).
Proof.
  intros Hv. unfold membersStep.
  change (skipSpace (34%N :: ?s)) with (34%N :: s). cbv iota.
  change (isQuote 34%N) with true. cbv iota.
  rewrite parseString_quoteBody.
  change (skipSpace (chr ":" :: t)) with (chr ":" :: t). cbv iota.
  change (isChar ":" (chr ":")) with true. cbv iota.
  rewrite Hv. reflexivity.
Qed.

Lemma membersStep_last k v t rest :
  value t = Some (v, chr "}" :: rest) →
  membersStep value members (34%N :: quoteBody k ++ 34%N :: chr ":" :: t)
  = Some ([(k, v)], rest).
Proof.
  intros Hv. unfold membersStep.
  change (skipSpace (34%N :: ?s)) with (34%N :: s). cbv iota.
  change (isQuote 34%N) with true. cbv iota.
  rewrite parseString_quoteBody.
  change (skipSpace (chr ":" :: t)) with (chr ":" :: t). cbv iota.
  change (isChar ":" (chr ":")) with true. cbv iota.
  rewrite Hv. reflexivity.
Qed.
End Steps.

(** What is written is read back: a value, the elements of an array, the
    members of an object, whatever follows that does not continue a
    number. *)
Lemma parse_stringify fuel :
  (∀ v rest, written v → size v ≤ fuel → endsNumber rest →
     parseValue fuel (stringify v ++ rest) = Some (v, rest)) ∧
  (∀ l rest, l ≠ [] → written (JArr l) → size (JArr l) ≤ S fuel →
     parseElements fuel (elementsText l ++ rest) = Some (l, rest)) ∧
  (∀ ms rest, ms ≠ [] → written (JObj ms) → size (JObj ms) ≤ S fuel →
     parseMembers fuel (membersText ms ++ rest) = Some (ms, rest)).
Proof.
  induction fuel as [|fuel (IHv & IHe & IHm)].
  { split_and!.
    - intros v rest _ Hsize. destruct v; cbn in Hsize; lia.
    - intros [|v l] rest Hne _ Hsize; [done|]. cbn in Hsize. lia.
    - intros [|m ms] rest Hne _ Hsize; [done|]. cbn in Hsize. lia. }
  split_and!.
  - intros v rest Hv Hsize Hrest. cbn [parseValue].
    destruct v as [|[]|z|t|s|l|ms]; cbn [stringify].
    + reflexivity.
    + reflexivity.
    + reflexivity.
    + by apply valueStep_number.
    + destruct Hv.
    + unfold quote. cbn [app]. rewrite <-app_assoc. apply valueStep_string.
    + destruct l as [|v l]; [reflexivity|].
      change ((chr "[" :: intercalate (js ",") (map stringify (v :: l)) ++ js "]") ++ rest)
        with (chr "[" :: elementsText (v :: l) ++ rest).
      pose proof (IHe (v :: l) rest ltac:(done) Hv Hsize) as Hparse.
      destruct (stringify_head v (proj1 Hv)) as (c & cs & Ec & Hsp & Hc & _).
      rewrite elementsText_cons, Ec in *. cbn [app] in *.
      rewrite valueStep_array by done. by rewrite Hparse.
    + destruct ms as [|[k v] ms]; [reflexivity|].
      change ((chr "{" :: intercalate (js ",")
                 (map (fun m => quote (fst m) ++ chr ":" :: stringify (snd m)) ((k, v) :: ms))
               ++ js "}") ++ rest)
        with (chr "{" :: membersText ((k, v) :: ms) ++ rest).
      pose proof (IHm ((k, v) :: ms) rest ltac:(done) Hv Hsize) as Hparse.
      rewrite membersText_cons in *. cbn [app] in *.
      rewrite valueStep_object by done. by rewrite Hparse.
  - intros [|v l] rest Hne Hw Hsize; [done|].
    cbn [parseElements]. rewrite elementsText_cons, <-app_assoc.
    destruct Hw as [Hv Hl]. cbn in Hsize.
    destruct l as [|v' l'].
    + cbn [app]. apply elementsStep_last. apply IHv; [done|lia|].
      by vm_compute.
    + cbn [app]. rewrite (elementsStep_more _ _ v _ (elementsText (v' :: l') ++ rest)).
      * rewrite IHe; [done|done|done|]. cbn. cbn in Hsize. lia.
      * apply IHv; [done|lia|]. by vm_compute.
  - intros [|[k v] ms] rest Hne Hw Hsize; [done|].
    cbn [parseMembers]. rewrite membersText_cons. cbn [app].
    rewrite <-!app_assoc. cbn [app]. rewrite <-app_assoc.
    destruct Hw as [Hv Hl]. cbn in Hv. cbn in Hsize.
    destruct ms as [|m' ms'].
    + cbn [app]. apply membersStep_last. apply IHv; [done|lia|].
      by vm_compute.
    + cbn [app]. rewrite (membersStep_more _ _ k v _ (membersText (m' :: ms') ++ rest)).
      * rewrite IHm; [done|done|done|]. cbn. cbn in Hsize. lia.
      * apply IHv; [done|lia|]. by vm_compute.
Qed.

Lemma numberToString_length z : 1 ≤ length (numberToString (Num z)).
Proof. destruct (numberToString_head z) as (c & cs & -> & _). cbn. lia. Qed.

(** The fuel [JSON.parse] starts with is enough for what was written. *)
Lemma size_le_length : ∀ v, written v → size v ≤ length (stringify v).
Proof.
  fix IH 1. intros v Hv. destruct v as [|[]|z|t|s|l|ms]; cbn [size stringify].
  - cbn. lia.
  - cbn. lia.
  - cbn. lia.
  - apply numberToString_length.
  - destruct Hv.
  - unfold quote. cbn. lia.
  - change (chr "[" :: intercalate (js ",") (map stringify l) ++ js "]")
      with (chr "[" :: elementsText l).
    cbn [length]. apply le_n_S.
    cbn [written] in Hv. clear -IH Hv.
    induction l as [|x l IHl]; [cbn; lia|].
    destruct Hv as [Hx Hl]. specialize (IHl Hl). specialize (IH x Hx).
    rewrite elementsText_cons, length_app. cbn [foldr].
    destruct l; [change (length (js "]")) with 1; cbn [foldr]; lia|].
    cbn [length] in *. lia.
  - change (chr "{" :: intercalate (js ",")
              (map (fun m => quote (fst m) ++ chr ":" :: stringify (snd m)) ms) ++ js "}")
      with (chr "{" :: membersText ms).
    cbn [length]. apply le_n_S.
    cbn [written] in Hv. clear -IH Hv.
    induction ms as [|[k x] ms IHl]; [cbn; lia|].
    destruct Hv as [Hx Hl]. specialize (IHl Hl). specialize (IH x Hx).
    rewrite membersText_cons. cbn [length foldr snd]. rewrite length_app. cbn [length].
    rewrite length_app.
    destruct ms; [change (length (js "}")) with 1; cbn [foldr]; lia|].
    cbn [length] in *. lia.
Qed.

(** [JSON.parse(JSON.stringify(v))] is [v]. *)
Lemma JSON_parse_stringify v : written v → JSON_parse (stringify v) = Some v.
Proof.
  intros Hv. unfold JSON_parse.
  destruct (parse_stringify (2 * length (stringify v) + 2)) as (Hparse & _).
  rewrite <-(app_nil_r (stringify v)) at 2. rewrite Hparse; [done|done| |done].
  pose proof (size_le_length v Hv). lia.
Qed.

(** ** What [Uri.parse] takes for the query *)

Lemma span_spec p s : s = (span p s).1 ++ (span p s).2 ∧ Forall (fun c => p c = true) (span p s).1.
Proof.
  induction s as [|c s [IH1 IH2]]; cbn; [by split|].
  destruct (p c) eqn:E; [|by split].
  destruct (span p s) as [w rest]. cbn in *. split; [by f_equal|by constructor].
Qed.

Lemma span_app_stop p w c rest :
  Forall (fun c => p c = true) w → p c = false → span p (w ++ c :: rest) = (w, c :: rest).
Proof.
  induction 1 as [|d w Hd _ IH]; intros Hc; cbn.
  - by rewrite Hc.
  - by rewrite Hd, IH.
Qed.

Lemma span_all p w : Forall (fun c => p c = true) w → span p w = (w, []).
Proof.
  induction 1 as [|d w Hd _ IH]; cbn; [done|]. by rewrite Hd, IH.
Qed.

(** A character that is neither a question mark nor a hash. *)
Definition plain (c : char) : Prop := notIn "?#" c = true.

Lemma notIn_spec cs c : notIn cs c = true ↔ c ∉ js cs.
Proof. unfold notIn. by rewrite negb_true_iff, bool_decide_eq_false. Qed.

Lemma plain_spec c : plain c ↔ c ≠ chr "?" ∧ c ≠ chr "#".
Proof.
  unfold plain. rewrite notIn_spec. change (js "?#") with [chr "?"; chr "#"].
  rewrite !not_elem_of_cons. pose proof (not_elem_of_nil c). tauto.
Qed.

Lemma plain_of_scheme c : notIn ":/?#" c = true → plain c.
Proof.
  rewrite plain_spec, notIn_spec. change (js ":/?#") with [chr ":"; chr "/"; chr "?"; chr "#"].
  rewrite !not_elem_of_cons. tauto.
Qed.

Lemma plain_of_authority c : notIn "/?#" c = true → plain c.
Proof.
  rewrite plain_spec, notIn_spec. change (js "/?#") with [chr "/"; chr "?"; chr "#"].
  rewrite !not_elem_of_cons. tauto.
Qed.

(** Cutting a prefix without question mark and hash off a text leaves the
    first question mark where it was. *)
Lemma cut_plain_prefix x :
  ∀ pre payload r,
    Forall plain pre → Forall plain x →
    pre ++ chr "?" :: payload = x ++ r →
    ∃ pre', r = pre' ++ chr "?" :: payload ∧ Forall plain pre'.
Proof.
  induction x as [|c x IH]; intros pre payload r Hpre Hx Heq.
  - exists pre. by split.
  - apply Forall_cons in Hx as [Hc Hx].
    destruct pre as [|d pre].
    + injection Heq as <- _. apply plain_spec in Hc. by destruct Hc.
    + injection Heq as <- Heq. apply Forall_cons in Hpre as [_ Hpre].
      exact (IH pre payload r Hpre Hx Heq).
Qed.

Lemma schemePart_spec value :
  ∃ x, value = x ++ (schemePart value).2 ∧ Forall plain x.
Proof.
  unfold schemePart. destruct (span_spec (notIn ":/?#") value) as [Heq Hall].
  destruct (span (notIn ":/?#") value) as [[|c w] [|d r]]; cbn in *;
    try (exists []; by split).
  destruct (isChar ":" d) eqn:E; cbn; [|exists []; by split].
  apply N.eqb_eq in E. subst d.
  exists ((c :: w) ++ [chr ":"]). split.
  - by rewrite <-app_assoc.
  - apply Forall_app. split; [|by repeat constructor].
    eapply Forall_impl; [exact Hall|]. intros a Ha. by apply plain_of_scheme.
Qed.

Lemma authorityPart_spec s :
  ∃ x, s = x ++ (authorityPart s).2 ∧ Forall plain x.
Proof.
  unfold authorityPart. destruct s as [|c [|d r]]; try (exists []; by split).
  destruct (isChar "/" c && isChar "/" d) eqn:E; [|exists []; by split].
  apply andb_true_iff in E as [Ec Ed]. apply N.eqb_eq in Ec, Ed. subst c d.
  destruct (span_spec (notIn "/?#") r) as [Heq Hall].
  exists (chr "/" :: chr "/" :: (span (notIn "/?#") r).1). split.
  - cbn. by rewrite <-Heq.
  - do 2 (constructor; [done|]).
    eapply Forall_impl; [exact Hall|]. intros a Ha. by apply plain_of_authority.
Qed.

(** The query of a text is what follows its first question mark, up to
    the first hash, when no hash comes before that question mark. *)
Lemma uriComponents_query_span pre payload :
  Forall plain pre →
  query (uriComponents (pre ++ chr "?" :: payload)) = (span (notIn "#") payload).1.
Proof.
  intros Hpre. unfold uriComponents.
  destruct (schemePart_spec (pre ++ chr "?" :: payload)) as (x1 & Heq1 & Hx1).
  destruct (schemePart (pre ++ chr "?" :: payload)) as [sch r1]. cbn [snd] in Heq1.
  destruct (cut_plain_prefix x1 pre payload r1 Hpre Hx1 Heq1) as (pre1 & -> & Hpre1).
  destruct (authorityPart_spec (pre1 ++ chr "?" :: payload)) as (x2 & Heq2 & Hx2).
  destruct (authorityPart (pre1 ++ chr "?" :: payload)) as [auth r2]. cbn [snd] in Heq2.
  destruct (cut_plain_prefix x2 pre1 payload r2 Hpre1 Hx2 Heq2) as (pre2 & -> & Hpre2).
  rewrite (span_app_stop (notIn "?#") pre2 (chr "?") payload Hpre2 eq_refl).
  unfold queryPart. change (isChar "?" (chr "?")) with true. cbv iota.
  by destruct (span (notIn "#") payload).
Qed.

Lemma uriComponents_query pre payload :
  Forall plain pre →
  Forall (fun c => notIn "#" c = true) payload →
  query (uriComponents (pre ++ chr "?" :: payload)) = payload.
Proof.
  intros Hpre Hpayload. rewrite uriComponents_query_span by done.
  by rewrite (span_all _ _ Hpayload).
Qed.

(** ** The round trip *)

(** The characters that may stand before the query of an identifier, and in
    it, for it to be read back. *)
Definition headChar (c : char) : Prop := notIn "?#%" c = true.
Definition queryChar (c : char) : Prop := notIn "#%" c = true.

Lemma headChar_spec c : headChar c ↔ c ≠ chr "?" ∧ c ≠ chr "#" ∧ c ≠ chr "%".
Proof.
  unfold headChar. rewrite notIn_spec. change (js "?#%") with [chr "?"; chr "#"; chr "%"].
  rewrite !not_elem_of_cons. pose proof (not_elem_of_nil c). tauto.
Qed.

Lemma queryChar_spec c : queryChar c ↔ c ≠ chr "#" ∧ c ≠ chr "%".
Proof.
  unfold queryChar. rewrite notIn_spec. change (js "#%") with [chr "#"; chr "%"].
  rewrite !not_elem_of_cons. pose proof (not_elem_of_nil c). tauto.
Qed.

Lemma headChar_queryChar c : headChar c → queryChar c.
Proof. rewrite headChar_spec, queryChar_spec. tauto. Qed.

Lemma headChar_plain c : headChar c → plain c.
Proof. rewrite headChar_spec, plain_spec. tauto. Qed.

Lemma queryChar_noHash c : queryChar c → notIn "#" c = true.
Proof.
  rewrite queryChar_spec, notIn_spec. change (js "#") with [chr "#"].
  rewrite not_elem_of_cons. pose proof (not_elem_of_nil c). tauto.
Qed.

Lemma isDigit_headChar c : isDigit c = true → headChar c.
Proof.
  rewrite isDigit_bounds, headChar_spec.
  change (chr "?") with 63%N. change (chr "#") with 35%N. change (chr "%") with 37%N. lia.
Qed.

Lemma numberToString_headChar x : Forall headChar (numberToString x).
Proof.
  destruct x as [|z].
  - repeat constructor.
  - rewrite numberToString_Num. apply Forall_app. split.
    + destruct (z <? 0)%Z; repeat constructor.
    + eapply Forall_impl; [apply decimal_digits|]. apply isDigit_headChar.
Qed.

Lemma sliceLast_Forall (P : char → Prop) s k : Forall P s → Forall P (sliceLast s k).
Proof. intros H. destruct k; cbn; [done|]. by apply Forall_drop. Qed.

Lemma hexDigit_queryChar n : (n < 16)%N → queryChar (hexDigit n).
Proof.
  intros Hn. rewrite queryChar_spec. unfold hexDigit.
  change (chr "#") with 35%N. change (chr "%") with 37%N.
  destruct (N.ltb_spec n 10); lia.
Qed.

Lemma quoteChar_queryChar c : queryChar c → Forall queryChar (quoteChar c).
Proof.
  intros Hc. unfold quoteChar.
  do 7 (match goal with
        | |- Forall _ (if ?b then _ else _) => destruct b; [by repeat constructor|]
        end).
  destruct (N.ltb_spec c 32) as [Hlt|Hge]; [|by constructor].
  change (js "\u00") with [92%N; 117%N; 48%N; 48%N]. cbn [app].
  do 4 (constructor; [done|]).
  constructor; [|constructor; [|constructor]].
  - apply hexDigit_queryChar. apply N.Div0.div_lt_upper_bound. lia.
  - apply hexDigit_queryChar. apply N.mod_upper_bound. lia.
Qed.

Lemma quoteBody_queryChar s : Forall queryChar s → Forall queryChar (quoteBody s).
Proof.
  induction 1 as [|c s Hc _ IH]; cbn [quoteBody]; [constructor|].
  apply Forall_app. split; [by apply quoteChar_queryChar|done].
Qed.

Lemma quote_queryChar s : Forall queryChar s → Forall queryChar (quote s).
Proof.
  intros H. unfold quote. constructor; [done|].
  apply Forall_app. split; [by apply quoteBody_queryChar|by repeat constructor].
Qed.

Lemma numberToString_queryChar x : Forall queryChar (numberToString x).
Proof.
  eapply Forall_impl; [apply numberToString_headChar|]. apply headChar_queryChar.
Qed.

Lemma coordinate_nat n : coordinate (Some (JInt (Z.of_nat n))) = Returned n.
Proof.
  cbn [coordinate]. destruct (Z.ltb_spec (Z.of_nat n) 0); [lia|]. by rewrite Nat2Z.id.
Qed.

(** A range of the editor: its start is not after its end. *)
Definition ordered (r : Range) : Prop := isBefore (end_ r) (start r) = false.

Lemma newRange_ordered r :
  ordered r →
  newRange (line (start r)) (character (start r)) (line (end_ r)) (character (end_ r)) = r.
Proof.
  destruct r as [[sl sc] [el ec]]. unfold ordered, newRange, isBefore.
  cbn [line character start end_].
  destruct (Nat.ltb_spec el sl), (Nat.eqb_spec el sl), (Nat.ltb_spec ec sc),
           (Nat.ltb_spec sl el), (Nat.eqb_spec sl el), (Nat.ltb_spec sc ec);
    cbn [orb andb]; intros Hord; try discriminate; try lia; try reflexivity.
  all: assert (sc = ec) as -> by lia; subst; reflexivity.
Qed.

(** The object that was written comes back, its range rebuilt. *)
Lemma rebuildRange_toJSON fileName sha range (index : Z) :
  rebuildRange (IGitBlameUriData_toJSON
                  {| uriFileName := fileName; uriSha := sha; uriRange := range;
                     uriIndex := Num index |})
  = Returned {| uriFileName := fileName; uriSha := sha;
                uriRange := newRange (line (start range)) (character (start range))
                                     (line (end_ range)) (character (end_ range));
                uriIndex := Num index |}.
Proof.
  destruct range as [[sl sc] [el ec]].
  unfold rebuildRange, IGitBlameUriData_toJSON, Range_toJSON, Position_toJSON. cbn [uriFileName uriSha uriRange uriIndex number_toJSON start end_ line character].
  pose proof (coordinate_nat sl) as Hsl. pose proof (coordinate_nat sc) as Hsc.
  pose proof (coordinate_nat el) as Hel. pose proof (coordinate_nat ec) as Hec.
  revert Hsl Hsc Hel Hec.
  generalize (Z.of_nat sl) (Z.of_nat sc) (Z.of_nat el) (Z.of_nat ec).
  intros zsl zsc zel zec Hsl Hsc Hel Hec.
  repeat match goal with
  | |- context [member ?o ?k] =>
      let v := eval vm_compute in (member o k) in change (member o k) with v
  | |- context [element ?o ?k] =>
      let v := eval vm_compute in (element o k) in change (element o k) with v
  | |- _ => progress cbn [mbind outcome_bind get]
  end.
  rewrite Hsl. cbn [mbind outcome_bind]. rewrite Hsc. cbn [mbind outcome_bind].
  rewrite Hel. cbn [mbind outcome_bind]. rewrite Hec. cbn [mbind outcome_bind].
  reflexivity.
Qed.

Section RoundTrip.
Context `{Host}.

(** The text of an identifier before its question mark. *)
Definition blameUriHead (commit : IGitBlameCommit) (index commitCount : number) : jsstring :=
  gitBlameScheme ++ js ":" ++
  sliceLast (js "0000000" ++ numberToString index) (length (numberToString commitCount)) ++
  js ". " ++ Commit.author commit ++ js ", " ++ formatDate (Commit.date commit) ++ js " - " ++
  (dirname (Commit.fileName commit) ++ js "/" ++ Commit.sha commit ++ js ": " ++
   basename (Commit.fileName commit) (extname (Commit.fileName commit)) ++
   extname (Commit.fileName commit)).

(** The data [toBlameUri] writes in the query. *)
Definition blameUriData (repoPath : jsstring) (commit : IGitBlameCommit) (range : Range)
    (index : number) : IGitBlameUriData :=
  {| uriFileName := join repoPath (Commit.fileName commit);
     uriSha := Commit.sha commit;
     uriRange := range;
     uriIndex := index |}.

Lemma blameUriText_parts repoPath commit range index commitCount :
  blameUriText repoPath commit range index commitCount
  = blameUriHead commit index commitCount ++
    chr "?" :: stringify (IGitBlameUriData_toJSON (blameUriData repoPath commit range index)).
Proof.
  unfold blameUriText, blameUriHead, blameUriData.
  repeat rewrite <-app_assoc. reflexivity.
Qed.

(** The inputs whose identifier can be read back: the scheme, the author,
    the printed date and the parts of the displayed path hold no question
    mark, hash or percent sign, and the joined file path holds no hash or
    percent sign. *)
Definition encodable (repoPath : jsstring) (commit : IGitBlameCommit) : Prop :=
  Forall headChar gitBlameScheme ∧
  Forall headChar (Commit.author commit) ∧
  Forall headChar (formatDate (Commit.date commit)) ∧
  Forall headChar (dirname (Commit.fileName commit)) ∧
  Forall headChar (Commit.sha commit) ∧
  Forall headChar (basename (Commit.fileName commit) (extname (Commit.fileName commit))) ∧
  Forall headChar (extname (Commit.fileName commit)) ∧
  Forall queryChar (join repoPath (Commit.fileName commit)).

Lemma blameUriHead_headChar repoPath commit index commitCount :
  encodable repoPath commit → Forall headChar (blameUriHead commit index commitCount).
Proof.
  intros (Hscheme & Hauthor & Hdate & Hdir & Hsha & Hbase & Hext & _).
  unfold blameUriHead.
  repeat (apply Forall_app; split); try done; try (by repeat constructor).
  apply sliceLast_Forall. apply Forall_app. split; [by repeat constructor|].
  apply numberToString_headChar.
Qed.

Lemma blameUriData_queryChar repoPath commit range (index : Z) :
  encodable repoPath commit →
  Forall queryChar
    (stringify (IGitBlameUriData_toJSON (blameUriData repoPath commit range (Num index)))).
Proof.
  intros (_ & _ & _ & _ & Hsha & _ & _ & Hjoin).
  assert (Hsha' : Forall queryChar (Commit.sha commit)).
  { eapply Forall_impl; [exact Hsha|]. apply headChar_queryChar. }
  unfold IGitBlameUriData_toJSON, blameUriData, Range_toJSON, Position_toJSON.
  cbn [stringify map fst snd intercalate uriFileName uriSha uriRange uriIndex number_toJSON].
  repeat first
    [ apply Forall_cons; split; [done|]
    | apply Forall_app; split
    | apply quote_queryChar
    | apply quoteBody_queryChar
    | apply (numberToString_queryChar (Num _))
    | done
    | by repeat constructor ].
Qed.

Lemma percent_free head payload :
  Forall headChar head → Forall queryChar payload →
  chr "%" ∉ head ++ chr "?" :: payload.
Proof.
  intros Hhead Hpayload Hin.
  apply elem_of_app in Hin as [Hin|Hin].
  - rewrite Forall_forall in Hhead. apply Hhead in Hin.
    apply headChar_spec in Hin. tauto.
  - apply elem_of_cons in Hin as [Hin|Hin]; [discriminate|].
    rewrite Forall_forall in Hpayload. apply Hpayload in Hin.
    apply queryChar_spec in Hin. tauto.
Qed.

(** What [toBlameUri] gives for encodable inputs: a [Uri] whose query is
    the JSON text of the data. *)
Lemma toBlameUri_query repoPath commit range (index : Z) commitCount :
  encodable repoPath commit →
  ∃ uri,
    toBlameUri repoPath commit range (Num index) commitCount = Returned uri ∧
    query uri
    = stringify (IGitBlameUriData_toJSON (blameUriData repoPath commit range (Num index))).
Proof.
  intros Henc.
  pose proof (blameUriHead_headChar repoPath commit (Num index) commitCount Henc) as Hhead.
  pose proof (blameUriData_queryChar repoPath commit range index Henc) as Hpayload.
  unfold toBlameUri, Uri_parse. rewrite blameUriText_parts.
  rewrite bool_decide_eq_false_2 by by apply percent_free.
  eexists. split; [reflexivity|].
  apply uriComponents_query.
  - eapply Forall_impl; [exact Hhead|]. apply headChar_plain.
  - eapply Forall_impl; [exact Hpayload|]. apply queryChar_noHash.
Qed.
End RoundTrip.


(** A range of the editor: its start is not after its end, and its
    coordinates are held exactly. *)
Definition validRange (r : Range) : Prop :=
  ordered r ∧
  safeInteger (Z.of_nat (line (start r))) ∧ safeInteger (Z.of_nat (character (start r))) ∧
  safeInteger (Z.of_nat (line (end_ r))) ∧ safeInteger (Z.of_nat (character (end_ r))).

(** A text that starts with a comma is not JSON. *)
Lemma JSON_parse_comma t : JSON_parse (chr "," :: t) = None.
Proof.
  unfold JSON_parse. replace (2 * length (chr "," :: t) + 2) with (S (2 * length t + 3))
    by (cbn [length]; lia).
  cbn [parseValue]. unfold valueStep.
  change (skipSpace (chr "," :: t)) with (chr "," :: t). cbv iota.
  change (js "true") with (116%N :: js "rue").
  change (js "false") with (102%N :: js "alse").
  change (js "null") with (110%N :: js "ull").
  rewrite !startsWith_other by done. reflexivity.
Qed.

(** * The claims *)

(** ** Sample texts and states *)

Definition nl : jsstring := [10%N].

(** Four lines of attribution text; the third is not an attribution line,
    the first and the fourth bear the same hash. *)
Definition sample : jsstring :=
  js "8ad3b1c9 src/extension.ts  1 (Eric Amodio 2016-08-30 02:11:13 -0400  1) 'use strict';" ++ nl ++
  js "^1a2b3c4 src/git.ts       12 (Ann Lee     2016-08-29 10:00:00 +0100  2) import x;" ++ nl ++
  js "not a blame line" ++ nl ++
  js "8ad3b1c9 src/extension.ts  3 (Eric Amodio 2016-08-30 02:11:13 -0400  4) }".

Definition sampleFile : jsstring := js "/repo/src/extension.ts".
Definition otherFile : jsstring := js "/repo/src/git.ts".

Definition lineRange (from to : nat) : Range :=
  {| start := {| line := from; character := 0 |};
     end_ := {| line := to; character := 0 |} |}.

(** The sample file was asked for and its text has arrived. *)
Definition sampleEvents : list event :=
  [CallBlameFile sampleFile; GitBlameSettled 0 (inl sample)].

Definition sampleState : state := run initial sampleEvents.

(** ** C1 *)



(** ** C2 *)

(** C2. A second call of [blameFile] for a file, after any events that do
    not invalidate the file, returns the promise the first call returned
    and leaves the state as it is: the collaborator is not called again. *)
Theorem blameFile_memoized (s : state) (f : jsstring) (es : list event) :
  Forall (fun e => invalidated e ≠ Some f) es →
  blameFile f (run (blameFile f s).2 es) = ((blameFile f s).1, run (blameFile f s).2 es) ∧
  gitBlameCalls (blameFile f (run (blameFile f s).2 es)).2
    = gitBlameCalls (run (blameFile f s).2 es).
Proof.
  intros Hes.
  assert (H : blameFile f (run (blameFile f s).2 es)
              = ((blameFile f s).1, run (blameFile f s).2 es)).
  { apply blameFile_hit, run_files_keep; [apply blameFile_cached|done]. }
  by rewrite H.
Qed.

Lemma blameFile_memoized_witness :
  blameFile sampleFile (run (blameFile sampleFile initial).2
                            [GitBlameSettled 0 (inl sample); CallBlameFile otherFile;
                             DidCloseTextDocument {| fileName := otherFile |}])
  = ((blameFile sampleFile initial).1,
     run (blameFile sampleFile initial).2
         [GitBlameSettled 0 (inl sample); CallBlameFile otherFile;
          DidCloseTextDocument {| fileName := otherFile |}]) ∧
  gitBlameCalls (blameFile sampleFile (run (blameFile sampleFile initial).2
                            [GitBlameSettled 0 (inl sample); CallBlameFile otherFile;
                             DidCloseTextDocument {| fileName := otherFile |}])).2
  = gitBlameCalls (run (blameFile sampleFile initial).2
                            [GitBlameSettled 0 (inl sample); CallBlameFile otherFile;
                             DidCloseTextDocument {| fileName := otherFile |}]).
Proof.
  apply (blameFile_memoized initial sampleFile).
  repeat constructor; cbn; discriminate.
Defined.

(** ** C3 *)

(** C3. A document-closed or document-changed notification for a file runs
    [_removeFile]: the entry of the file is gone whatever it was, nothing
    changes when there was none, the entries of the other files stay, and
    the next call of [blameFile] for the file, whatever else happens in
    between, calls the collaborator again and returns a new promise. *)
Theorem invalidation_removes_the_entry (s : state) (f : jsstring) (es : list event) :
  Forall (fun e => e ≠ CallBlameFile f) es →
  onDidCloseTextDocument {| fileName := f |} s = _removeFile f s ∧
  onDidChangeTextDocument {| document := {| fileName := f |} |} s = _removeFile f s ∧
  _files (_removeFile f s) !! f = None ∧
  (_files s !! f = None → _removeFile f s = s) ∧
  (∀ f', f' ≠ f → _files (_removeFile f s) !! f' = _files s !! f') ∧
  gitBlameCalls (blameFile f (run (_removeFile f s) es)).2
    = gitBlameCalls (run (_removeFile f s) es) ++ [f] ∧
  (blameFile f (run (_removeFile f s) es)).1 = length (store (run (_removeFile f s) es)).
Proof.
  intros Hes.
  assert (Hout : _files (run (_removeFile f s) es) !! f = None).
  { apply run_files_out; [apply lookup_delete_eq|done]. }
  repeat split; try done.
  - apply lookup_delete_eq.
  - intros Hnone. destruct s as [files st calls li]. unfold _removeFile. cbn in *.
    by rewrite delete_id.
  - intros f' Hne. cbn. by rewrite lookup_delete_ne.
  - by rewrite blameFile_miss.
  - by rewrite blameFile_miss.
Qed.

Lemma invalidation_removes_the_entry_witness :
  onDidCloseTextDocument {| fileName := sampleFile |} sampleState = _removeFile sampleFile sampleState ∧
  onDidChangeTextDocument {| document := {| fileName := sampleFile |} |} sampleState
    = _removeFile sampleFile sampleState ∧
  _files (_removeFile sampleFile sampleState) !! sampleFile = None ∧
  (_files sampleState !! sampleFile = None → _removeFile sampleFile sampleState = sampleState) ∧
  (∀ f', f' ≠ sampleFile →
         _files (_removeFile sampleFile sampleState) !! f' = _files sampleState !! f') ∧
  gitBlameCalls (blameFile sampleFile
                   (run (_removeFile sampleFile sampleState) [CallBlameFile otherFile])).2
    = gitBlameCalls (run (_removeFile sampleFile sampleState) [CallBlameFile otherFile])
      ++ [sampleFile] ∧
  (blameFile sampleFile (run (_removeFile sampleFile sampleState) [CallBlameFile otherFile])).1
    = length (store (run (_removeFile sampleFile sampleState) [CallBlameFile otherFile])).
Proof.
  apply (invalidation_removes_the_entry sampleState sampleFile [CallBlameFile otherFile]).
  repeat constructor. discriminate.
Defined.

(** ** C4 *)

(** C4. For a file whose cached promise is fulfilled with a blame result
    that has lines, [getBlameForRange] does not touch the state and its
    promise is fulfilled with: the line records at the positions from the
    start line to the end line of the range, both included, in order; and a
    commit map whose keys are the hashes of these lines in order of first
    occurrence, each without repetition, with the values the full result has
    for them. *)
Theorem getBlameForRange_slices (s : state) (f : jsstring) (p : nat) (b : IGitBlame)
    (range : Range) :
  _files s !! f = Some p →
  store s !! p = Some (Fulfilled b) →
  lines b ≠ [] →
  ∃ r,
    (getBlameForRange f range s).2 = s ∧
    awaitDerived s (getBlameForRange f range s).1 = Fulfilled r ∧
    (∀ i, lines r !! i =
          if decide (line (start range) + i ≤ line (end_ range))
          then lines b !! (line (start range) + i) else None) ∧
    Map_keys (commits r) = firstOccurrences (Line.sha <$> lines r) ∧
    NoDup (Map_keys (commits r)) ∧
    (∀ h, h ∈ Map_keys (commits r) ↔ h ∈ Line.sha <$> lines r) ∧
    (∀ h, h ∈ Map_keys (commits r) → Map_get (commits r) h = Map_get (commits b) h).
Proof.
  intros Hf Hp Hne. exists (getBlameForRange_then range b).
  destruct (getBlameForRange_then_spec range b Hne) as (Hlines & Hkeys & Hlookup).
  unfold getBlameForRange. rewrite (blameFile_hit f p s Hf). cbn [fst snd].
  cbn zeta in Hlines, Hkeys, Hlookup.
  split_and!.
  - done.
  - unfold awaitDerived, await. cbn. by rewrite Hp.
  - intros i. rewrite Hlines. apply rangeLines_lookup.
  - exact Hkeys.
  - rewrite Hkeys. apply NoDup_firstOccurrences.
  - intros h. rewrite Hkeys. apply elem_of_firstOccurrences.
  - intros h Hin. unfold Map_get at 1. rewrite Hlookup.
    rewrite Hkeys, elem_of_firstOccurrences in Hin. by rewrite decide_True.
Qed.

Lemma getBlameForRange_slices_witness :
  ∃ r,
    (getBlameForRange sampleFile (lineRange 1 2) sampleState).2 = sampleState ∧
    awaitDerived sampleState (getBlameForRange sampleFile (lineRange 1 2) sampleState).1
      = Fulfilled r ∧
    (∀ i, lines r !! i =
          if decide (line (start (lineRange 1 2)) + i ≤ line (end_ (lineRange 1 2)))
          then lines (default emptyBlame (fst <$> parseBlame sample 0))
                 !! (line (start (lineRange 1 2)) + i)
          else None) ∧
    Map_keys (commits r) = firstOccurrences (Line.sha <$> lines r) ∧
    NoDup (Map_keys (commits r)) ∧
    (∀ h, h ∈ Map_keys (commits r) ↔ h ∈ Line.sha <$> lines r) ∧
    (∀ h, h ∈ Map_keys (commits r) →
          Map_get (commits r) h
          = Map_get (commits (default emptyBlame (fst <$> parseBlame sample 0))) h).
Proof.
  apply (getBlameForRange_slices sampleState sampleFile 0
           (default emptyBlame (fst <$> parseBlame sample 0)) (lineRange 1 2)).
  - vm_compute. reflexivity.
  - vm_compute. reflexivity.
  - vm_compute. discriminate.
Defined.

(** ** C5 *)

(** C5. For a file whose cached promise is fulfilled, [getBlameForShaRange]
    is fulfilled with the line records at the positions of the range, both
    ends included, that bear the given hash, in order, and with what the
    commit map of the full result holds for the hash: [undefined] when the
    hash is not a key, and no failure. *)
Theorem getBlameForShaRange_filters (s : state) (f sha : jsstring) (p : nat)
    (b : IGitBlame) (range : Range) :
  _files s !! f = Some p →
  store s !! p = Some (Fulfilled b) →
  ∃ r ranged,
    (getBlameForShaRange f sha range s).2 = s ∧
    awaitDerived s (getBlameForShaRange f sha range s).1 = Fulfilled r ∧
    (∀ i, ranged !! i =
          if decide (line (start range) + i ≤ line (end_ range))
          then lines b !! (line (start range) + i) else None) ∧
    shaLines r = filter (fun l => Line.sha l = sha) ranged ∧
    (∀ l, l ∈ shaLines r ↔ l ∈ ranged ∧ Line.sha l = sha) ∧
    commit r = Map_get (commits b) sha ∧
    (sha ∉ Map_keys (commits b) → commit r = None).
Proof.
  intros Hf Hp.
  exists (getBlameForShaRange_then sha range b), (rangeLines b range).
  unfold getBlameForShaRange. rewrite (blameFile_hit f p s Hf). cbn [fst snd].
  split_and!.
  - done.
  - unfold awaitDerived, await. cbn. by rewrite Hp.
  - apply rangeLines_lookup.
  - done.
  - intros l. cbn. rewrite list_elem_of_filter. tauto.
  - done.
  - intros Hnin. cbn. unfold Map_get.
    apply Map_lookup_None in Hnin. by rewrite Hnin.
Qed.

Lemma getBlameForShaRange_filters_witness :
  ∃ r ranged,
    (getBlameForShaRange sampleFile (js "8ad3b1c9") (lineRange 0 9) sampleState).2 = sampleState ∧
    awaitDerived sampleState
      (getBlameForShaRange sampleFile (js "8ad3b1c9") (lineRange 0 9) sampleState).1
      = Fulfilled r ∧
    (∀ i, ranged !! i =
          if decide (line (start (lineRange 0 9)) + i ≤ line (end_ (lineRange 0 9)))
          then lines (default emptyBlame (fst <$> parseBlame sample 0))
                 !! (line (start (lineRange 0 9)) + i)
          else None) ∧
    shaLines r = filter (fun l => Line.sha l = js "8ad3b1c9") ranged ∧
    (∀ l, l ∈ shaLines r ↔ l ∈ ranged ∧ Line.sha l = js "8ad3b1c9") ∧
    commit r = Map_get (commits (default emptyBlame (fst <$> parseBlame sample 0))) (js "8ad3b1c9") ∧
    (js "8ad3b1c9" ∉ Map_keys (commits (default emptyBlame (fst <$> parseBlame sample 0))) →
     commit r = None).
Proof.
  apply (getBlameForShaRange_filters sampleState sampleFile (js "8ad3b1c9") 0
           (default emptyBlame (fst <$> parseBlame sample 0)) (lineRange 0 9)).
  - vm_compute. reflexivity.
  - vm_compute. reflexivity.
Defined.

(** ** C6 *)

(** C6. When the retrieval of the collaborator fails for a cached, pending
    file, the cached promise is rejected with that failure and stays so:
    after any events that do not invalidate the file, an awaiter of the
    promise, and of the promises [getBlameForRange] and [getBlameForShaRange]
    derive from it, sees the same failure, and [blameFile] still returns
    the rejected promise without calling the collaborator.  Only after the
    file is invalidated does [blameFile] call the collaborator again, and
    return a new, pending promise. *)
Theorem retrieval_failure_stays_cached (s : state) (f sha : jsstring) (p : nat)
    (reason : error) (es : list event) (range : Range) :
  _files s !! f = Some p →
  store s !! p = Some Pending →
  Forall (fun e => invalidated e ≠ Some f) es →
  await (settle p (inr reason) s) p = Rejected reason ∧
  await (run (settle p (inr reason) s) es) p = Rejected reason ∧
  blameFile f (run (settle p (inr reason) s) es) = (p, run (settle p (inr reason) s) es) ∧
  awaitDerived (run (settle p (inr reason) s) es)
    (getBlameForRange f range (run (settle p (inr reason) s) es)).1 = Rejected reason ∧
  awaitDerived (run (settle p (inr reason) s) es)
    (getBlameForShaRange f sha range (run (settle p (inr reason) s) es)).1 = Rejected reason ∧
  (blameFile f (_removeFile f (run (settle p (inr reason) s) es))).1 ≠ p ∧
  await (blameFile f (_removeFile f (run (settle p (inr reason) s) es))).2
        (blameFile f (_removeFile f (run (settle p (inr reason) s) es))).1 = Pending ∧
  gitBlameCalls (blameFile f (_removeFile f (run (settle p (inr reason) s) es))).2
    = gitBlameCalls (run (settle p (inr reason) s) es) ++ [f].
Proof.
  intros Hf Hp Hes.
  set (s1 := settle p (inr reason) s).
  assert (H1 : store s1 !! p = Some (Rejected reason)).
  { unfold s1, settle. rewrite Hp. cbn.
    apply list_lookup_insert_eq. by eapply lookup_lt_Some. }
  set (s2 := run s1 es).
  assert (H2 : store s2 !! p = Some (Rejected reason)) by by apply run_settled.
  assert (Hf2 : _files s2 !! f = Some p).
  { apply run_files_keep; [|done]. unfold s1. by rewrite settle_files. }
  assert (Hmiss : _files (_removeFile f s2) !! f = None) by apply lookup_delete_eq.
  split_and!.
  - unfold await. by rewrite H1.
  - unfold await. by rewrite H2.
  - by apply blameFile_hit.
  - unfold getBlameForRange. rewrite (blameFile_hit f p s2 Hf2).
    unfold awaitDerived, await. cbn. by rewrite H2.
  - unfold getBlameForShaRange. rewrite (blameFile_hit f p s2 Hf2).
    unfold awaitDerived, await. cbn. by rewrite H2.
  - rewrite blameFile_miss by done. cbn. apply lookup_lt_Some in H2. lia.
  - rewrite blameFile_miss by done. unfold await. cbn.
    rewrite lookup_app_r by lia. by rewrite Nat.sub_diag.
  - by rewrite blameFile_miss.
Qed.

Lemma retrieval_failure_stays_cached_witness :
  await (settle 0 (inr (js "fatal: no such path")) (blameFile sampleFile initial).2) 0
    = Rejected (js "fatal: no such path") ∧
  blameFile sampleFile
    (run (settle 0 (inr (js "fatal: no such path")) (blameFile sampleFile initial).2)
         [CallBlameFile otherFile; GitBlameSettled 0 (inl sample)])
  = (0, run (settle 0 (inr (js "fatal: no such path")) (blameFile sampleFile initial).2)
            [CallBlameFile otherFile; GitBlameSettled 0 (inl sample)]).
Proof.
  pose proof (retrieval_failure_stays_cached (blameFile sampleFile initial).2 sampleFile
                (js "8ad3b1c9") 0 (js "fatal: no such path")
                [CallBlameFile otherFile; GitBlameSettled 0 (inl sample)] (lineRange 0 3)) as H.
  destruct H as (H1 & _ & H3 & _).
  - reflexivity.
  - reflexivity.
  - repeat constructor; cbn; discriminate.
  - split; [exact H1|exact H3].
Defined.

(** ** C7 *)

Lemma firstWithHash_Some h ms m0 :
  firstWithHash h ms = Some m0 → m0 ∈ ms ∧ hashOf m0 = h.
Proof.
  unfold firstWithHash. intros H.
  destruct (list_find _ ms) as [[i m]|] eqn:E; [|discriminate].
  injection H as ->. apply list_find_Some in E as (Hi & Hh & _).
  split; [by eapply list_elem_of_lookup_2|done].
Qed.

Lemma firstWithHash_is_Some ms m : m ∈ ms → is_Some (firstWithHash (hashOf m) ms).
Proof.
  intros Hm. unfold firstWithHash.
  destruct (list_find (fun m0 => hashOf m0 = hashOf m) ms) as [[i m0]|] eqn:E; [by eexists|].
  apply list_find_None in E. rewrite Forall_forall in E. by destruct (E m Hm).
Qed.


(** Two attribution lines of one commit whose lines come from two files,
    as the attribution of moved lines prints them. *)
Definition sameHashTwice : jsstring :=
  js "8ad3b1c9 src/a.ts 1 (Ann Lee 2016-08-30 02:11:13 -0400 1) x" ++ nl ++
  js "8ad3b1c9 src/b.ts 7 (Ann Lee 2016-08-30 02:11:13 -0400 2) y".


(** ** C8 *)

Lemma parsed_no_lines b : parsed b → lines b = [] → b = emptyBlame.
Proof.
  intros (data & ms & _ & ->) H. rewrite lines_addMatches in H. cbn in H.
  apply fmap_nil_inv in H. by subst ms.
Qed.

Lemma getBlameForRange_then_no_lines range b :
  lines b = [] → getBlameForRange_then range b = b.
Proof. intros H. unfold getBlameForRange_then. by rewrite H. Qed.


(** A file in which no line is an attribution line. *)
Definition noBlameLines : jsstring :=
  js "fatal: not a git repository" ++ nl ++ js "(or any of the parent directories)".


(** ** C9 *)

Definition sampleCommit : IGitBlameCommit :=
  {| Commit.sha := js "8ad3b1c9";
     Commit.fileName := js "src/extension.ts";
     Commit.author := js "Eric Amodio";
     Commit.date := newDate (js "2016-08-30 02:11:13 -0400") |}.

(** A commit whose author's name ends with a question mark. *)
Definition whoCommit : IGitBlameCommit :=
  {| Commit.sha := js "8ad3b1c9";
     Commit.fileName := js "src/extension.ts";
     Commit.author := js "Who?";
     Commit.date := newDate (js "2016-08-30 02:11:13 -0400") |}.

(** A commit of a file in a directory whose name holds a hash. *)
Definition sharpCommit : IGitBlameCommit :=
  {| Commit.sha := js "8ad3b1c9";
     Commit.fileName := js "C#/main.cs";
     Commit.author := js "Ann Lee";
     Commit.date := newDate (js "2016-08-29 10:00:00 +0100") |}.




(** ** C10 *)

Lemma addMatches_lines_have_commits ms b l :
  b = addMatches emptyBlame ms → l ∈ lines b →
  Line.sha l ∈ Map_keys (commits b) ∧ is_Some (Map_get (commits b) (Line.sha l)).
Proof.
  intros -> Hl. rewrite lines_addMatches in Hl. cbn in Hl.
  apply list_elem_of_fmap in Hl as (m & -> & Hm). cbn.
  assert (Hh : hashOf m ∈ hashOf <$> ms) by (apply list_elem_of_fmap; eauto).
  split.
  - rewrite keys_addMatches. cbn. rewrite filter_all by (intros k _; apply not_elem_of_nil).
    by apply elem_of_firstOccurrences.
  - unfold Map_get. rewrite lookup_addMatches. cbn.
    unfold firstWithHash.
    destruct (list_find (fun m0 => hashOf m0 = group m 1) ms) as [[i m0]|] eqn:E; [by eexists|].
    apply list_find_None in E. rewrite Forall_forall in E. by destruct (E m Hm).
Qed.

(** C10. Every line record of the blame result the callback of [blameFile]
    builds, from any text, bears a hash that is a key of the commit map of
    that result, with a commit record under it; and every line record of the
    result the callback of [getBlameForRange] builds, from any blame result
    and range, bears a hash that is a key of the commit map of that result,
    with a commit record under it when the result it was built from is one
    of [blameFile]. *)
Theorem lines_reference_commits_of_their_result :
  (∀ data lastIndex,
     ∃ b lastIndex',
       parseBlame data lastIndex = Some (b, lastIndex') ∧
       Forall (fun l => Map_has (commits b) (Line.sha l) = true ∧
                        is_Some (Map_get (commits b) (Line.sha l))) (lines b)) ∧
  (∀ b range,
     Forall (fun l => Map_has (commits (getBlameForRange_then range b)) (Line.sha l) = true)
            (lines (getBlameForRange_then range b))) ∧
  (∀ data lastIndex range,
     ∃ b lastIndex',
       parseBlame data lastIndex = Some (b, lastIndex') ∧
       Forall (fun l => is_Some (Map_get (commits (getBlameForRange_then range b)) (Line.sha l)))
              (lines (getBlameForRange_then range b))).
Proof.
  assert (Hrange : ∀ b range l,
    l ∈ lines (getBlameForRange_then range b) →
    Map_has (commits (getBlameForRange_then range b)) (Line.sha l) = true ∧
    (is_Some (Map_get (commits b) (Line.sha l)) →
     is_Some (Map_get (commits (getBlameForRange_then range b)) (Line.sha l)))).
  { intros b range l Hl.
    destruct (decide (lines b = [])) as [Hnil|Hne].
    - rewrite getBlameForRange_then_no_lines, Hnil in Hl by done.
      by apply elem_of_nil in Hl.
    - destruct (getBlameForRange_then_spec range b Hne) as (Hlines & Hkeys & Hlookup).
      cbn zeta in Hlines, Hkeys, Hlookup.
      assert (Hin : Line.sha l ∈ Line.sha <$> lines (getBlameForRange_then range b)).
      { apply list_elem_of_fmap. eauto. }
      split.
      + apply Map_has_true. rewrite Hkeys. by apply elem_of_firstOccurrences.
      + intros Hsome. unfold Map_get at 1. rewrite Hlookup. by rewrite decide_True. }
  split_and!.
  - intros data lastIndex.
    destruct (parseBlame_matches data lastIndex) as (ms & _ & Hparse).
    eexists _, _. split; [exact Hparse|].
    apply Forall_forall. intros l Hl.
    destruct (addMatches_lines_have_commits ms _ l eq_refl Hl) as [Hk Hv].
    split; [by apply Map_has_true|done].
  - intros b range. apply Forall_forall. intros l Hl. by apply Hrange.
  - intros data lastIndex range.
    destruct (parseBlame_matches data lastIndex) as (ms & _ & Hparse).
    eexists _, _. split; [exact Hparse|].
    apply Forall_forall. intros l Hl.
    destruct (Hrange _ range l Hl) as [_ Himp]. apply Himp.
    destruct (decide (lines (addMatches emptyBlame ms) = [])) as [Hnil|Hne].
    + rewrite getBlameForRange_then_no_lines, Hnil in Hl by done.
      by apply elem_of_nil in Hl.
    + destruct (getBlameForRange_then_spec range _ Hne) as (Hlines & _).
      cbn zeta in Hlines. rewrite Hlines in Hl. apply rangeLines_sublist in Hl.
      by destruct (addMatches_lines_have_commits ms _ l eq_refl Hl).
Qed.

(** * Further properties *)

(** ** The cache and the trace of the collaborator *)

(** Every cached promise is the promise of a call of the collaborator for
    the file it is cached under. *)
Definition ownCalls (s : state) : Prop :=
  ∀ f p, _files s !! f = Some p → gitBlameCalls s !! p = Some f.

Lemma ownCalls_step s e : invariant s → ownCalls s → ownCalls (step s e).
Proof.
  intros Hinv Hown. destruct e as [f|d|c|q r]; cbn.
  - unfold blameFile. destruct (_files s !! f) eqn:E; cbn; [done|].
    intros f' p. cbn. destruct (decide (f = f')) as [->|Hne].
    + rewrite lookup_insert_eq. intros [= <-].
      rewrite <-(inv_calls _ Hinv). rewrite lookup_app_r by lia.
      by rewrite Nat.sub_diag.
    + rewrite lookup_insert_ne by done. intros H.
      apply lookup_app_l_Some. by apply Hown.
  - intros f p H. cbn in H. apply lookup_delete_Some in H as [_ H]. by apply Hown.
  - intros f p H. cbn in H. apply lookup_delete_Some in H as [_ H]. by apply Hown.
  - intros f p. rewrite settle_files, settle_calls. apply Hown.
Qed.

Lemma ownCalls_run es : ∀ s, invariant s → ownCalls s → ownCalls (run s es).
Proof.
  induction es as [|e es IH]; intros s Hinv Hown; cbn; [done|].
  apply IH; [by apply invariant_step|by apply ownCalls_step].
Qed.

Lemma reachable_ownCalls s : reachable s → ownCalls s.
Proof.
  intros [es ->]. apply ownCalls_run; [apply invariant_initial|].
  intros f p H. cbn in H. by rewrite lookup_empty in H.
Qed.

(** X1. In every state the provider can be in, the promise cached for a
    file is the promise of a call of the collaborator for that very file: it
    is allocated, the call at its place in the trace of the collaborator is
    a call for the file, no other file is cached under it, and the trace
    has one call per promise. *)
Theorem cached_promise_is_of_its_file (s : state) (f : jsstring) (p : nat) :
  reachable s →
  _files s !! f = Some p →
  gitBlameCalls s !! p = Some f ∧
  is_Some (store s !! p) ∧
  length (gitBlameCalls s) = length (store s) ∧
  ∀ f', _files s !! f' = Some p → f' = f.
Proof.
  intros Hreach Hf.
  pose proof (reachable_invariant s Hreach) as Hinv.
  pose proof (reachable_ownCalls s Hreach) as Hown.
  split_and!.
  - by apply Hown.
  - apply lookup_lt_is_Some. by eapply inv_files.
  - by apply inv_calls.
  - intros f' Hf'. apply Hown in Hf, Hf'. congruence.
Qed.

Lemma cached_promise_is_of_its_file_witness :
  gitBlameCalls (run initial [CallBlameFile sampleFile; CallBlameFile otherFile]) !! 1
    = Some otherFile ∧
  is_Some (store (run initial [CallBlameFile sampleFile; CallBlameFile otherFile]) !! 1) ∧
  length (gitBlameCalls (run initial [CallBlameFile sampleFile; CallBlameFile otherFile]))
    = length (store (run initial [CallBlameFile sampleFile; CallBlameFile otherFile])) ∧
  ∀ f', _files (run initial [CallBlameFile sampleFile; CallBlameFile otherFile]) !! f' = Some 1 →
        f' = otherFile.
Proof.
  apply (cached_promise_is_of_its_file
           (run initial [CallBlameFile sampleFile; CallBlameFile otherFile]) otherFile 1).
  - by eexists.
  - vm_compute. reflexivity.
Defined.

(** The calls of the collaborator for a file, and the notifications that
    invalidate it. *)
Definition callsFor (f : jsstring) (s : state) : nat :=
  length (filter (fun g => g = f) (gitBlameCalls s)).

Definition invalidationsOf (f : jsstring) (es : list event) : nat :=
  length (filter (fun e => invalidated e = Some f) es).

Lemma run_snoc s es e : run s (es ++ [e]) = step (run s es) e.
Proof. unfold run. by rewrite foldl_app. Qed.

Lemma callsFor_step_other s e f :
  (∀ g, e = CallBlameFile g → _files s !! g = None → g ≠ f) →
  callsFor f (step s e) = callsFor f s.
Proof.
  intros He. unfold callsFor. destruct e as [g|d|c|q r]; cbn; try done.
  - unfold blameFile. destruct (_files s !! g) eqn:E; cbn; [done|].
    rewrite filter_app, length_app. rewrite filter_cons_False by by apply He.
    cbn. lia.
  - by rewrite settle_calls.
Qed.

Lemma calls_bounded es f :
  match _files (run initial es) !! f with
  | Some _ => callsFor f (run initial es) ≤ S (invalidationsOf f es)
  | None => callsFor f (run initial es) ≤ invalidationsOf f es
  end.
Proof.
  induction es as [|e es IH] using rev_ind.
  - cbn. rewrite lookup_empty. cbn. lia.
  - rewrite run_snoc. set (s := run initial es) in *.
    unfold invalidationsOf in *. rewrite filter_app, length_app.
    destruct e as [g|d|c|q r].
    + rewrite filter_cons_False, filter_nil by (cbn; congruence).
      cbn [length]. rewrite Nat.add_0_r.
      destruct (decide (g = f)) as [->|Hne].
      * cbn [step]. rewrite blameFile_cached.
        unfold blameFile, callsFor in *. destruct (_files s !! f) eqn:E; cbn; [done|].
        rewrite filter_app, length_app. rewrite filter_cons_True by done. cbn. lia.
      * rewrite callsFor_step_other by (intros ? [= <-] _; done).
        cbn [step]. unfold blameFile. destruct (_files s !! g) eqn:E; cbn; [done|].
        by rewrite lookup_insert_ne.
    + rewrite callsFor_step_other by (intros; discriminate).
      cbn [step]. unfold onDidCloseTextDocument, _removeFile. cbn [_files].
      destruct (decide (fileName d = f)) as [Heq|Hne].
      * rewrite filter_cons_True by (cbn; congruence). rewrite Heq, lookup_delete_eq.
        cbn. destruct (_files s !! f); lia.
      * rewrite filter_cons_False, filter_nil by (cbn; congruence).
        rewrite lookup_delete_ne by done. cbn [length]. by rewrite Nat.add_0_r.
    + rewrite callsFor_step_other by (intros; discriminate).
      cbn [step]. unfold onDidChangeTextDocument, _removeFile. cbn [_files].
      destruct (decide (fileName (document c) = f)) as [Heq|Hne].
      * rewrite filter_cons_True by (cbn; congruence). rewrite Heq, lookup_delete_eq.
        cbn. destruct (_files s !! f); lia.
      * rewrite filter_cons_False, filter_nil by (cbn; congruence).
        rewrite lookup_delete_ne by done. cbn [length]. by rewrite Nat.add_0_r.
    + rewrite callsFor_step_other by (intros; discriminate).
      rewrite filter_cons_False, filter_nil by (cbn; congruence).
      cbn [step length]. rewrite settle_files, Nat.add_0_r. exact IH.
Qed.


Lemma reachable_removeFile f s : reachable s → reachable (_removeFile f s).
Proof. intros H. apply (reachable_run s [DidCloseTextDocument {| fileName := f |}] H). Qed.

Lemma settle_pending_data s p data :
  reachable s → store s !! p = Some Pending →
  ∃ b, parseBlame data 0 = Some (b, 0) ∧ await (settle p (inl data) s) p = Fulfilled b.
Proof.
  intros Hreach Hp.
  destruct (parseBlame_matches data 0) as (ms & _ & Hparse).
  exists (addMatches emptyBlame ms). split; [done|].
  unfold await, settle. rewrite Hp, (inv_lastIndex _ (reachable_invariant _ Hreach)), Hparse.
  cbn. rewrite list_lookup_insert_eq; [done|]. by eapply lookup_lt_Some.
Qed.

Lemma settle_pending_failure s p reason :
  store s !! p = Some Pending → await (settle p (inr reason) s) p = Rejected reason.
Proof.
  intros Hp. unfold await, settle. rewrite Hp. cbn.
  rewrite list_lookup_insert_eq; [done|]. by eapply lookup_lt_Some.
Qed.

(** X3. Invalidation does not cancel a retrieval in flight.  When a file is
    invalidated while its promise is pending, the promise stays pending,
    and when the text arrives it is fulfilled with the parsed text for
    those who hold it; the result does not come back into the cache, and
    the next call of [blameFile] for the file calls the collaborator again
    and returns another promise. *)
Theorem invalidation_leaves_the_retrieval_in_flight (s : state) (f data : jsstring) (p : nat)
    (es : list event) :
  reachable s →
  _files s !! f = Some p →
  store s !! p = Some Pending →
  Forall (fun e => e ≠ CallBlameFile f ∧ ∀ r, e ≠ GitBlameSettled p r) es →
  ∃ b,
    parseBlame data 0 = Some (b, 0) ∧
    await (run (_removeFile f s) es) p = Pending ∧
    await (settle p (inl data) (run (_removeFile f s) es)) p = Fulfilled b ∧
    _files (settle p (inl data) (run (_removeFile f s) es)) !! f = None ∧
    gitBlameCalls (blameFile f (settle p (inl data) (run (_removeFile f s) es))).2
      = gitBlameCalls (settle p (inl data) (run (_removeFile f s) es)) ++ [f] ∧
    p < (blameFile f (settle p (inl data) (run (_removeFile f s) es))).1.
Proof.
  intros Hreach Hf Hp Hes.
  set (s1 := run (_removeFile f s) es).
  assert (Hreach1 : reachable s1) by by apply reachable_run, reachable_removeFile.
  assert (Hp1 : store s1 !! p = Some Pending).
  { apply run_pending; [done|]. eapply Forall_impl; [exact Hes|]. by intros e [_ He]. }
  assert (Hout : _files s1 !! f = None).
  { apply run_files_out; [apply lookup_delete_eq|].
    eapply Forall_impl; [exact Hes|]. by intros e [He _]. }
  destruct (settle_pending_data s1 p data Hreach1 Hp1) as (b & Hparse & Hb).
  exists b.
  assert (Hout2 : _files (settle p (inl data) s1) !! f = None) by by rewrite settle_files.
  split_and!; try done.
  - unfold await. by rewrite Hp1.
  - by rewrite blameFile_miss.
  - rewrite blameFile_miss by done. cbn. rewrite settle_length. by eapply lookup_lt_Some.
Qed.

Lemma invalidation_leaves_the_retrieval_in_flight_witness :
  ∃ b,
    parseBlame sample 0 = Some (b, 0) ∧
    await (run (_removeFile sampleFile (blameFile sampleFile initial).2)
               [CallBlameFile otherFile]) 0 = Pending ∧
    await (settle 0 (inl sample)
             (run (_removeFile sampleFile (blameFile sampleFile initial).2)
                  [CallBlameFile otherFile])) 0 = Fulfilled b ∧
    _files (settle 0 (inl sample)
              (run (_removeFile sampleFile (blameFile sampleFile initial).2)
                   [CallBlameFile otherFile])) !! sampleFile = None ∧
    gitBlameCalls (blameFile sampleFile
                     (settle 0 (inl sample)
                        (run (_removeFile sampleFile (blameFile sampleFile initial).2)
                             [CallBlameFile otherFile]))).2
      = gitBlameCalls (settle 0 (inl sample)
                         (run (_removeFile sampleFile (blameFile sampleFile initial).2)
                              [CallBlameFile otherFile])) ++ [sampleFile] ∧
    0 < (blameFile sampleFile
           (settle 0 (inl sample)
              (run (_removeFile sampleFile (blameFile sampleFile initial).2)
                   [CallBlameFile otherFile]))).1.
Proof.
  apply (invalidation_leaves_the_retrieval_in_flight
           (blameFile sampleFile initial).2 sampleFile sample 0 [CallBlameFile otherFile]).
  - by exists [CallBlameFile sampleFile].
  - reflexivity.
  - reflexivity.
  - repeat constructor; discriminate.
Defined.

(** X4. A view asked for a file that is not cached does what [blameFile]
    does on a miss, once: the collaborator is called for the file and its
    promise is cached.  The promise of the view is pending until the
    retrieval settles; it is then fulfilled with the view of the parsed
    text, or rejected with the failure of the retrieval. *)
Theorem views_retrieve_on_a_miss (s : state) (f sha : jsstring) (range : Range)
    (es : list event) :
  reachable s →
  _files s !! f = None →
  Forall (fun e => ∀ r, e ≠ GitBlameSettled (length (store s)) r) es →
  (getBlameForRange f range s).2 = (blameFile f s).2 ∧
  (getBlameForShaRange f sha range s).2 = (blameFile f s).2 ∧
  gitBlameCalls (blameFile f s).2 = gitBlameCalls s ++ [f] ∧
  _files (blameFile f s).2 !! f = Some (length (store s)) ∧
  awaitDerived (run (blameFile f s).2 es) (getBlameForRange f range s).1 = Pending ∧
  awaitDerived (run (blameFile f s).2 es) (getBlameForShaRange f sha range s).1 = Pending ∧
  (∀ data, ∃ b,
     parseBlame data 0 = Some (b, 0) ∧
     awaitDerived (settle (length (store s)) (inl data) (run (blameFile f s).2 es))
                  (getBlameForRange f range s).1
       = Fulfilled (getBlameForRange_then range b) ∧
     awaitDerived (settle (length (store s)) (inl data) (run (blameFile f s).2 es))
                  (getBlameForShaRange f sha range s).1
       = Fulfilled (getBlameForShaRange_then sha range b)) ∧
  (∀ reason,
     awaitDerived (settle (length (store s)) (inr reason) (run (blameFile f s).2 es))
                  (getBlameForRange f range s).1 = Rejected reason ∧
     awaitDerived (settle (length (store s)) (inr reason) (run (blameFile f s).2 es))
                  (getBlameForShaRange f sha range s).1 = Rejected reason).
Proof.
  intros Hreach Hmiss Hes.
  unfold getBlameForRange, getBlameForShaRange.
  rewrite blameFile_miss by done. cbn [fst snd].
  set (s1 := {| _files := _; store := _; gitBlameCalls := _; matcherLastIndex := _ |}).
  assert (Hreach1 : reachable (run s1 es)).
  { replace s1 with (step s (CallBlameFile f)) by (cbn; by rewrite blameFile_miss).
    apply (reachable_run s (CallBlameFile f :: es) Hreach). }
  assert (Hp1 : store s1 !! length (store s) = Some Pending).
  { cbn. rewrite lookup_app_r by lia. by rewrite Nat.sub_diag. }
  pose proof (run_pending es s1 _ Hp1 Hes) as Hp2.
  split_and!; try done.
  - cbn. apply lookup_insert_eq.
  - unfold awaitDerived, await. cbn [source]. by rewrite Hp2.
  - unfold awaitDerived, await. cbn [source]. by rewrite Hp2.
  - intros data.
    destruct (settle_pending_data _ _ data Hreach1 Hp2) as (b & Hparse & Hb).
    exists b. unfold awaitDerived. cbn [source callback]. by rewrite Hb.
  - intros reason. unfold awaitDerived. cbn [source callback].
    by rewrite (settle_pending_failure _ _ reason Hp2).
Qed.

Lemma views_retrieve_on_a_miss_witness :
  (getBlameForRange sampleFile (lineRange 1 2) initial).2 = (blameFile sampleFile initial).2 ∧
  gitBlameCalls (blameFile sampleFile initial).2 = gitBlameCalls initial ++ [sampleFile] ∧
  awaitDerived (settle 0 (inr (js "fatal: no such path"))
                  (run (blameFile sampleFile initial).2 [CallBlameFile otherFile]))
               (getBlameForShaRange sampleFile (js "8ad3b1c9") (lineRange 1 2) initial).1
    = Rejected (js "fatal: no such path").
Proof.
  pose proof (views_retrieve_on_a_miss initial sampleFile (js "8ad3b1c9") (lineRange 1 2)
                [CallBlameFile otherFile]) as H.
  destruct H as (H1 & _ & H3 & _ & _ & _ & _ & H8).
  - by exists [].
  - reflexivity.
  - repeat constructor. discriminate.
  - split; [exact H1|]. split; [exact H3|]. exact (proj2 (H8 (js "fatal: no such path"))).
Defined.

(** X5. A fulfilled result keeps being served.  While no notification
    invalidates the file, whatever else happens, both views of the file
    leave the provider as it is, the collaborator is not called, and they
    are fulfilled from the blame result the cached promise was fulfilled
    with. *)
Theorem fulfilled_views_stay (s : state) (f sha : jsstring) (p : nat) (b : IGitBlame)
    (range : Range) (es : list event) :
  _files s !! f = Some p →
  store s !! p = Some (Fulfilled b) →
  Forall (fun e => invalidated e ≠ Some f) es →
  getBlameForRange f range (run s es)
    = ({| source := p; callback := getBlameForRange_then range |}, run s es) ∧
  getBlameForShaRange f sha range (run s es)
    = ({| source := p; callback := getBlameForShaRange_then sha range |}, run s es) ∧
  awaitDerived (run s es) (getBlameForRange f range (run s es)).1
    = Fulfilled (getBlameForRange_then range b) ∧
  awaitDerived (run s es) (getBlameForShaRange f sha range (run s es)).1
    = Fulfilled (getBlameForShaRange_then sha range b).
Proof.
  intros Hf Hp Hes.
  pose proof (run_files_keep es s f p Hf Hes) as Hf2.
  assert (Hp2 : store (run s es) !! p = Some (Fulfilled b)) by by apply run_settled.
  unfold getBlameForRange, getBlameForShaRange.
  rewrite (blameFile_hit f p _ Hf2). cbn [fst snd].
  unfold awaitDerived, await. cbn [source callback]. rewrite Hp2. done.
Qed.

Lemma fulfilled_views_stay_witness :
  getBlameForRange sampleFile (lineRange 0 1)
    (run sampleState [CallBlameFile otherFile; GitBlameSettled 0 (inr (js "late"))])
  = ({| source := 0; callback := getBlameForRange_then (lineRange 0 1) |},
     run sampleState [CallBlameFile otherFile; GitBlameSettled 0 (inr (js "late"))]) ∧
  awaitDerived (run sampleState [CallBlameFile otherFile; GitBlameSettled 0 (inr (js "late"))])
    (getBlameForRange sampleFile (lineRange 0 1)
       (run sampleState [CallBlameFile otherFile; GitBlameSettled 0 (inr (js "late"))])).1
  = Fulfilled (getBlameForRange_then (lineRange 0 1)
                 (default emptyBlame (fst <$> parseBlame sample 0))).
Proof.
  pose proof (fulfilled_views_stay sampleState sampleFile (js "8ad3b1c9") 0
                (default emptyBlame (fst <$> parseBlame sample 0)) (lineRange 0 1)
                [CallBlameFile otherFile; GitBlameSettled 0 (inr (js "late"))]) as H.
  destruct H as (H1 & _ & H3 & _).
  - vm_compute. reflexivity.
  - vm_compute. reflexivity.
  - repeat constructor; cbn; discriminate.
  - split; [exact H1|exact H3].
Defined.

(** ** The views, further *)

(** The lines of the range view are those of the range, with or without
    lines in the blame result. *)
Lemma getBlameForRange_then_lines range b :
  lines (getBlameForRange_then range b) = rangeLines b range.
Proof.
  unfold getBlameForRange_then. destruct (decide (length (lines b) = 0)) as [H0|_]; [|done].
  apply nil_length_inv in H0. unfold rangeLines, slice. rewrite H0.
  by rewrite drop_nil, take_nil.
Qed.

(** The commit map of the range view of a blame result with lines, written
    out. *)
Lemma getBlameForRange_then_commits range b :
  lines b ≠ [] →
  commits (getBlameForRange_then range b)
  = (fun l => (Line.sha l, Map_get (commits b) (Line.sha l))) <$> uniqBy (rangeLines b range) Line.sha.
Proof.
  intros Hne. unfold getBlameForRange_then.
  destruct (decide (length (lines b) = 0)) as [H0|_].
  { by apply nil_length_inv in H0. }
  cbn zeta. cbn [lines commits].
  rewrite (foldl_Map_set_new Line.sha (fun l => Map_get (commits b) (Line.sha l))); [done|].
  cbn. rewrite uniqBy_keys. apply NoDup_firstOccurrences.
Qed.

Lemma length_rangeLines b range :
  length (rangeLines b range)
  = S (line (end_ range)) `min` length (lines b) - line (start range) `min` length (lines b).
Proof.
  unfold rangeLines, slice.
  replace (Z.of_nat (line (end_ range)) + 1)%Z with (Z.of_nat (S (line (end_ range)))) by lia.
  rewrite !relativeIndex_nat, length_take, length_drop. lia.
Qed.

Lemma length_firstOccurrences l : length (firstOccurrences l) ≤ length l.
Proof.
  induction l as [|x l IH]; cbn; [done|].
  pose proof (length_filter (fun y => y ≠ x) (firstOccurrences l)). lia.
Qed.

Lemma length_uniqBy {A} (key : A → jsstring) (l : list A) : length (uniqBy l key) ≤ length l.
Proof.
  rewrite <-(length_fmap key (uniqBy l key)), uniqBy_keys.
  etrans; [apply length_firstOccurrences|]. by rewrite length_fmap.
Qed.

(** X6. The range view holds as many line records as the range has lines
    within the blame result: the lines from the start line, or from the end
    of the result when the start lies beyond, up to the end line, or the
    last line when the end lies beyond.  It never holds more than the range
    spans, its commit map never more entries than it has lines, and the
    hash view never more lines than the range view. *)
Theorem range_view_line_count (range : Range) (sha : jsstring) (b : IGitBlame) :
  length (lines (getBlameForRange_then range b))
    = S (line (end_ range)) `min` length (lines b) - line (start range) `min` length (lines b) ∧
  length (lines (getBlameForRange_then range b)) ≤ S (line (end_ range)) - line (start range) ∧
  (line (start range) ≤ line (end_ range) < length (lines b) →
   length (lines (getBlameForRange_then range b)) = S (line (end_ range)) - line (start range)) ∧
  (lines b ≠ [] →
   length (commits (getBlameForRange_then range b)) ≤ length (lines (getBlameForRange_then range b))) ∧
  length (shaLines (getBlameForShaRange_then sha range b))
    ≤ length (lines (getBlameForRange_then range b)).
Proof.
  rewrite getBlameForRange_then_lines.
  pose proof (length_rangeLines b range) as Hlen.
  split_and!; try lia.
  - intros Hne. rewrite getBlameForRange_then_commits by done.
    rewrite length_fmap. apply length_uniqBy.
  - cbn. apply length_filter.
Qed.

(** X7. A range that lies beyond the last line of a blame result with
    lines, or whose end line is before its start line, is no failure: the
    range view has no lines and no commits, and the hash view has no
    lines. *)
Theorem range_outside_gives_nothing (range : Range) (sha : jsstring) (b : IGitBlame) :
  lines b ≠ [] →
  length (lines b) ≤ line (start range) ∨ line (end_ range) < line (start range) →
  getBlameForRange_then range b = emptyBlame ∧
  shaLines (getBlameForShaRange_then sha range b) = [].
Proof.
  intros Hne Hout.
  assert (Hnil : rangeLines b range = []).
  { apply nil_length_inv. rewrite length_rangeLines. lia. }
  split.
  - pose proof (getBlameForRange_then_lines range b) as Hl.
    pose proof (getBlameForRange_then_commits range b Hne) as Hc.
    rewrite Hnil in Hl, Hc. cbn in Hc.
    destruct (getBlameForRange_then range b) as [cs ls]. cbn in *. by subst.
  - cbn. by rewrite Hnil.
Qed.

Lemma range_outside_gives_nothing_witness :
  getBlameForRange_then (lineRange 3 9) (default emptyBlame (fst <$> parseBlame sample 0))
    = emptyBlame ∧
  shaLines (getBlameForShaRange_then (js "8ad3b1c9") (lineRange 3 9)
              (default emptyBlame (fst <$> parseBlame sample 0))) = [].
Proof.
  apply (range_outside_gives_nothing (lineRange 3 9) (js "8ad3b1c9")
           (default emptyBlame (fst <$> parseBlame sample 0))).
  - vm_compute. discriminate.
  - left. vm_compute. lia.
Defined.

(** X8. The hash view is the range view, filtered: its lines are the lines
    of the range view that bear the hash, in order, and its commit record
    is the one the range view holds for the hash whenever a line of the
    range bears it.  (For a hash that no line of the range bears, the hash
    view still gives the commit record of the full result, which the range
    view does not hold.) *)
Theorem hash_view_is_the_range_view_filtered (range : Range) (sha : jsstring) (b : IGitBlame) :
  shaLines (getBlameForShaRange_then sha range b)
    = filter (fun l => Line.sha l = sha) (lines (getBlameForRange_then range b)) ∧
  (sha ∈ Line.sha <$> lines (getBlameForRange_then range b) →
   commit (getBlameForShaRange_then sha range b)
     = Map_get (commits (getBlameForRange_then range b)) sha) ∧
  (lines b ≠ [] → sha ∉ Line.sha <$> lines (getBlameForRange_then range b) →
   shaLines (getBlameForShaRange_then sha range b) = [] ∧
   Map_has (commits (getBlameForRange_then range b)) sha = false ∧
   commit (getBlameForShaRange_then sha range b) = Map_get (commits b) sha).
Proof.
  split_and!.
  - by rewrite getBlameForRange_then_lines.
  - intros Hin. cbn [commit getBlameForShaRange_then].
    destruct (decide (lines b = [])) as [Hnil|Hne].
    + unfold getBlameForRange_then. rewrite Hnil. cbn. done.
    + destruct (getBlameForRange_then_spec range b Hne) as (_ & _ & Hlookup).
      cbn zeta in Hlookup. unfold Map_get at 2. rewrite Hlookup. by rewrite decide_True.
  - intros Hne Hnin. split_and!; [|apply Map_has_false|done].
    + rewrite getBlameForRange_then_lines in Hnin. cbn.
      destruct (filter _ (rangeLines b range)) as [|l ls] eqn:E; [done|].
      assert (Hl : l ∈ filter (fun l => Line.sha l = sha) (rangeLines b range))
        by (rewrite E; left).
      apply list_elem_of_filter in Hl as [Hsha Hl]. destruct Hnin.
      apply list_elem_of_fmap. eauto.
    + destruct (getBlameForRange_then_spec range b Hne) as (_ & Hkeys & _).
      cbn zeta in Hkeys. rewrite Hkeys. by rewrite elem_of_firstOccurrences.
Qed.

(** Two maps with the same keys in the same order, each once, and the same
    values are the same map. *)
Lemma Map_ext {V} (m1 : Map V) :
  ∀ m2 : Map V,
    Map_keys m1 = Map_keys m2 → NoDup (Map_keys m1) →
    (∀ k, Map_lookup m1 k = Map_lookup m2 k) → m1 = m2.
Proof.
  induction m1 as [|[k v] m1 IH]; intros [|[k2 v2] m2] Hkeys Hnd Hlook; try done.
  cbn in Hkeys. injection Hkeys as <- Hkeys.
  change (NoDup (k :: Map_keys m1)) in Hnd.
  change (Map_keys m1 = Map_keys m2) in Hkeys.
  apply NoDup_cons in Hnd as [Hk Hnd].
  pose proof (Hlook k) as Hv. cbn in Hv. rewrite !decide_True in Hv by done.
  injection Hv as <-. f_equal. apply IH; [done..|].
  intros h. specialize (Hlook h). cbn in Hlook.
  destruct (decide (k = h)) as [<-|Hne]; [|done].
  assert (Hk2 : k ∉ Map_keys m2) by by rewrite <-Hkeys.
  apply Map_lookup_None in Hk, Hk2. by rewrite Hk, Hk2.
Qed.

Lemma rangeLines_all b range :
  line (start range) = 0 → length (lines b) ≤ S (line (end_ range)) →
  rangeLines b range = lines b.
Proof.
  intros H0 Hend. unfold rangeLines, slice.
  replace (Z.of_nat (line (end_ range)) + 1)%Z with (Z.of_nat (S (line (end_ range)))) by lia.
  rewrite !relativeIndex_nat, H0. cbn [drop]. apply take_ge. lia.
Qed.

Lemma sha_lineOfMatch (ms : list RegExpMatch) :
  Line.sha <$> (lineOfMatch <$> ms) = hashOf <$> ms.
Proof. by rewrite <-list_fmap_compose. Qed.

(** X9. The range view of a blame result of [blameFile] over all its lines
    (from line 0 to the last line or beyond) is that blame result: the same
    lines, and the same commit map, entry by entry and in the same order. *)
Theorem range_view_of_everything (range : Range) (data : jsstring) (lastIndex : nat) :
  line (start range) = 0 →
  ∃ b lastIndex',
    parseBlame data lastIndex = Some (b, lastIndex') ∧
    (length (lines b) ≤ S (line (end_ range)) → getBlameForRange_then range b = b).
Proof.
  intros H0. destruct (parseBlame_matches data lastIndex) as (ms & _ & Hparse).
  exists (addMatches emptyBlame ms), 0. split; [done|]. intros Hend.
  set (b := addMatches emptyBlame ms).
  destruct (decide (lines b = [])) as [Hnil|Hne].
  { unfold getBlameForRange_then. by rewrite Hnil. }
  destruct (getBlameForRange_then_spec range b Hne) as (Hlines & Hkeys & Hlookup).
  cbn zeta in Hlines, Hkeys, Hlookup.
  rewrite (rangeLines_all b range H0 Hend) in Hlines.
  assert (Hl : lines b = lineOfMatch <$> ms) by (unfold b; by rewrite lines_addMatches).
  assert (Hk : Map_keys (commits b) = firstOccurrences (hashOf <$> ms)).
  { unfold b. rewrite keys_addMatches. cbn.
    apply filter_all. intros k _. apply not_elem_of_nil. }
  assert (Hc : commits (getBlameForRange_then range b) = commits b).
  { apply Map_ext.
    - by rewrite Hkeys, Hlines, Hl, sha_lineOfMatch.
    - rewrite Hkeys. apply NoDup_firstOccurrences.
    - intros h. rewrite Hlookup, Hlines, Hl, sha_lineOfMatch.
      unfold Map_get, b. rewrite lookup_addMatches. cbn.
      unfold firstWithHash.
      destruct (list_find (fun m => hashOf m = h) ms) as [[i m]|] eqn:E; cbn.
      + apply list_find_Some in E as (Hi & <- & _).
        rewrite decide_True; [done|]. apply list_elem_of_fmap. exists m.
        split; [done|]. by eapply list_elem_of_lookup_2.
      + apply list_find_None in E. rewrite decide_False; [done|].
        intros (m & -> & Hm)%list_elem_of_fmap.
        rewrite Forall_forall in E. by apply (E m Hm). }
  destruct (getBlameForRange_then range b) as [cs ls]. cbn in *. subst cs ls.
  by destruct b.
Qed.

Lemma range_view_of_everything_witness :
  ∃ b lastIndex',
    parseBlame sample 0 = Some (b, lastIndex') ∧
    (length (lines b) ≤ S (line (end_ (lineRange 0 9))) →
     getBlameForRange_then (lineRange 0 9) b = b).
Proof. apply (range_view_of_everything (lineRange 0 9) sample 0). reflexivity. Defined.

(** The range [inner], counted from the start line of [outer] and cut at
    its end line. *)
Definition withinRange (outer inner : Range) : Range :=
  {| start := {| line := line (start outer) + line (start inner);
                 character := character (start inner) |};
     end_ := {| line := line (end_ outer) `min` (line (start outer) + line (end_ inner));
                character := character (end_ inner) |} |}.

Lemma rangeLines_rangeLines b r1 r2 :
  rangeLines {| commits := commits (getBlameForRange_then r1 b); lines := rangeLines b r1 |} r2
  = rangeLines b (withinRange r1 r2).
Proof.
  apply list_eq. intros i. rewrite !rangeLines_lookup. cbn [lines withinRange start end_ line].
  rewrite rangeLines_lookup.
  destruct (decide (line (start r2) + i ≤ line (end_ r2))) as [H2|H2].
  - destruct (decide (line (start r1) + (line (start r2) + i) ≤ line (end_ r1))) as [H1|H1].
    + rewrite decide_True by lia. f_equal. lia.
    + rewrite decide_False by lia. done.
  - rewrite decide_False by lia. done.
Qed.

Lemma blame_eq (b1 b2 : IGitBlame) : commits b1 = commits b2 → lines b1 = lines b2 → b1 = b2.
Proof. destruct b1, b2. cbn. by intros -> ->. Qed.

(** X10. Views compose: the range view of a range view is the range view,
    of the full result, of the second range counted from the start line of
    the first and cut at its end line; lines and commit map are the same. *)
Theorem range_view_of_a_range_view (r1 r2 : Range) (b : IGitBlame) :
  getBlameForRange_then r2 (getBlameForRange_then r1 b)
  = getBlameForRange_then (withinRange r1 r2) b.
Proof.
  destruct (decide (lines b = [])) as [Hnil|Hne].
  { by rewrite !(getBlameForRange_then_no_lines _ b Hnil). }
  set (v := getBlameForRange_then r1 b).
  assert (Hv : v = {| commits := commits v; lines := rangeLines b r1 |}).
  { apply blame_eq; [done|]. apply getBlameForRange_then_lines. }
  assert (Hlines : rangeLines v r2 = rangeLines b (withinRange r1 r2)).
  { rewrite Hv. apply rangeLines_rangeLines. }
  destruct (decide (lines v = [])) as [Hvnil|Hvne].
  - assert (Hnil2 : rangeLines b (withinRange r1 r2) = []).
    { rewrite <-Hlines. unfold rangeLines, slice. rewrite Hvnil.
      by rewrite drop_nil, take_nil. }
    rewrite (getBlameForRange_then_no_lines r2 v Hvnil).
    apply blame_eq.
    + unfold v. rewrite !getBlameForRange_then_commits by done.
      rewrite Hnil2. unfold v in Hvnil. rewrite getBlameForRange_then_lines in Hvnil.
      by rewrite Hvnil.
    + rewrite Hvnil. by rewrite getBlameForRange_then_lines.
  - apply blame_eq.
    + rewrite (getBlameForRange_then_commits r2 v Hvne).
      rewrite (getBlameForRange_then_commits _ b Hne). rewrite Hlines.
      apply list_fmap_ext. intros i l Hl. f_equal.
      assert (Hin : Line.sha l ∈ Line.sha <$> lines v).
      { apply list_elem_of_fmap. exists l. split; [done|].
        apply list_elem_of_lookup_2 in Hl.
        apply (baseUniq_sublist Line.sha) in Hl.
        rewrite <-Hlines in Hl. by apply rangeLines_sublist in Hl. }
      destruct (getBlameForRange_then_spec r1 b Hne) as (_ & _ & Hlookup).
      cbn zeta in Hlookup. fold v in Hlookup.
      unfold Map_get at 1. rewrite Hlookup. by rewrite decide_True.
    + by rewrite !getBlameForRange_then_lines, Hlines.
Qed.

(** ** The parsed records, further *)

Lemma elem_of_drop_inv {A} (x : A) n (l : list A) : x ∈ drop n l → x ∈ l.
Proof. intros H. rewrite <-(take_drop n l). apply elem_of_app. by right. Qed.

(** A match holds both parentheses and at least 42 characters. *)
Lemma blameLineShape_needs input rest rest' caps :
  blameLineShape input rest rest' caps →
  42 ≤ length rest ∧ chr "(" ∈ rest ∧ chr ")" ∈ rest.
Proof.
  intros (g1 & s1 & g2 & w2 & g3 & s3 & g4 & s4 & g5 & w5 & g6 & g7 & -> & _ &
          [H1 _] & _ & _ & [H2 _] & [H3 _] & _ & _ & _ & H5 & [Hw5 _] & [H6 _] & _).
  split_and!.
  - repeat (rewrite ?length_app; cbn [length]). lia.
  - set_solver.
  - set_solver.
Qed.

(** X11. A text that is shorter than the shortest attribution line (42
    characters), or that holds no opening or no closing parenthesis, has no
    attribution line: the callback of [blameFile] returns a blame result
    without lines and without commits, and no failure. *)
Theorem text_without_attribution_lines (data : jsstring) (lastIndex : nat) :
  length data < 42 ∨ chr "(" ∉ data ∨ chr ")" ∉ data →
  parseBlame data lastIndex = Some (emptyBlame, 0).
Proof.
  intros Hno. destruct (parseBlame_matches data lastIndex) as (ms & Hms & ->).
  destruct ms as [|m ms]; [done|]. exfalso.
  pose proof (matchesFrom_shape _ _ _ Hms m ltac:(left)) as Hshape.
  apply blameLineShape_needs in Hshape as (Hlen & Hopen & Hclose).
  rewrite length_drop in Hlen. apply elem_of_drop_inv in Hopen, Hclose.
  destruct Hno as [?|[?|?]]; [lia|done..].
Qed.

(** What the collaborator prints for a file outside the repository. *)
Definition noSuchPath : jsstring := js "fatal: no such path src/a.ts in HEAD".

Lemma text_without_attribution_lines_witness :
  parseBlame noSuchPath 0 = Some (emptyBlame, 0).
Proof.
  apply (text_without_attribution_lines noSuchPath 0).
  left. vm_compute. lia.
Defined.

Lemma digitsValue_nonneg ds : Forall (fun c => isDigit c = true) ds → (0 ≤ digitsValue ds)%Z.
Proof.
  unfold digitsValue. intros Hds.
  assert (H : ∀ acc, (0 ≤ acc)%Z →
            (0 ≤ foldl (fun acc c => 10 * acc + digitValue c) acc ds)%Z); [|by apply H].
  induction Hds as [|c ds Hc _ IH]; intros acc Hacc; cbn; [done|].
  apply IH. apply isDigit_bounds in Hc. unfold digitValue. lia.
Qed.

Lemma digitOrNotSpace_notSpace c : digitOrNotSpace c = true → notSpace c = true.
Proof.
  unfold digitOrNotSpace, notSpace. intros [H|H]%orb_true_iff; [|done].
  by rewrite (isDigit_not_space c H).
Qed.

(** What [trimStart] leaves has no white space in front... *)
Definition noSpaceInFront (s : jsstring) : Prop :=
  match s with
  | c :: _ => isSpace c = false
  | [] => True
  end.

Lemma trimStart_front s : noSpaceInFront (trimStart s).
Proof. induction s as [|c s IH]; cbn; [done|]. by destruct (isSpace c) eqn:E. Qed.

Lemma trimStart_fixed s : noSpaceInFront s → trimStart s = s.
Proof. destruct s as [|c s]; cbn; [done|]. by intros ->. Qed.

Lemma trimStart_suffix s : ∃ w, s = w ++ trimStart s.
Proof.
  induction s as [|c s [w IH]]; cbn; [by exists []|].
  destruct (isSpace c); [|by exists []]. exists (c :: w). cbn. by f_equal.
Qed.

Lemma noSpaceInFront_app s t : s ≠ [] → noSpaceInFront (s ++ t) → noSpaceInFront s.
Proof. by destruct s. Qed.

(** ... and [trim] none at either end: trimming again changes nothing. *)
Lemma trim_trim s : trim (trim s) = trim s.
Proof.
  unfold trim. set (t := trimStart s). set (u := trimStart (reverse t)).
  assert (Hu : noSpaceInFront (reverse u)).
  { destruct (decide (u = [])) as [->|Hne]; [done|].
    destruct (trimStart_suffix (reverse t)) as [w Hw]. fold u in Hw.
    apply (f_equal reverse) in Hw. rewrite reverse_involutive, reverse_app in Hw.
    apply (noSpaceInFront_app _ (reverse w)).
    - intros Hr. apply (f_equal reverse) in Hr. by rewrite reverse_involutive in Hr.
    - rewrite <-Hw. apply trimStart_front. }
  rewrite (trimStart_fixed _ Hu), reverse_involutive.
  by rewrite (trimStart_fixed u (trimStart_front _)).
Qed.

Lemma Map_lookup_elem {V} (m : Map V) k v :
  NoDup (Map_keys m) → (k, v) ∈ m → Map_lookup m k = Some v.
Proof.
  induction m as [|[k' v'] m IH]; intros Hnd Hin; [by apply elem_of_nil in Hin|].
  change (NoDup (k' :: Map_keys m)) in Hnd. apply NoDup_cons in Hnd as [Hk Hnd].
  cbn. apply elem_of_cons in Hin as [[= -> ->]|Hin].
  - by rewrite decide_True.
  - rewrite decide_False; [by apply IH|]. intros ->. apply Hk.
    apply list_elem_of_fmap. by exists (k, v).
Qed.


(** X13. Whatever the text, the commit map the callback of [blameFile]
    builds holds, under each key, a commit record (never [undefined]) whose
    hash is the key; the key is the hash of a line record of the result, so
    there are no more commits than lines; the file path of the record holds
    no white space, its author none at either end, and its date is built
    from a text of at least 25 characters. *)
Theorem commit_records_are_well_formed (data : jsstring) (lastIndex : nat) :
  ∃ b,
    parseBlame data lastIndex = Some (b, 0) ∧
    length (commits b) ≤ length (lines b) ∧
    Forall (fun entry =>
              ∃ c text,
                entry.2 = Some c ∧
                Commit.sha c = entry.1 ∧
                entry.1 ∈ Line.sha <$> lines b ∧
                Forall (fun c => isSpace c = false) (Commit.fileName c) ∧
                trim (Commit.author c) = Commit.author c ∧
                Commit.date c = newDate text ∧ 25 ≤ length text) (commits b).
Proof.
  destruct (parseBlame_matches data lastIndex) as (ms & Hms & Hparse).
  exists (addMatches emptyBlame ms). split; [done|].
  set (b := addMatches emptyBlame ms).
  assert (Hl : lines b = lineOfMatch <$> ms) by (unfold b; by rewrite lines_addMatches).
  assert (Hk : Map_keys (commits b) = firstOccurrences (hashOf <$> ms)).
  { unfold b. rewrite keys_addMatches. cbn.
    apply filter_all. intros k _. apply not_elem_of_nil. }
  split.
  - rewrite <-(length_fmap fst (commits b)). change (fst <$> commits b) with (Map_keys (commits b)).
    rewrite Hk, Hl, length_fmap, <-(length_fmap hashOf ms). apply length_firstOccurrences.
  - apply Forall_forall. intros [k v] Hin. cbn [fst snd].
    apply Map_lookup_elem in Hin;
      [|pose proof (NoDup_firstOccurrences (hashOf <$> ms)) as Hnd; by rewrite <-Hk in Hnd].
    unfold b in Hin. rewrite lookup_addMatches in Hin. cbn in Hin.
    destruct (firstWithHash k ms) as [m|] eqn:Hfirst; [|discriminate].
    injection Hin as <-.
    apply firstWithHash_Some in Hfirst as [Hm Hh].
    destruct (blameLineShape_groups _ _ _ _ (matchesFrom_shape _ _ _ Hms m Hm))
      as (_ & _ & Hg2 & _ & _ & Hl5 & _).
    exists (commitOfMatch m), (group m 5). cbn. split_and!; try done.
    + rewrite Hl. rewrite <-list_fmap_compose. apply list_elem_of_fmap. by exists m.
    + unfold group at 1. rewrite (trim_notSpace _ Hg2).
      eapply Forall_impl; [exact Hg2|]. intros c Hc. by apply negb_true_iff.
    + apply trim_trim.
Qed.

(** X14. The pattern is shared by all the calls, and carries the place
    where its next search starts.  Whatever place it starts from, the
    callback of [blameFile] returns, and leaves it at 0; so it is at 0 in
    every state the provider can be in, and every text that arrives for a
    pending promise is parsed from its start. *)
Theorem shared_pattern_is_left_at_rest :
  (∀ data lastIndex, ∃ b, parseBlame data lastIndex = Some (b, 0)) ∧
  (∀ s, reachable s → matcherLastIndex s = 0) ∧
  (∀ s p data,
     reachable s → store s !! p = Some Pending →
     ∃ b, parseBlame data 0 = Some (b, 0) ∧
          store (settle p (inl data) s) !! p = Some (Fulfilled b) ∧
          matcherLastIndex (settle p (inl data) s) = 0).
Proof.
  split_and!.
  - intros data lastIndex.
    destruct (parseBlame_matches data lastIndex) as (ms & _ & Hparse). eauto.
  - intros s Hs. by apply inv_lastIndex, reachable_invariant.
  - intros s p data Hs Hp.
    destruct (parseBlame_matches data 0) as (ms & _ & Hparse).
    exists (addMatches emptyBlame ms). split; [done|].
    unfold settle. rewrite Hp, (inv_lastIndex _ (reachable_invariant _ Hs)), Hparse.
    cbn. split; [|done]. apply list_lookup_insert_eq. by eapply lookup_lt_Some.
Qed.

(** ** What the matcher finds *)

Section MatcherComplete.
Variable input : jsstring.

(** The greedy quantifier finds a match whenever some number of repetitions
    within its bounds lets the continuation succeed. *)
Lemma repeatClass_complete {X} p (k : jsstring → option X) rest' :
  is_Some (k rest') →
  ∀ w min max,
    Forall (fun c => p c = true) w → min ≤ length w →
    (∀ n, max = Some n → length w ≤ n) →
    is_Some (repeatClass p min max (w ++ rest') k).
Proof.
  intros Hk. induction w as [|c w IH]; intros min max Hw Hmin Hmax.
  - cbn in Hmin. assert (min = 0) as -> by lia. cbn [app].
    destruct rest' as [|c rest'], max as [[|n]|]; cbn; try done.
    + destruct (p c); [|done]. by destruct (repeatClass _ _ _ _ _).
    + destruct (p c); [|done]. by destruct (repeatClass _ _ _ _ _).
  - apply Forall_cons in Hw as [Hc Hw]. cbn in Hmin.
    assert (Hin : is_Some (repeatClass p (pred min) (pred <$> max) (w ++ rest') k)).
    { apply IH; [done|lia|]. intros n Hn. destruct max as [m|]; [|done].
      injection Hn as <-. specialize (Hmax m eq_refl). cbn in Hmax. lia. }
    change ((c :: w) ++ rest') with (c :: (w ++ rest')).
    destruct max as [[|n]|]; cbn [repeatClass].
    + specialize (Hmax 0 eq_refl). cbn in Hmax. lia.
    + rewrite Hc. by destruct Hin as [x ->].
    + rewrite Hc. by destruct Hin as [x ->].
Qed.

(** The matcher finds a match whenever the pattern accepts a prefix that
    lets the continuation succeed. *)
Lemma matcher_complete {X} r :
  ∀ rest caps rest' caps' (k : jsstring → captures → option X),
    accepts input r rest caps rest' caps' → is_Some (k rest' caps') →
    is_Some (matcher input r rest caps k).
Proof.
  induction r as [| |p|p min max|r1 IH1 r2 IH2|i r1 IH1];
    intros rest caps rest' caps' k H Hk; cbn in H; cbn [matcher].
  - destruct H as (-> & -> & ->). done.
  - destruct H as (-> & -> & ->). done.
  - destruct H as (c & -> & -> & ->). done.
  - destruct H as (w & -> & Hw & Hmin & Hmax & ->).
    by apply (repeatClass_complete p (fun rest1 => k rest1 caps)).
  - destruct H as (mid & capsm & H1 & H2).
    apply (IH1 _ _ mid capsm); [done|]. by apply (IH2 _ _ rest' caps').
  - destruct H as (caps1 & H1 & ->).
    by apply (IH1 _ _ rest' caps1).
Qed.

Lemma accepts_Cls_intro p c rest' caps :
  p c = true → accepts input (Cls p) (c :: rest') caps rest' caps.
Proof. intros Hc. by exists c. Qed.

Lemma accepts_Rep_intro p min max w rest' caps :
  Forall (fun c => p c = true) w → min ≤ length w →
  (∀ n, max = Some n → length w ≤ n) →
  accepts input (Rep p min max) (w ++ rest') caps rest' caps.
Proof. intros Hw Hmin Hmax. by exists w. Qed.

Lemma accepts_Seq_intro r1 r2 rest caps mid capsm rest' caps' :
  accepts input r1 rest caps mid capsm → accepts input r2 mid capsm rest' caps' →
  accepts input (Seq r1 r2) rest caps rest' caps'.
Proof. intros H1 H2. by exists mid, capsm. Qed.

Lemma accepts_Grp_intro i r w rest' caps caps1 :
  accepts input r (w ++ rest') caps rest' caps1 →
  accepts input (Grp i r) (w ++ rest') caps rest' (<[i := w]> caps1).
Proof. intros H. exists caps1. by rewrite take_consumed. Qed.
End MatcherComplete.

(** A pattern without anchors and groups: what it accepts depends on the
    characters it consumes only. *)
Fixpoint plainPattern (r : regex) : Prop :=
  match r with
  | Bol | Eol | Grp _ _ => False
  | Seq r1 r2 => plainPattern r1 ∧ plainPattern r2
  | _ => True
  end.

Lemma accepts_plain r :
  plainPattern r →
  ∀ input rest caps rest' caps',
    accepts input r rest caps rest' caps' →
    ∃ w, rest = w ++ rest' ∧
         ∀ input' y caps0, accepts input' r (w ++ y) caps0 y caps0.
Proof.
  induction r as [| |p|p min max|r1 IH1 r2 IH2|i r1 IH1];
    intros Hplain input rest caps rest' caps' H; cbn in H; try done.
  - destruct H as (c & -> & Hc & _). exists [c]. split; [done|].
    intros input' y caps0. by exists c.
  - destruct H as (w & -> & Hw & Hmin & Hmax & _). exists w. split; [done|].
    intros input' y caps0. by exists w.
  - destruct Hplain as [Hp1 Hp2]. destruct H as (mid & capsm & H1 & H2).
    destruct (IH1 Hp1 _ _ _ _ _ H1) as (w1 & -> & Hw1).
    destruct (IH2 Hp2 _ _ _ _ _ H2) as (w2 & -> & Hw2).
    exists (w1 ++ w2). split; [by rewrite <-app_assoc|].
    intros input' y caps0. exists (w2 ++ y), caps0. rewrite <-app_assoc. by split.
Qed.

(** The most characters a pattern with bounded quantifiers consumes. *)
Fixpoint maxLength (r : regex) : option nat :=
  match r with
  | Bol | Eol => Some 0
  | Cls _ => Some 1
  | Rep _ _ max => max
  | Seq r1 r2 => n1 ← maxLength r1; n2 ← maxLength r2; Some (n1 + n2)
  | Grp _ r1 => maxLength r1
  end.

Lemma accepts_maxLength r :
  ∀ n input rest caps rest' caps',
    maxLength r = Some n →
    accepts input r rest caps rest' caps' → length rest ≤ length rest' + n.
Proof.
  induction r as [| |p|p min max|r1 IH1 r2 IH2|i r1 IH1];
    intros n input rest caps rest' caps' Hn H; cbn in H, Hn.
  - destruct H as (_ & -> & _). lia.
  - destruct H as (_ & -> & _). lia.
  - destruct H as (c & -> & _). injection Hn as <-. cbn. lia.
  - destruct H as (w & -> & _ & _ & Hmax & _). specialize (Hmax n Hn).
    rewrite length_app. lia.
  - destruct H as (mid & capsm & H1 & H2).
    destruct (maxLength r1) as [n1|]; [|discriminate].
    destruct (maxLength r2) as [n2|]; [|discriminate].
    injection Hn as <-.
    specialize (IH1 n1 _ _ _ _ _ eq_refl H1). specialize (IH2 n2 _ _ _ _ _ eq_refl H2). lia.
  - destruct H as (caps1 & H & _). eauto.
Qed.

(** ** Timestamps *)

(** A text that the timestamp part of the pattern matches, all of it. *)
Definition isTimestamp (ts : jsstring) : bool :=
  match matchAt ts timestampPattern ts with
  | Some ([], _) => true
  | _ => false
  end.

Lemma timestampPattern_plain : plainPattern timestampPattern.
Proof. cbn. tauto. Qed.

Lemma timestampPattern_wellFormed : wellFormed timestampPattern.
Proof. cbn. repeat split; lia. Qed.

(** What the timestamp part accepts has 25 characters. *)
Lemma timestamp_word input rest caps rest' caps' :
  accepts input timestampPattern rest caps rest' caps' →
  ∃ w, rest = w ++ rest' ∧ length w = 25 ∧
       ∀ input' y caps0, accepts input' timestampPattern (w ++ y) caps0 y caps0.
Proof.
  intros H.
  pose proof (accepts_minLength _ _ _ _ _ _ H) as Hmin.
  pose proof (accepts_maxLength timestampPattern 25 _ _ _ _ _ eq_refl H) as Hmax.
  destruct (accepts_plain _ timestampPattern_plain _ _ _ _ _ H) as (w & -> & Hw).
  exists w. split; [done|]. split; [|done].
  rewrite length_app in Hmin, Hmax. cbn in Hmin. lia.
Qed.

Lemma isTimestamp_accepts ts :
  isTimestamp ts = true →
  length ts = 25 ∧ ∀ input y caps, accepts input timestampPattern (ts ++ y) caps y caps.
Proof.
  unfold isTimestamp, matchAt. intros H.
  destruct (matcher ts timestampPattern ts ∅ _) as [[[|c r] caps]|] eqn:E; try done.
  apply matcher_sound in E as (rest' & caps' & Hacc & [= -> ->]);
    [|exact timestampPattern_wellFormed].
  destruct (timestamp_word _ _ _ _ _ Hacc) as (w & Hts & Hlen & Hw).
  rewrite app_nil_r in Hts. by subst w.
Qed.

Lemma accepts_isTimestamp input w y caps caps' :
  length w = 25 → accepts input timestampPattern (w ++ y) caps y caps' → isTimestamp w = true.
Proof.
  intros Hlen H.
  destruct (timestamp_word _ _ _ _ _ H) as (w' & Heq & Hlen' & Hw').
  apply app_inj_1 in Heq as [<- _]; [|lia].
  unfold isTimestamp, matchAt.
  destruct (matcher_complete w timestampPattern w ∅ [] ∅
              (fun rest' caps => Some (rest', caps))) as [[r c] Hr].
  - specialize (Hw' w [] ∅). by rewrite app_nil_r in Hw'.
  - done.
  - rewrite Hr.
    apply matcher_sound in Hr as (rest' & caps1 & Hacc & [= -> ->]);
      [|exact timestampPattern_wellFormed].
    apply accepts_minLength in Hacc. cbn in Hacc.
    destruct r; [done|]. cbn in Hacc. lia.
Qed.

(** The places of a text where a timestamp stands. *)
Definition timestampPositions (s : jsstring) : list nat :=
  filter (fun i => isTimestamp (take 25 (drop i s)) = true) (seq 0 (length s)).

Lemma timestampPositions_elem x w y :
  isTimestamp w = true → length x ∈ timestampPositions (x ++ w ++ y).
Proof.
  intros Hw. pose proof (isTimestamp_accepts w Hw) as [Hlen _].
  unfold timestampPositions. apply list_elem_of_filter. split.
  - rewrite drop_app_length. rewrite take_app_length'; done.
  - apply elem_of_seq. rewrite !length_app. lia.
Qed.

Lemma timestampPositions_unique s x1 w1 y1 x2 w2 y2 :
  length (timestampPositions s) ≤ 1 →
  s = x1 ++ w1 ++ y1 → s = x2 ++ w2 ++ y2 →
  isTimestamp w1 = true → isTimestamp w2 = true →
  x1 = x2 ∧ w1 = w2 ∧ y1 = y2.
Proof.
  intros Hone H1 H2 Hw1 Hw2.
  pose proof (timestampPositions_elem x1 w1 y1 Hw1) as Hp1.
  pose proof (timestampPositions_elem x2 w2 y2 Hw2) as Hp2.
  rewrite <-H1 in Hp1. rewrite <-H2 in Hp2.
  assert (Hlen : length x1 = length x2).
  { destruct (timestampPositions s) as [|i [|j l]]; cbn in Hone; [|..|lia].
    - by apply elem_of_nil in Hp1.
    - apply list_elem_of_singleton in Hp1, Hp2. congruence. }
  rewrite H1 in H2. apply app_inj_1 in H2 as [-> H2]; [|done].
  apply isTimestamp_accepts in Hw1 as [Hl1 _]. apply isTimestamp_accepts in Hw2 as [Hl2 _].
  apply app_inj_1 in H2 as [-> ->]; [done|lia].
Qed.

(** A match of the attribution line pattern has the shape of a line, and
    its fifth group is a timestamp. *)
Lemma blameMatcher_accepts_timestamp input rest rest' caps' :
  accepts input blameMatcher rest ∅ rest' caps' →
  blameLineShape input rest rest' caps' ∧ isTimestamp (default [] (caps' !! 5)) = true.
Proof.
  intros Hacc. split; [by apply blameMatcher_accepts|].
  unfold blameMatcher in Hacc. destruct Hacc as (m0 & c0 & _ & H).
  destruct H as (m1 & c1 & _ & H).
  destruct H as (m2 & c2 & _ & H).
  destruct H as (m3 & c3 & _ & H).
  destruct H as (m4 & c4 & _ & H).
  destruct H as (m5 & c5 & _ & H).
  destruct H as (m6 & c6 & _ & H).
  destruct H as (m7 & c7 & _ & H).
  destruct H as (m8 & c8 & _ & H).
  destruct H as (m9 & c9 & _ & H).
  destruct H as (m10 & c10 & H10 & H).
  apply accepts_Grp in H10 as (g5 & c5' & -> & H10 & ->).
  destruct (timestamp_word _ _ _ _ _ H10) as (w & Heq & Hlen & _).
  apply app_inv_tail in Heq as ->.
  apply accepts_isTimestamp in H10; [|done].
  destruct H as (m11 & c11 & (w5 & -> & _ & _ & _ & ->) & H).
  destruct H as (m12 & c12 & H12 & H).
  apply accepts_Grp_Rep in H12 as (g6 & -> & _ & _ & _ & ->).
  destruct H as (m13 & c13 & (rp & -> & _ & ->) & H).
  destruct H as (m14 & c14 & H14 & (_ & -> & ->)).
  apply accepts_Grp_Rep in H14 as (g7 & -> & _ & _ & _ & ->).
  unfold captures in *. by simplify_map_eq.
Qed.

Lemma matchAt_blameMatcher_timestamp input rest rest' caps :
  matchAt input blameMatcher rest = Some (rest', caps) →
  blameLineShape input rest rest' caps ∧ isTimestamp (default [] (caps !! 5)) = true.
Proof.
  intros H. apply matcher_sound in H as (r1 & c1 & Hacc & [= -> ->]).
  - by apply blameMatcher_accepts_timestamp.
  - exact blameMatcher_wellFormed.
Qed.

(** The pattern accepts every text of the shape of a line whose fifth part
    is a timestamp. *)
Lemma blameMatcher_accepts_intro input g1 s1 g2 w2 g3 s3 g4 s4 g5 w5 g6 g7 rest' :
  (length g1 = 8 ∧ Forall (fun c => isHashChar c = true) g1) →
  isSpace s1 = true →
  Forall (fun c => notSpace c = true) g2 →
  (1 ≤ length w2 ∧ Forall (fun c => isSpace c = true) w2) →
  (1 ≤ length g3 ∧ Forall (fun c => digitOrNotSpace c = true) g3) →
  isSpace s3 = true →
  Forall (fun c => dot c = true) g4 →
  isSpace s4 = true →
  isTimestamp g5 = true →
  (1 ≤ length w5 ∧ Forall (fun c => isSpace c = true) w5) →
  (1 ≤ length g6 ∧ Forall (fun c => isDigit c = true) g6) →
  Forall (fun c => dot c = true) g7 →
  atLineStart input (g1 ++ s1 :: g2 ++ w2 ++ g3 ++ s3 :: chr "(" :: g4 ++ s4 :: g5 ++ w5 ++
                     g6 ++ chr ")" :: g7 ++ rest') = true →
  atLineEnd rest' = true →
  accepts input blameMatcher
    (g1 ++ s1 :: g2 ++ w2 ++ g3 ++ s3 :: chr "(" :: g4 ++ s4 :: g5 ++ w5 ++
     g6 ++ chr ")" :: g7 ++ rest') ∅ rest'
    (<[7:=g7]> (<[6:=g6]> (<[5:=g5]> (<[4:=g4]> (<[3:=g3]> (<[2:=g2]> (<[1:=g1]> ∅))))))).
Proof.
  intros [Hl1 Hg1] Hs1 Hg2 [Hl2 Hw2] [Hl3 Hg3] Hs3 Hg4 Hs4 Hg5 [Hl5 Hw5] [Hl6 Hg6] Hg7 Hbol Heol.
  apply isTimestamp_accepts in Hg5 as [_ Hg5].
  unfold blameMatcher.
  eapply accepts_Seq_intro; [by split|].
  eapply accepts_Seq_intro.
  { apply accepts_Grp_intro, accepts_Rep_intro; [done|lia|]. intros n [= <-]. lia. }
  eapply accepts_Seq_intro; [by apply accepts_Cls_intro|].
  eapply accepts_Seq_intro.
  { apply accepts_Grp_intro, accepts_Rep_intro; [done|lia|done]. }
  eapply accepts_Seq_intro; [by apply accepts_Rep_intro|].
  eapply accepts_Seq_intro.
  { apply accepts_Grp_intro, accepts_Rep_intro; [done|lia|done]. }
  eapply accepts_Seq_intro; [by apply accepts_Cls_intro|].
  eapply accepts_Seq_intro; [by apply accepts_Cls_intro|].
  eapply accepts_Seq_intro.
  { apply accepts_Grp_intro, accepts_Rep_intro; [done|lia|done]. }
  eapply accepts_Seq_intro; [by apply accepts_Cls_intro|].
  eapply accepts_Seq_intro; [apply accepts_Grp_intro, Hg5|].
  eapply accepts_Seq_intro; [by apply accepts_Rep_intro|].
  eapply accepts_Seq_intro.
  { apply accepts_Grp_intro, accepts_Rep_intro; [done|lia|done]. }
  eapply accepts_Seq_intro; [by apply accepts_Cls_intro|].
  eapply accepts_Seq_intro.
  { apply accepts_Grp_intro, accepts_Rep_intro; [done|lia|done]. }
  by split.
Qed.

(** Where a run of characters of a class ends. *)
Definition stops (p : char → bool) (x : jsstring) : Prop :=
  match x with
  | c :: _ => p c = false
  | [] => True
  end.

Lemma run_unique p a :
  ∀ b x y,
    Forall (fun c => p c = true) a → Forall (fun c => p c = true) b →
    stops p x → stops p y → a ++ x = b ++ y → a = b ∧ x = y.
Proof.
  induction a as [|c a IH]; intros [|d b] x y Ha Hb Hx Hy Heq; cbn in Heq.
  - done.
  - subst x. apply Forall_cons in Hb as [Hd _]. cbn in Hx. congruence.
  - subst y. apply Forall_cons in Ha as [Hc _]. cbn in Hy. congruence.
  - injection Heq as <- Heq. apply Forall_cons in Ha as [_ Ha]. apply Forall_cons in Hb as [_ Hb].
    destruct (IH b x y Ha Hb Hx Hy Heq) as [-> ->]. done.
Qed.

Lemma atLineEnd_stops x : atLineEnd x = true → stops dot x.
Proof. destruct x as [|c x]; cbn; [done|]. unfold dot. by intros ->. Qed.

(** ** An attribution line, as the collaborator prints it *)

(** The parts of a line: hash, file path, line number in the commit, author,
    timestamp, line number in the file, and the code; the numbers are
    right-aligned with spaces. *)
Record attributionLine := {
  printedHash : jsstring;
  printedPath : jsstring;
  alignOriginalLine : nat;
  printedOriginalLine : jsstring;
  printedAuthor : jsstring;
  printedTimestamp : jsstring;
  alignLine : nat;
  printedLine : jsstring;
  printedCode : jsstring;
}.

Definition printLine (l : attributionLine) : jsstring :=
  printedHash l ++ chr " " :: printedPath l ++
  replicate (S (alignOriginalLine l)) (chr " ") ++ printedOriginalLine l ++
  chr " " :: chr "(" :: printedAuthor l ++ chr " " :: printedTimestamp l ++
  replicate (S (alignLine l)) (chr " ") ++ printedLine l ++ chr ")" :: printedCode l.

Definition wellFormedLine (l : attributionLine) : Prop :=
  length (printedHash l) = 8 ∧
  Forall (fun c => isHashChar c = true) (printedHash l) ∧
  Forall (fun c => isSpace c = false) (printedPath l) ∧
  printedOriginalLine l ≠ [] ∧
  Forall (fun c => isDigit c = true) (printedOriginalLine l) ∧
  Forall (fun c => isLineTerminator c = false) (printedAuthor l) ∧
  isTimestamp (printedTimestamp l) = true ∧
  printedLine l ≠ [] ∧
  Forall (fun c => isDigit c = true) (printedLine l) ∧
  Forall (fun c => isLineTerminator c = false) (printedCode l).

(** The records [blameFile] is to build from a line. *)
Definition commitOfLine (l : attributionLine) : IGitBlameCommit :=
  {| Commit.sha := printedHash l;
     Commit.fileName := printedPath l;
     Commit.author := trim (printedAuthor l);
     Commit.date := newDate (printedTimestamp l) |}.

Definition lineOfLine (l : attributionLine) : IGitBlameLine :=
  {| Line.sha := printedHash l;
     Line.originalLine := Num (digitsValue (printedOriginalLine l) - 1);
     Line.line := Num (digitsValue (printedLine l) - 1) |}.

Definition capturesOfLine (l : attributionLine) : captures :=
  <[7 := printedCode l]> (<[6 := printedLine l]> (<[5 := printedTimestamp l]>
  (<[4 := printedAuthor l]> (<[3 := printedOriginalLine l]> (<[2 := printedPath l]>
  (<[1 := printedHash l]> ∅)))))).

Lemma printLine_app l post :
  printLine l ++ post =
  printedHash l ++ chr " " :: printedPath l ++
  replicate (S (alignOriginalLine l)) (chr " ") ++ printedOriginalLine l ++
  chr " " :: chr "(" :: printedAuthor l ++ chr " " :: printedTimestamp l ++
  replicate (S (alignLine l)) (chr " ") ++ printedLine l ++ chr ")" :: printedCode l ++ post.
Proof. unfold printLine. by repeat (rewrite <-?app_assoc; cbn [app]). Qed.

Lemma Forall_negb (p : char → bool) s :
  Forall (fun c => p c = false) s → Forall (fun c => negb (p c) = true) s.
Proof. intros H. eapply Forall_impl; [exact H|]. by intros c ->. Qed.

Lemma Forall_isDigit_notSpace s :
  Forall (fun c => isDigit c = true) s → Forall (fun c => isSpace c = false) s.
Proof. intros H. eapply Forall_impl; [exact H|]. apply isDigit_not_space. Qed.

Lemma spaces_isSpace n : Forall (fun c => isSpace c = true) (replicate n (chr " ")).
Proof. apply Forall_replicate. done. Qed.

(** The line up to its opening parenthesis, and from its author on. *)
Definition lineHead (l : attributionLine) : jsstring :=
  printedHash l ++ chr " " :: printedPath l ++
  replicate (S (alignOriginalLine l)) (chr " ") ++ printedOriginalLine l ++ [chr " "; chr "("].

Definition lineTail (l : attributionLine) : jsstring :=
  printedAuthor l ++ chr " " :: printedTimestamp l ++
  replicate (S (alignLine l)) (chr " ") ++ printedLine l ++ chr ")" :: printedCode l.

Lemma printLine_head_tail l : printLine l = lineHead l ++ lineTail l.
Proof. unfold printLine, lineHead, lineTail. by repeat (rewrite <-?app_assoc; cbn [app]). Qed.

Lemma captures_fifth (g5 g6 g7 : jsstring) (caps : gmap nat jsstring) :
  <[7:=g7]> (<[6:=g6]> (<[5:=g5]> caps)) !! 5 = Some g5.
Proof. by simplify_map_eq. Qed.

Lemma run_prefix p a :
  ∀ b x y,
    Forall (fun c => p c = true) a → stops p y → a ++ x = b ++ y → length a ≤ length b.
Proof.
  induction a as [|c a IH]; intros [|d b] x y Ha Hy Heq; cbn in *; try lia.
  - subst y. apply Forall_cons in Ha as [Hc _]. cbn in Hy. congruence.
  - injection Heq as <- Heq. apply Forall_cons in Ha as [_ Ha].
    specialize (IH b x y Ha Hy Heq). lia.
Qed.

(** Two readings of a text as a line are the same reading, when the
    timestamp of the second stands where that of the first does. *)
Lemma shape_unique_at H sp1 P G1 O sp2 lp A sp3 T G2 C rp Code post
    g1 s1 g2 w2 g3 s3 g4 s4 g5 w5 g6 g7 rest' :
  H ++ sp1 :: P ++ G1 ++ O ++ sp2 :: lp :: A ++ sp3 :: T ++ G2 ++ C ++ rp :: Code ++ post
  = g1 ++ s1 :: g2 ++ w2 ++ g3 ++ s3 :: lp :: g4 ++ s4 :: g5 ++ w5 ++ g6 ++ rp :: g7 ++ rest' →
  (g4 ++ s4 :: g5 ++ w5 ++ g6 ++ rp :: g7 ++ rest'
   = A ++ sp3 :: T ++ G2 ++ C ++ rp :: Code ++ post → length g4 = length A) →
  length H = 8 → length g1 = 8 →
  Forall (fun c => notSpace c = true) P → Forall (fun c => notSpace c = true) g2 →
  G1 ≠ [] → Forall (fun c => isSpace c = true) G1 →
  1 ≤ length w2 → Forall (fun c => isSpace c = true) w2 →
  O ≠ [] → Forall (fun c => notSpace c = true) O →
  1 ≤ length g3 → Forall (fun c => notSpace c = true) g3 →
  isSpace sp2 = true → isSpace s3 = true →
  isTimestamp T = true → isTimestamp g5 = true →
  G2 ≠ [] → Forall (fun c => isSpace c = true) G2 →
  1 ≤ length w5 → Forall (fun c => isSpace c = true) w5 →
  C ≠ [] → Forall (fun c => isDigit c = true) C →
  1 ≤ length g6 → Forall (fun c => isDigit c = true) g6 →
  isDigit rp = false →
  Forall (fun c => dot c = true) Code → Forall (fun c => dot c = true) g7 →
  stops dot post → stops dot rest' →
  H = g1 ∧ P = g2 ∧ O = g3 ∧ A = g4 ∧ T = g5 ∧ C = g6 ∧ Code = g7 ∧ post = rest'.
Proof.
  intros Heq Hpos HlH Hlg1 HP Hg2 HnG1 HG1 Hlw2 Hw2 HnO HO Hlg3 Hg3 Hsp2 Hs3 HT Hg5
    HnG2 HG2 Hlw5 Hw5 HnC HC Hlg6 Hg6 Hrp HCode Hg7 Hpost Hrest'.
  assert (Hsp : ∀ s x, s ≠ [] → Forall (fun c => notSpace c = true) s → stops isSpace (s ++ x)).
  { intros [|c s] x Hn Hs; [done|]. apply Forall_cons in Hs as [Hc _]. cbn.
    by apply negb_true_iff in Hc. }
  assert (Hdg : ∀ s x, s ≠ [] → Forall (fun c => isDigit c = true) s → stops isSpace (s ++ x)).
  { intros [|c s] x Hn Hs; [done|]. apply Forall_cons in Hs as [Hc _]. cbn.
    by apply isDigit_not_space. }
  assert (Hne : ∀ s : jsstring, 1 ≤ length s → s ≠ []).
  { intros [|c s] Hl; [cbn in Hl; lia|done]. }
  assert (Hstop : ∀ s x, s ≠ [] → Forall (fun c => isSpace c = true) s → stops notSpace (s ++ x)).
  { intros [|c s] x Hn Hs; [done|]. apply Forall_cons in Hs as [Hc _]. cbn. unfold notSpace.
    by rewrite Hc. }
  apply app_inj_1 in Heq as [<- Heq]; [|lia].
  injection Heq as <- Heq.
  apply (run_unique notSpace) in Heq as [<- Heq]; [|auto..].
  apply (run_unique isSpace) in Heq as [<- Heq]; [|auto..].
  apply (run_unique notSpace) in Heq as [<- Heq]; [|try done..].
  2: { cbn. unfold notSpace. by rewrite Hsp2. }
  2: { cbn. unfold notSpace. by rewrite Hs3. }
  injection Heq as <- Heq.
  symmetry in Heq. specialize (Hpos Heq).
  apply app_inj_1 in Heq as [<- Heq]; [|done].
  injection Heq as <- Heq.
  apply isTimestamp_accepts in HT as [HlT _]. apply isTimestamp_accepts in Hg5 as [Hlg5 _].
  apply app_inj_1 in Heq as [<- Heq]; [|lia].
  apply (run_unique isSpace) in Heq as [<- Heq]; [|auto..].
  apply (run_unique isDigit) in Heq as [<- Heq]; [|try done..].
  injection Heq as Heq.
  apply (run_unique dot) in Heq as [<- <-]; done.
Qed.

(** The pattern matches a line where it stands in a text, at the start of a
    line and before the end of one, and reads it as it was printed, when no
    other reading puts a timestamp elsewhere. *)
Lemma line_matched data pre l post :
  data = pre ++ printLine l ++ post →
  (pre = [] ∨ ∃ pre0, pre = pre0 ++ nl) →
  atLineEnd post = true →
  wellFormedLine l →
  (∀ g4 s4 g5 y,
     Forall (fun c => dot c = true) g4 → isTimestamp g5 = true →
     data = (pre ++ lineHead l ++ g4 ++ [s4]) ++ g5 ++ y →
     length g4 = length (printedAuthor l)) →
  matchAt data blameMatcher (printLine l ++ post) = Some (post, capturesOfLine l).
Proof.
  intros Hpre Hstart Hpost Hwf Hpos.
  assert (Hbol : atLineStart data (printLine l ++ post) = true).
  { unfold atLineStart, position.
    replace (length data - length (printLine l ++ post)) with (length pre)
      by (rewrite Hpre, !length_app; lia).
    destruct Hstart as [->|[pre0 Hpre0]]; [done|].
    rewrite Hpre0, length_app. cbn [length nl]. rewrite Nat.add_1_r.
    assert (Hlf : @lookup nat char jsstring _ (length pre0) data = Some 10%N).
    { rewrite Hpre, Hpre0, <-(app_assoc pre0). by apply list_lookup_middle. }
    by rewrite Hlf. }
  destruct Hwf as (Hl1 & Hg1 & Hg2 & Hn3 & Hg3 & Hg4 & Hg5 & Hn6 & Hg6 & Hg7).
  assert (Hacc : accepts data blameMatcher (printLine l ++ post) ∅ post (capturesOfLine l)).
  { rewrite printLine_app. rewrite printLine_app in Hbol.
    apply blameMatcher_accepts_intro; try done.
    - by apply Forall_negb.
    - split; [rewrite length_replicate; lia|apply spaces_isSpace].
    - split; [destruct (printedOriginalLine l); [done|cbn; lia]|].
      eapply Forall_impl; [exact Hg3|]. intros c Hc. unfold digitOrNotSpace. by rewrite Hc.
    - by apply Forall_negb.
    - split; [rewrite length_replicate; lia|apply spaces_isSpace].
    - split; [destruct (printedLine l); [done|cbn; lia]|done].
    - by apply Forall_negb. }
  destruct (matcher_complete data blameMatcher (printLine l ++ post) ∅ post (capturesOfLine l)
              (fun rest' caps => Some (rest', caps)) Hacc) as [[rest' caps] Hm]; [done|].
  unfold matchAt. rewrite Hm. f_equal.
  apply matchAt_blameMatcher_timestamp in Hm as [Hshape Hts].
  destruct Hshape as (g1 & s1 & g2 & w2 & g3 & s3 & g4 & s4 & g5 & w5 & g6 & g7 & Heq & -> &
    [Hk1 _] & Hs1 & Hk2 & [Hj2 Hw2] & [Hj3 Hk3] & Hs3 & Hk4 & Hs4 & _ & [Hj5 Hw5] &
    [Hj6 Hk6] & Hk7 & _ & Heol).
  unfold captures in Hts. rewrite captures_fifth in Hts. cbn [default] in Hts.
  rewrite printLine_app in Heq.
  destruct (shape_unique_at _ _ _ _ _ _ _ _ _ _ _ _ _ _ _ _ _ _ _ _ _ _ _ _ _ _ _ _ Heq)
    as (<- & <- & <- & <- & <- & <- & <- & <-); try done.
  all: try first
    [ by apply Forall_negb
    | apply spaces_isSpace
    | by apply Forall_negb, Forall_isDigit_notSpace
    | by (eapply Forall_impl; [exact Hk3|]; apply digitOrNotSpace_notSpace)
    | by apply atLineEnd_stops ].
  intros Htl.
  apply (Hpos g4 s4 g5 (w5 ++ g6 ++ chr ")" :: g7 ++ rest')); [done..|].
  rewrite Hpre, printLine_app, <-Htl. unfold lineHead.
  by repeat (rewrite <-?app_assoc; cbn [app]).
Qed.

Lemma lineOfMatch_line start l :
  wellFormedLine l →
  lineOfMatch {| index := start; matched := printLine l; groups := capturesOfLine l |}
  = lineOfLine l.
Proof.
  intros (Hl1 & Hg1 & Hg2 & Hn3 & Hg3 & Hg4 & Hg5 & Hn6 & Hg6 & Hg7).
  unfold lineOfMatch, lineOfLine, group, capturesOfLine. cbn [groups].
  unfold captures. simplify_map_eq. cbn [default].
  assert (Hlen : ∀ s : jsstring, s ≠ [] → 1 ≤ length s).
  { intros [|c s] Hs; [done|cbn; lia]. }
  rewrite !parseInt10_digits by auto. done.
Qed.

Lemma commitOfMatch_line start l :
  wellFormedLine l →
  commitOfMatch {| index := start; matched := printLine l; groups := capturesOfLine l |}
  = commitOfLine l.
Proof.
  intros (Hl1 & Hg1 & Hg2 & _).
  unfold commitOfMatch, commitOfLine, group, capturesOfLine. cbn [groups].
  unfold captures. simplify_map_eq. cbn [default].
  by rewrite (trim_notSpace (printedPath l)) by by apply Forall_negb.
Qed.

(** No attribution line starts after the only timestamp of a text. *)
Lemma no_match_after_the_timestamp data x w y j :
  length (timestampPositions data) ≤ 1 →
  data = x ++ w ++ y → isTimestamp w = true → length x < j →
  matchAt data blameMatcher (drop j data) = None.
Proof.
  intros Hone Hdata Hw Hj.
  destruct (matchAt data blameMatcher (drop j data)) as [[rest' caps]|] eqn:E; [|done].
  exfalso. apply matchAt_blameMatcher_timestamp in E as [Hshape Hts].
  destruct Hshape as (g1 & s1 & g2 & w2 & g3 & s3 & g4 & s4 & g5 & w5 & g6 & g7 & Heq & -> & _).
  unfold captures in Hts. rewrite captures_fifth in Hts. cbn [default] in Hts.
  destruct (timestampPositions_unique data x w y
              (take j data ++ g1 ++ s1 :: g2 ++ w2 ++ g3 ++ s3 :: chr "(" :: g4 ++ [s4]) g5
              (w5 ++ g6 ++ chr ")" :: g7 ++ rest')) as (Hx & _); try done.
  - rewrite <-(take_drop j data) at 1. rewrite Heq.
    by repeat (rewrite <-?app_assoc; cbn [app]).
  - apply (f_equal length) in Hx. rewrite length_app, length_take in Hx.
    assert (j ≤ length data); [|lia].
    apply (f_equal length) in Heq. rewrite length_drop, length_app in Heq. cbn in Heq.
    destruct (decide (j ≤ length data)); [done|].
    rewrite length_app in Heq. lia.
Qed.


(** A line whose code holds parentheses. *)
Definition activateLine : attributionLine :=
  {| printedHash := js "8ad3b1c9";
     printedPath := js "src/extension.ts";
     alignOriginalLine := 1;
     printedOriginalLine := js "12";
     printedAuthor := js "Eric Amodio";
     printedTimestamp := js "2016-08-30 02:11:13 -0400";
     alignLine := 1;
     printedLine := js "14";
     printedCode := js " export function activate(context: ExtensionContext) {" |}.


(** ** A text of lines *)

(** A line of a text: an attribution line, or another line. *)
Inductive textLine :=
| Attribution (l : attributionLine)
| Other (s : jsstring).

Definition printTextLine (t : textLine) : jsstring :=
  match t with
  | Attribution l => printLine l
  | Other s => s
  end.

(** The lines, each ended by a line feed. *)
Fixpoint printText (ts : list textLine) : jsstring :=
  match ts with
  | [] => []
  | t :: ts' => printTextLine t ++ nl ++ printText ts'
  end.

(** The attribution lines of a text, in order. *)
Fixpoint attributions (ts : list textLine) : list attributionLine :=
  match ts with
  | [] => []
  | Attribution l :: ts' => l :: attributions ts'
  | Other _ :: ts' => attributions ts'
  end.

(** Whether a line starts with eight characters of the hash class. *)
Definition startsWithHash (s : jsstring) : bool :=
  (8 <=? length s) && forallb isHashChar (take 8 s).

(** The other lines meant here: one line each, that does not start as an
    attribution line does. *)
Definition wellFormedTextLine (t : textLine) : Prop :=
  match t with
  | Attribution l => wellFormedLine l
  | Other s => Forall (fun c => isLineTerminator c = false) s ∧ startsWithHash s = false
  end.

(** Where the timestamp of a line stands in the line. *)
Definition timestampOffset (l : attributionLine) : nat :=
  length (lineHead l) + length (printedAuthor l) + 1.

(** Where the timestamps of the attribution lines stand, the first line
    starting at [start]. *)
Fixpoint linePositions (start : nat) (ts : list textLine) : list nat :=
  match ts with
  | [] => []
  | Attribution l :: ts' =>
      (start + timestampOffset l) :: linePositions (start + length (printLine l) + 1) ts'
  | Other s :: ts' => linePositions (start + length s + 1) ts'
  end.

(** The matches of the attribution lines. *)
Fixpoint matchesOf (start : nat) (ts : list textLine) : list RegExpMatch :=
  match ts with
  | [] => []
  | Attribution l :: ts' =>
      {| index := start; matched := printLine l; groups := capturesOfLine l |}
      :: matchesOf (start + length (printLine l) + 1) ts'
  | Other s :: ts' => matchesOf (start + length s + 1) ts'
  end.

Lemma timestampOffset_lt l : wellFormedLine l → timestampOffset l + 25 < length (printLine l).
Proof.
  intros (_ & _ & _ & _ & _ & _ & Hts & _). apply isTimestamp_accepts in Hts as [Hlen _].
  unfold timestampOffset. rewrite printLine_head_tail. unfold lineTail.
  repeat (rewrite ?length_app; cbn [length]). lia.
Qed.

Lemma linePositions_gt ts : ∀ start p, p ∈ linePositions start ts → start < p.
Proof.
  induction ts as [|[l|s] ts IH]; intros start p Hp; cbn in Hp.
  - by apply elem_of_nil in Hp.
  - apply elem_of_cons in Hp as [->|Hp].
    + unfold timestampOffset. lia.
    + apply IH in Hp. lia.
  - apply IH in Hp. lia.
Qed.

Lemma linePositions_NoDup ts :
  ∀ start, Forall wellFormedTextLine ts → NoDup (linePositions start ts).
Proof.
  induction ts as [|[l|s] ts IH]; intros start Hwf; cbn; [constructor|..];
    apply Forall_cons in Hwf as [Hl Hwf]; [|by apply IH].
  constructor; [|by apply IH].
  intros Hin%linePositions_gt. pose proof (timestampOffset_lt l Hl). lia.
Qed.

Lemma length_linePositions ts start :
  length (linePositions start ts) = length (attributions ts).
Proof.
  revert start. induction ts as [|[l|s] ts IH]; intros start; cbn; [done| |done].
  by rewrite IH.
Qed.

(** The timestamps of the attribution lines stand in the text. *)
Lemma linePositions_timestamps ts :
  ∀ pre data, data = pre ++ printText ts → Forall wellFormedTextLine ts →
    ∀ p, p ∈ linePositions (length pre) ts → p ∈ timestampPositions data.
Proof.
  induction ts as [|[l|s] ts IH]; intros pre data Hdata Hwf p Hp; cbn in Hp;
    [by apply elem_of_nil in Hp|..]; apply Forall_cons in Hwf as [Hl Hwf].
  - apply elem_of_cons in Hp as [->|Hp].
    + destruct Hl as (_ & _ & _ & _ & _ & _ & Hts & _).
      replace (length pre + timestampOffset l)
        with (length (pre ++ lineHead l ++ printedAuthor l ++ [chr " "])).
      2: { unfold timestampOffset. rewrite !length_app. cbn. lia. }
      rewrite Hdata. cbn [printText printTextLine]. rewrite printLine_head_tail. unfold lineTail.
      replace (pre ++ (lineHead l ++ printedAuthor l ++ chr " " :: printedTimestamp l ++
                 replicate (S (alignLine l)) (chr " ") ++ printedLine l ++
                 chr ")" :: printedCode l) ++ nl ++ printText ts)
        with ((pre ++ lineHead l ++ printedAuthor l ++ [chr " "]) ++ printedTimestamp l ++
              (replicate (S (alignLine l)) (chr " ") ++ printedLine l ++
               chr ")" :: printedCode l ++ nl ++ printText ts))
        by (by repeat (rewrite <-?app_assoc; cbn [app])).
      by apply timestampPositions_elem.
    + apply (IH (pre ++ printLine l ++ nl) data); [|done|].
      * rewrite Hdata. cbn [printText printTextLine].
        by repeat (rewrite <-?app_assoc; cbn [app]).
      * rewrite !length_app. cbn [length nl]. by rewrite Nat.add_assoc.
  - apply (IH (pre ++ s ++ nl) data); [|done|].
    + rewrite Hdata. cbn [printText printTextLine].
      by repeat (rewrite <-?app_assoc; cbn [app]).
    + rewrite !length_app. cbn [length nl]. by rewrite Nat.add_assoc.
Qed.

(** When the text holds no more timestamps than attribution lines, every
    timestamp of the text is that of a line. *)
Lemma timestamps_are_of_lines ts :
  Forall wellFormedTextLine ts →
  length (timestampPositions (printText ts)) ≤ length (attributions ts) →
  ∀ p, p ∈ timestampPositions (printText ts) → p ∈ linePositions 0 ts.
Proof.
  intros Hwf Hlen p Hp.
  assert (Hsub : linePositions 0 ts ⊆+ timestampPositions (printText ts)).
  { apply NoDup_submseteq; [by apply linePositions_NoDup|].
    intros q Hq. by apply (linePositions_timestamps ts [] _ eq_refl Hwf). }
  apply submseteq_length_Permutation in Hsub; [|by rewrite length_linePositions].
  by rewrite Hsub.
Qed.

(** No match starts where no hash does, ... *)
Lemma matchAt_needs_a_hash data rest :
  match rest with c :: _ => isHashChar c = false | [] => True end →
  matchAt data blameMatcher rest = None.
Proof.
  intros Hrest. destruct (matchAt data blameMatcher rest) as [[rest' caps]|] eqn:E; [|done].
  exfalso. apply matchAt_blameMatcher in E.
  destruct E as (g1 & s1 & g2 & w2 & g3 & s3 & g4 & s4 & g5 & w5 & g6 & g7 & -> & _ &
                 [Hl1 Hg1] & _).
  destruct g1 as [|c g1]; [cbn in Hl1; lia|].
  apply Forall_cons in Hg1 as [Hc _]. cbn in Hrest. congruence.
Qed.

Lemma matchAt_needs_eight_hash data s rest :
  startsWithHash s = false →
  matchAt data blameMatcher (s ++ nl ++ rest) = None.
Proof.
  intros Hs.
  destruct (matchAt data blameMatcher (s ++ nl ++ rest)) as [[rest' caps]|] eqn:E; [|done].
  exfalso. apply matchAt_blameMatcher in E.
  destruct E as (g1 & s1 & g2 & w2 & g3 & s3 & g4 & s4 & g5 & w5 & g6 & g7 & Heq & _ &
                 [Hl1 Hg1] & _).
  unfold startsWithHash in Hs. apply andb_false_iff in Hs as [Hs|Hs].
  - apply Nat.leb_gt in Hs.
    assert (Hc : g1 !! length s = Some 10%N).
    { apply (f_equal (fun x : list char => x !! length s)) in Heq.
      change (nl ++ rest) with (10%N :: rest) in Heq.
      rewrite list_lookup_middle in Heq by done.
      rewrite lookup_app_l in Heq by lia. done. }
    apply list_elem_of_lookup_2 in Hc. rewrite Forall_forall in Hg1. by apply Hg1 in Hc.
  - destruct (decide (8 ≤ length s)) as [Hle|Hgt].
    + assert (Htake : take 8 s = g1).
      { apply (f_equal (take 8)) in Heq. rewrite take_app_le in Heq by done.
        rewrite take_app_length' in Heq by done. done. }
      rewrite Htake in Hs. apply not_true_iff_false in Hs. apply Hs.
      apply forallb_forall. intros c Hc. apply list_elem_of_In in Hc.
      rewrite Forall_forall in Hg1. by apply Hg1.
    + assert (Hc : g1 !! length s = Some 10%N).
      { apply (f_equal (fun x : list char => x !! length s)) in Heq.
        change (nl ++ rest) with (10%N :: rest) in Heq.
        rewrite list_lookup_middle in Heq by done.
        rewrite lookup_app_l in Heq by lia. done. }
      apply list_elem_of_lookup_2 in Hc. rewrite Forall_forall in Hg1. by apply Hg1 in Hc.
Qed.

(** ... nor where no line does. *)
Lemma matchAt_needs_a_line_start (data : jsstring) j c :
  j < length data → data !! j = Some c → isLineTerminator c = false →
  matchAt data blameMatcher (drop (S j) data) = None.
Proof.
  intros Hj Hc Hterm.
  destruct (matchAt data blameMatcher (drop (S j) data)) as [[rest' caps]|] eqn:E; [|done].
  exfalso. apply matchAt_blameMatcher in E.
  destruct E as (g1 & s1 & g2 & w2 & g3 & s3 & g4 & s4 & g5 & w5 & g6 & g7 & Heq & _ & _ & _ &
                 _ & _ & _ & _ & _ & _ & _ & _ & _ & _ & Hbol & _).
  unfold atLineStart, position in Hbol.
  rewrite length_drop in Hbol.
  replace (length data - (length data - S j)) with (S j) in Hbol by lia.
  assert (Hlk : @lookup nat char jsstring _ j data = Some c) by exact Hc.
  rewrite Hlk in Hbol. congruence.
Qed.

(** [exec] goes through the text, one match for each attribution line. *)
Lemma text_matchesFrom data ts :
  ∀ pre from,
    data = pre ++ printText ts →
    (pre = [] ∨ ∃ pre0, pre = pre0 ++ nl) →
    from ≤ length pre →
    (∀ j, from ≤ j < length pre → matchAt data blameMatcher (drop j data) = None) →
    (∀ p, p ∈ timestampPositions data → length pre ≤ p → p ∈ linePositions (length pre) ts) →
    Forall wellFormedTextLine ts →
    matchesFrom data from (matchesOf (length pre) ts).
Proof.
  induction ts as [|[l|s] ts IH]; intros pre from Hdata Hstart Hfrom Hnone Hpos Hwf.
  - cbn in Hdata. rewrite app_nil_r in Hdata. subst pre. constructor. intros j Hj.
    destruct (decide (j = length data)) as [->|Hne].
    + rewrite drop_all. by apply matchAt_needs_a_hash.
    + apply Hnone. lia.
  - apply Forall_cons in Hwf as [Hl Hwf]. cbn [wellFormedTextLine] in Hl.
    cbn [printText printTextLine] in Hdata. cbn [matchesOf].
    assert (Hdrop : drop (length pre) data = printLine l ++ nl ++ printText ts).
    { rewrite Hdata. by rewrite drop_app_length. }
    assert (Hdrop2 : drop (length pre + length (printLine l)) data = nl ++ printText ts).
    { rewrite <-drop_drop, Hdrop. by rewrite drop_app_length. }
    apply matchesFrom_cons; unfold matchEnd; cbn [index matched groups].
    + exact Hfrom.
    + exact Hnone.
    + rewrite Hdrop, Hdrop2. apply (line_matched data pre); [exact Hdata|exact Hstart|done|exact Hl|].
      intros g4 s4 g5 y Hg4 Hg5 Heq.
      assert (Hle : length g4 ≤ length (lineTail l)).
      { apply (run_prefix dot g4 (lineTail l) (s4 :: g5 ++ y) (nl ++ printText ts));
          [done|done|].
        rewrite Hdata, printLine_head_tail in Heq.
        repeat (rewrite <-?app_assoc in Heq; cbn [app] in Heq).
        by do 2 apply app_inv_head in Heq. }
      assert (Hin : length (pre ++ lineHead l ++ g4 ++ [s4]) ∈ timestampPositions data).
      { rewrite Heq. by apply timestampPositions_elem. }
      apply Hpos in Hin; [|rewrite length_app; lia].
      cbn [linePositions] in Hin. apply elem_of_cons in Hin as [Hin|Hin].
      * unfold timestampOffset in Hin. rewrite !length_app in Hin. cbn [length] in Hin. lia.
      * apply linePositions_gt in Hin. rewrite !length_app in Hin. cbn [length] in Hin.
        rewrite (printLine_head_tail l), length_app in Hin. lia.
    + rewrite Hdrop. by rewrite take_app_length.
    + rewrite Hdata, !length_app. lia.
    + replace (length pre + length (printLine l) + 1)
        with (length (pre ++ printLine l ++ nl)) by (rewrite !length_app; cbn; lia).
      apply IH; [| | | | |exact Hwf].
      * rewrite Hdata. by repeat (rewrite <-?app_assoc; cbn [app]).
      * right. exists (pre ++ printLine l). by rewrite <-app_assoc.
      * rewrite !length_app. lia.
      * intros j Hj. rewrite !length_app in Hj. cbn [length nl] in Hj.
        replace j with (length pre + length (printLine l)) by lia.
        rewrite Hdrop2. by apply matchAt_needs_a_hash.
      * intros p Hp Hle. rewrite !length_app in Hle. cbn [length nl] in Hle.
        apply Hpos in Hp; [|lia]. cbn [linePositions] in Hp.
        apply elem_of_cons in Hp as [->|Hp].
        -- pose proof (timestampOffset_lt l Hl). lia.
        -- rewrite !length_app. cbn [length nl]. by rewrite Nat.add_assoc.
  - apply Forall_cons in Hwf as [[Hs Hhash] Hwf].
    cbn [printText printTextLine] in Hdata. cbn [matchesOf].
    replace (length pre + length s + 1)
      with (length (pre ++ s ++ nl)) by (rewrite !length_app; cbn; lia).
    apply IH; [| | | | |exact Hwf].
    + rewrite Hdata. by repeat (rewrite <-?app_assoc; cbn [app]).
    + right. exists (pre ++ s). by rewrite <-app_assoc.
    + rewrite !length_app. lia.
    + intros j Hj. rewrite !length_app in Hj. cbn [length nl] in Hj.
      destruct (decide (j < length pre)) as [Hlt|Hge]; [apply Hnone; lia|].
      destruct (decide (j = length pre)) as [->|Hne].
      * rewrite Hdata, drop_app_length. by apply matchAt_needs_eight_hash.
      * destruct j as [|j]; [lia|].
        assert (Hlk : ∃ c, s !! (j - length pre) = Some c) by (apply lookup_lt_is_Some; lia).
        destruct Hlk as [c Hc].
        apply (matchAt_needs_a_line_start data j c).
        -- rewrite Hdata, !length_app. lia.
        -- rewrite Hdata. unfold jsstring. rewrite lookup_app_r by lia.
           by rewrite lookup_app_l by lia.
        -- rewrite Forall_forall in Hs. apply Hs. by apply list_elem_of_lookup_2 in Hc.
    + intros p Hp Hle. rewrite !length_app in Hle. cbn [length nl] in Hle.
      apply Hpos in Hp; [|lia]. cbn [linePositions] in Hp.
      rewrite !length_app. cbn [length nl]. by rewrite Nat.add_assoc.
Qed.

Lemma matchesOf_lines ts :
  ∀ start, Forall wellFormedTextLine ts →
    lineOfMatch <$> matchesOf start ts = lineOfLine <$> attributions ts.
Proof.
  induction ts as [|[l|s] ts IH]; intros start Hwf;
    cbn [matchesOf attributions fmap list_fmap]; [done|..];
    apply Forall_cons in Hwf as [Hl Hwf]; [|by apply IH].
  rewrite IH by done. f_equal. by apply lineOfMatch_line.
Qed.

Lemma matchesOf_hashes ts :
  ∀ start, hashOf <$> matchesOf start ts = printedHash <$> attributions ts.
Proof.
  induction ts as [|[l|s] ts IH]; intros start;
    cbn [matchesOf attributions fmap list_fmap]; [done| |by apply IH].
  rewrite IH. f_equal.
Qed.

(** The first line that bears a hash. *)
Definition firstLineWithHash (h : jsstring) (ls : list attributionLine) : option attributionLine :=
  snd <$> list_find (fun l => printedHash l = h) ls.

Lemma firstLineWithHash_cons h l ls :
  firstLineWithHash h (l :: ls)
  = if decide (printedHash l = h) then Some l else firstLineWithHash h ls.
Proof.
  unfold firstLineWithHash. cbn. destruct (decide (printedHash l = h)); [done|].
  rewrite <-option_fmap_compose. by destruct (list_find _ ls) as [[]|].
Qed.

Lemma matchesOf_first h ts :
  ∀ start, Forall wellFormedTextLine ts →
    (fun m => Some (commitOfMatch m)) <$> firstWithHash h (matchesOf start ts)
    = (fun l => Some (commitOfLine l)) <$> firstLineWithHash h (attributions ts).
Proof.
  induction ts as [|[l|s] ts IH]; intros start Hwf; cbn [matchesOf attributions]; [done|..];
    apply Forall_cons in Hwf as [Hl Hwf]; [|by apply IH].
  rewrite firstWithHash_cons, firstLineWithHash_cons.
  change (hashOf {| index := start; matched := printLine l; groups := capturesOfLine l |})
    with (printedHash l).
  destruct (decide (printedHash l = h)); [|by apply IH].
  cbn. by rewrite commitOfMatch_line.
Qed.


(** An attribution line of another commit. *)
Definition importLine : attributionLine :=
  {| printedHash := js "^1a2b3c4";
     printedPath := js "src/git.ts";
     alignOriginalLine := 2;
     printedOriginalLine := js "3";
     printedAuthor := js "Ann Lee";
     printedTimestamp := js "2016-08-29 10:00:00 +0100";
     alignLine := 1;
     printedLine := js "15";
     printedCode := js "     const uri = Uri.parse(path);" |}.

(** A text with a warning and an empty line among the attribution lines. *)
Definition blameText : list textLine :=
  [ Other (js "warning: refname HEAD is ambiguous.");
    Attribution activateLine;
    Attribution importLine;
    Other [];
    Attribution activateLine ].


(** ** The index of an identifier *)

(** [pad(n)] of [toBlameUri] (source line 92), for a given [commitCount]. *)
Definition pad (commitCount n : number) : jsstring :=
  sliceLast (js "0000000" ++ numberToString n) (length (numberToString commitCount)).

Lemma numberToString_nonempty x : 1 ≤ length (numberToString x).
Proof. destruct x as [|z]; [cbn; lia|apply numberToString_length]. Qed.

Lemma pad_drop commitCount n :
  pad commitCount n
  = drop (7 + length (numberToString n) - length (numberToString commitCount))
         (js "0000000" ++ numberToString n).
Proof.
  unfold pad, sliceLast. pose proof (numberToString_nonempty commitCount) as Hw.
  destruct (length (numberToString commitCount)) as [|w] eqn:E; [lia|].
  by rewrite length_app.
Qed.

Lemma length_pad commitCount n :
  length (pad commitCount n)
  = length (numberToString commitCount) `min` (7 + length (numberToString n)).
Proof.
  rewrite pad_drop. pose proof (numberToString_nonempty commitCount) as Hw.
  rewrite length_drop, length_app. cbn. lia.
Qed.

Lemma pad_fills commitCount n :
  length (numberToString n) ≤ length (numberToString commitCount) →
  pad commitCount n
  = replicate ((length (numberToString commitCount) - length (numberToString n)) `min` 7)
              (chr "0") ++ numberToString n.
Proof.
  intros Hle. rewrite pad_drop. pose proof (numberToString_nonempty commitCount) as Hw.
  change (js "0000000") with (replicate 7 (chr "0")).
  rewrite drop_app_le by (rewrite length_replicate; lia).
  rewrite drop_replicate. do 2 f_equal. lia.
Qed.

(** X17. What [pad] gives, whatever its arguments: the text of the number
    behind up to seven zeros, cut to its last characters, as many as the
    text of the commit count has.  So a number whose text is longer than
    that of the commit count loses its leading characters, and one that is
    more than seven characters shorter is not filled up. *)
Theorem pad_cuts_and_fills (commitCount n : number) :
  length (pad commitCount n)
    = length (numberToString commitCount) `min` (7 + length (numberToString n)) ∧
  (length (numberToString n) ≤ length (numberToString commitCount) →
   pad commitCount n
   = replicate ((length (numberToString commitCount) - length (numberToString n)) `min` 7)
               (chr "0") ++ numberToString n) ∧
  (length (numberToString commitCount) < length (numberToString n) →
   pad commitCount n
   = drop (length (numberToString n) - length (numberToString commitCount))
          (numberToString n)).
Proof.
  split_and!.
  - apply length_pad.
  - apply pad_fills.
  - intros Hlt. rewrite pad_drop. rewrite drop_app_ge by (cbn; lia). f_equal. cbn. lia.
Qed.

Lemma digitsValue_zeros k ds : digitsValue (replicate k (chr "0") ++ ds) = digitsValue ds.
Proof.
  unfold digitsValue. rewrite foldl_app. f_equal.
  induction k as [|k IH]; cbn; [done|]. exact IH.
Qed.

(** X18. For an index that is not negative and whose text is not longer
    than that of the commit count, the commit count having at most eight
    digits, [pad] gives the digits of the index behind zeros, as many
    characters as the commit count has digits: a text of digits whose
    value is the index. *)
Theorem pad_is_the_index_behind_zeros (commitCount index : Z) :
  (0 ≤ index)%Z →
  length (numberToString (Num index)) ≤ length (numberToString (Num commitCount)) ≤ 8 →
  pad (Num commitCount) (Num index)
    = replicate (length (numberToString (Num commitCount)) - length (numberToString (Num index)))
                (chr "0") ++ numberToString (Num index) ∧
  length (pad (Num commitCount) (Num index)) = length (numberToString (Num commitCount)) ∧
  Forall (fun c => isDigit c = true) (pad (Num commitCount) (Num index)) ∧
  digitsValue (pad (Num commitCount) (Num index)) = index.
Proof.
  intros H0 [Hle H8].
  pose proof (length_pad (Num commitCount) (Num index)) as Hlen.
  pose proof (pad_fills (Num commitCount) (Num index) Hle) as Hfill.
  pose proof (numberToString_nonempty (Num index)) as Ht.
  rewrite Nat.min_l in Hfill by lia.
  assert (Htext : numberToString (Num index) = decimal (Z.abs_N index)).
  { rewrite numberToString_Num. destruct (Z.ltb_spec index 0); [lia|done]. }
  split_and!.
  - done.
  - rewrite Hlen. lia.
  - rewrite Hfill. apply Forall_app. split.
    + apply Forall_replicate. done.
    + rewrite Htext. apply decimal_digits.
  - rewrite Hfill, digitsValue_zeros, Htext, decimal_value. rewrite N2Z.inj_abs_N. lia.
Qed.

Lemma pad_is_the_index_behind_zeros_witness :
  pad (Num 15) (Num 2) = replicate (2 - 1) (chr "0") ++ js "2" ∧
  length (pad (Num 15) (Num 2)) = 2 ∧
  Forall (fun c => isDigit c = true) (pad (Num 15) (Num 2)) ∧
  digitsValue (pad (Num 15) (Num 2)) = 2%Z.
Proof.
  apply (pad_is_the_index_behind_zeros 15 2).
  - lia.
  - vm_compute. lia.
Defined.

Lemma schemePart_scheme s rest :
  s ≠ [] → Forall (fun c => notIn ":/?#" c = true) s →
  schemePart (s ++ chr ":" :: rest) = (s, rest).
Proof.
  intros Hne Hs. unfold schemePart.
  rewrite (span_app_stop (notIn ":/?#") s (chr ":") rest Hs eq_refl).
  destruct s as [|c w]; [done|]. done.
Qed.

Lemma authorityPart_none s :
  match s with c :: _ => isChar "/" c = false | [] => True end →
  authorityPart s = ([], s).
Proof. destruct s as [|c [|d r]]; cbn; try done. by intros ->. Qed.

Lemma numberToString_noSlash x : Forall (fun c => isChar "/" c = false) (numberToString x).
Proof.
  destruct x as [|z].
  - by repeat constructor.
  - rewrite numberToString_Num. apply Forall_app. split.
    + destruct (z <? 0)%Z; by repeat constructor.
    + eapply Forall_impl; [apply decimal_digits|]. intros c Hc.
      apply isDigit_bounds in Hc. apply N.eqb_neq. change (chr "/") with 47%N. lia.
Qed.

Lemma pad_noSlash commitCount n : Forall (fun c => isChar "/" c = false) (pad commitCount n).
Proof.
  apply sliceLast_Forall. apply Forall_app. split; [by repeat constructor|].
  apply numberToString_noSlash.
Qed.

Section Components.
Context `{Host}.

(** The text an identifier shows for a commit. *)
Definition blameUriPath (commit : IGitBlameCommit) (index commitCount : number) : jsstring :=
  pad commitCount index ++ js ". " ++ Commit.author commit ++ js ", " ++
  formatDate (Commit.date commit) ++ js " - " ++
  (dirname (Commit.fileName commit) ++ js "/" ++ Commit.sha commit ++ js ": " ++
   basename (Commit.fileName commit) (extname (Commit.fileName commit)) ++
   extname (Commit.fileName commit)).

Lemma blameUriHead_path commit index commitCount :
  blameUriHead commit index commitCount
  = gitBlameScheme ++ chr ":" :: blameUriPath commit index commitCount.
Proof. done. Qed.

(** X19. For inputs whose identifier can be read back, and a scheme that
    is a scheme (not empty, without colon, slash, question mark and hash),
    [toBlameUri] returns an identifier with that scheme, no authority and
    no fragment; its path is the padded index, a full stop, the author, the
    printed date and the path of the file with the hash put before the
    file name; its query is the JSON text of the file path joined to the
    repository path, the hash, the range and the index. *)
Theorem toBlameUri_components (repoPath : jsstring) (commit : IGitBlameCommit)
    (range : Range) (index : Z) (commitCount : number) :
  encodable repoPath commit →
  gitBlameScheme ≠ [] →
  Forall (fun c => notIn ":/?#" c = true) gitBlameScheme →
  toBlameUri repoPath commit range (Num index) commitCount
  = Returned
      {| scheme := gitBlameScheme;
         authority := [];
         path := pad commitCount (Num index) ++ js ". " ++ Commit.author commit ++ js ", " ++
                 formatDate (Commit.date commit) ++ js " - " ++
                 dirname (Commit.fileName commit) ++ js "/" ++ Commit.sha commit ++ js ": " ++
                 basename (Commit.fileName commit) (extname (Commit.fileName commit)) ++
                 extname (Commit.fileName commit);
         query := stringify (IGitBlameUriData_toJSON
                    {| uriFileName := join repoPath (Commit.fileName commit);
                       uriSha := Commit.sha commit;
                       uriRange := range;
                       uriIndex := Num index |});
         fragment := [] |}.
Proof.
  intros Henc Hne Hscheme.
  pose proof (blameUriHead_headChar repoPath commit (Num index) commitCount Henc) as Hhead.
  pose proof (blameUriData_queryChar repoPath commit range index Henc) as Hpayload.
  unfold toBlameUri, Uri_parse. rewrite blameUriText_parts.
  rewrite bool_decide_eq_false_2 by by apply percent_free.
  f_equal. rewrite blameUriHead_path in *.
  apply Forall_app in Hhead as [_ Hhead]. apply Forall_cons in Hhead as [_ Hhead].
  set (p := blameUriPath commit (Num index) commitCount) in *.
  set (payload := stringify _) in *.
  unfold uriComponents. rewrite <-app_assoc. cbn [app].
  rewrite (schemePart_scheme _ _ Hne Hscheme).
  rewrite authorityPart_none.
  2: { unfold p, blameUriPath. pose proof (pad_noSlash commitCount (Num index)) as Hpad.
       destruct (pad commitCount (Num index)) as [|c cs]; [done|].
       by apply Forall_cons in Hpad as [Hc _]. }
  rewrite (span_app_stop (notIn "?#") p (chr "?") payload); [|
    eapply Forall_impl; [exact Hhead|]; apply headChar_plain | done].
  unfold queryPart. change (isChar "?" (chr "?")) with true. cbv iota.
  rewrite span_all by (eapply Forall_impl; [exact Hpayload|]; apply queryChar_noHash).
  done.
Qed.
End Components.

Lemma toBlameUri_components_witness :
  toBlameUri (H := sampleHost) (js "/repo") sampleCommit (lineRange 3 7) (Num 2) (Num 15)
  = Returned
      {| scheme := js "gitblame";
         authority := [];
         path := js "02. Eric Amodio, Invalid date - src/8ad3b1c9: extension.ts";
         query := stringify (IGitBlameUriData_toJSON
                    {| uriFileName := js "/repo/src/extension.ts";
                       uriSha := js "8ad3b1c9";
                       uriRange := lineRange 3 7;
                       uriIndex := Num 2 |});
         fragment := [] |}.
Proof.
  apply (toBlameUri_components (H := sampleHost) (js "/repo") sampleCommit (lineRange 3 7) 2 (Num 15)).
  - repeat split; vm_compute; repeat constructor.
  - discriminate.
  - vm_compute. repeat constructor.
Defined.

(** ** Identifiers that are not blame identifiers *)

Lemma JSON_parse_empty : JSON_parse [] = None.
Proof. reflexivity. Qed.

Lemma uriComponents_no_query text :
  chr "?" ∉ text → query (uriComponents text) = [].
Proof.
  intros Hno. unfold uriComponents.
  destruct (schemePart_spec text) as (x1 & Heq1 & _).
  destruct (schemePart text) as [sch r1]. cbn [snd] in Heq1.
  destruct (authorityPart_spec r1) as (x2 & Heq2 & _).
  destruct (authorityPart r1) as [auth r2]. cbn [snd] in Heq2.
  destruct (span_spec (notIn "?#") r2) as [Heq3 _].
  destruct (span (notIn "?#") r2) as [pth r3]. cbn [fst snd] in Heq3.
  assert (Hr3 : chr "?" ∉ r3).
  { intros Hin. apply Hno. rewrite Heq1, Heq2, Heq3. rewrite !elem_of_app. auto. }
  unfold queryPart. destruct r3 as [|c r]; [done|].
  destruct (isChar "?" c) eqn:E; [|done].
  apply N.eqb_eq in E. subst c. destruct Hr3. left.
Qed.

(** X20. An identifier without a query is not a blame identifier: for a
    text without question mark (and without percent sign, so that nothing
    is to be decoded), [fromBlameUri] of the identifier the editor parses
    from it throws. *)
Theorem fromBlameUri_without_query_throws (text : jsstring) :
  chr "?" ∉ text →
  chr "%" ∉ text →
  Uri_parse text ≫= fromBlameUri = Thrown.
Proof.
  intros Hq Hp. unfold Uri_parse. rewrite bool_decide_eq_false_2 by done.
  cbn [mbind outcome_bind]. unfold fromBlameUri.
  by rewrite uriComponents_no_query, JSON_parse_empty.
Qed.

Lemma fromBlameUri_without_query_throws_witness :
  Uri_parse (js "file:///repo/src/extension.ts") ≫= fromBlameUri = Thrown.
Proof.
  apply (fromBlameUri_without_query_throws (js "file:///repo/src/extension.ts")).
  - apply (bool_decide_unpack _). vm_compute. exact I.
  - apply (bool_decide_unpack _). vm_compute. exact I.
Defined.

(** X21. An author whose name ends with a question mark: whatever the
    host, when the scheme and the rest of the name hold no question mark,
    hash or percent sign and the text of the identifier no percent sign,
    the query of the identifier starts after that question mark, and
    decoding the identifier throws. *)
Theorem author_question_mark_throws `{Host} repoPath commit range index commitCount name :
  Forall headChar gitBlameScheme →
  Forall headChar name →
  Commit.author commit = name ++ js "?" →
  chr "%" ∉ blameUriText repoPath commit range index commitCount →
  toBlameUri repoPath commit range index commitCount ≫= fromBlameUri = Thrown.
Proof.
  intros Hscheme Hname Hauthor Hpercent.
  unfold toBlameUri, Uri_parse. rewrite bool_decide_eq_false_2 by done.
  cbn [mbind outcome_bind]. unfold fromBlameUri, blameUriText.
  cbv zeta. rewrite Hauthor.
  set (pad := sliceLast _ _).
  set (rest := formatDate _ ++ _).
  replace (gitBlameScheme ++ js ":" ++ pad ++ js ". " ++ (name ++ js "?") ++ js ", " ++ rest)
    with ((gitBlameScheme ++ js ":" ++ pad ++ js ". " ++ name) ++
          chr "?" :: chr "," :: chr " " :: rest)
    by (repeat rewrite <-app_assoc; reflexivity).
  rewrite uriComponents_query_span.
  - change (span (notIn "#") (chr "," :: chr " " :: rest))
      with (let '(w, r) := span (notIn "#") (chr " " :: rest) in (chr "," :: w, r)).
    destruct (span (notIn "#") (chr " " :: rest)) as [w r]. cbn [fst].
    by rewrite JSON_parse_comma.
  - eapply Forall_impl; [|apply headChar_plain].
    repeat (apply Forall_app; split); try done; try (by repeat constructor).
    apply sliceLast_Forall. apply Forall_app. split; [by repeat constructor|].
    apply numberToString_headChar.
Qed.

Lemma author_question_mark_throws_witness :
  toBlameUri (H := sampleHost) (js "/repo") whoCommit (lineRange 3 7) (Num 2) (Num 15)
    ≫= fromBlameUri = Thrown.
Proof.
  apply (author_question_mark_throws (H := sampleHost) (js "/repo") whoCommit (lineRange 3 7)
           (Num 2) (Num 15) (js "Who")).
  - vm_compute. repeat constructor.
  - vm_compute. repeat constructor.
  - reflexivity.
  - apply (bool_decide_unpack _). vm_compute. exact I.
Defined.
